(** * Billboard Hot 100 scraper and analysis helpers: a shallow embedding

    The development follows the repository's Python sources:
    - [src/utils.py]: [labels_match], [spotify_audio_features],
      [artist_stats], [genres_popul];
    - [src/music_data_scraper/.../spiders/billboard.py], [itemloaders.py],
      [items.py]: the Billboard spider and its item loader.

    Part I holds the embedding (one module per source unit, with the
    strings, floats and int64 numbers of the runtime), Part II the facts
    proved about it and Part III further facts about the code. *)

From Stdlib Require Import ZArith NArith QArith Qminmax Qround Qabs Qpower Qfield Lqa List Sorted Lia Bool Ascii String.
From stdpp Require Import base decidable option list gmap strings.

Local Open Scope Z_scope.

(* ===================================================================== *)
(** * Part I: the embedding                                               *)
(* ===================================================================== *)

(** ** Python strings

    A Python [str] is a sequence of Unicode code points; a code point is an
    [N].  Literals of the sources are written [u "..."] when they are ASCII
    and by their code points otherwise. *)
Module PyStr.

Definition pystr := list N.

Definition u (s : string) : pystr :=
  map N_of_ascii (list_ascii_of_string s).

Definition SPACE : N := 32.
Definition COMMA : N := 44.
Definition NBSP : N := 160.           (* U+00A0, the third separator of the regex *)
Definition APOSTROPHE : N := 39.
Definition RIGHT_QUOTE : N := 8217.   (* U+2019 *)

Definition str_eqb (a b : pystr) : bool := bool_decide (a = b).

(** *** What the embedding takes from the Python runtime

    [str.lower()] and the decimal digits [int()] reads follow the Unicode
    tables of the runtime: [str.lower] folds every cased letter, depends on
    the context (the final sigma) and can change the length of a string;
    [int] reads every character of category Nd.  The embedding takes both
    as given ([str_lower], and [unicode_decimal] for the digit value of a
    code point, CPython's [Py_UNICODE_TODECIMAL]) and uses of them only
    what they do on ASCII: [str.lower] maps A-Z to a-z there, and the
    decimal digits are 0-9.  [int_max_str_digits] is
    [sys.get_int_max_str_digits()], the number of digits above which
    [int()] raises ValueError: 0 for no limit (and for a CPython that has
    none), 4300 by default, and never set below 640. *)
Definition is_ascii (c : N) : bool := (c <? 128)%N.

Definition ascii_lower_char (c : N) : N :=
  if (65 <=? c)%N && (c <=? 90)%N then (c + 32)%N else c.

Definition ascii_lower (s : pystr) : pystr := map ascii_lower_char s.

Definition ascii_decimal (c : N) : option Z :=
  if (48 <=? c)%N && (c <=? 57)%N then Some (Z.of_N c - 48) else None.

Class Runtime := {
  str_lower : pystr -> pystr;
  unicode_decimal : N -> option Z;
  int_max_str_digits : nat;
  str_lower_ascii (s : pystr) : forallb is_ascii s = true -> str_lower s = ascii_lower s;
  unicode_decimal_ascii (c : N) : is_ascii c = true -> unicode_decimal c = ascii_decimal c;
  int_max_str_digits_min : int_max_str_digits = 0%nat \/ (640 <= int_max_str_digits)%nat }.

(** The two functions on ASCII text, extended to every string by the ASCII
    rule, and the default limit; the examples, whose data are short ASCII
    texts, are evaluated with it. *)
Definition ascii_runtime : Runtime :=
  {| str_lower := ascii_lower;
     unicode_decimal := ascii_decimal;
     int_max_str_digits := 4300;
     str_lower_ascii := fun _ _ => eq_refl;
     unicode_decimal_ascii := fun _ _ => eq_refl;
     int_max_str_digits_min := or_intror (proj1 (Nat.leb_le 640 4300) eq_refl) |}.

(** [re.sub(c, d, s)] for a pattern that is the single literal code point
    [c] and a replacement that is the single code point [d]. *)
Definition sub_char (c d : N) (s : pystr) : pystr :=
  map (fun x => if (x =? c)%N then d else x) s.

(** [re.sub(r'!|\[|\]|\(|\)', '', s)]: every occurrence of one of the five
    characters is deleted. *)
Definition SONG_PUNCT : list N := [33; 91; 93; 40; 41]%N.

Definition is_song_punct (c : N) : bool := bool_decide (c ∈ SONG_PUNCT).

Definition strip_song_punct (s : pystr) : pystr :=
  filter (fun c => is_song_punct c = false) s.

(** [re.split(r', | | ', s)] (the third alternative is U+00A0): scanning
    from the left, at each position the alternatives are tried in order,
    comma-space first; [cur] is the token read so far, reversed.  The result
    always has at least one token. *)
Fixpoint re_split_from (cur : pystr) (s : pystr) : list pystr :=
  match s with
  | [] => [rev cur]
  | c :: s' =>
      if (c =? COMMA)%N then
        match s' with
        | d :: s'' =>
            if (d =? SPACE)%N then rev cur :: re_split_from [] s''
            else re_split_from (c :: cur) s'
        | [] => re_split_from (c :: cur) s'
        end
      else if (c =? SPACE)%N || (c =? NBSP)%N then rev cur :: re_split_from [] s'
      else re_split_from (c :: cur) s'
  end.

Definition re_split (s : pystr) : list pystr := re_split_from [] s.

(** [str.isspace] of one code point: the Unicode white space CPython's
    [str.strip()] removes. *)
Definition WHITESPACE : list N :=
  [9; 10; 11; 12; 13; 28; 29; 30; 31; 32; 133; 160; 5760;
   8192; 8193; 8194; 8195; 8196; 8197; 8198; 8199; 8200; 8201; 8202;
   8232; 8233; 8239; 8287; 12288]%N.

Definition is_space (c : N) : bool := bool_decide (c ∈ WHITESPACE).

Fixpoint lstrip (s : pystr) : pystr :=
  match s with
  | c :: s' => if is_space c then lstrip s' else s
  | [] => []
  end.

Definition strip (s : pystr) : pystr := rev (lstrip (rev (lstrip s))).

End PyStr.

(** ** Binary64 arithmetic

    Python's [float] is IEEE 754 binary64.  A float that is a number is
    given by its value, a rational; an operation computes the exact result
    and rounds it to the nearest binary64 value, ties to the even
    significand ([round64]).  Significands have 53 bits and the unit in the
    last place is at least 2^-1074 (subnormal numbers included).  The
    largest exponent is not bounded here: the operations of [labels_match]
    never reach it (a quotient of two counts is at most 1, and the
    difference of a float and 1e-5 rounds to a float). *)
Module Float64.

Inductive pyfloat := Finite (q : Q) | PosInf | NegInf | NotANumber.

Definition pow2 (e : Z) : Q := (2 ^ e)%Q.

Definition ilog2 (a : Q) : Z :=
  let e := Z.log2 (Qnum a) - Z.log2 (Z.pos (Qden a)) in
  if Qle_bool (pow2 e) a then e else e - 1.

Definition ulp_exp (a : Q) : Z := Z.max (ilog2 a) (-1022) - 52.

Definition round_half_even (x : Q) : Z :=
  let f := Qfloor x in
  match (x - inject_Z f ?= 1 # 2)%Q with
  | Lt => f
  | Gt => f + 1
  | Eq => if Z.even f then f else f + 1
  end.

Definition round64_pos (a : Q) : Q :=
  let q := ulp_exp a in
  (inject_Z (round_half_even (a / pow2 q)) * pow2 q)%Q.

Definition round64 (x : Q) : Q :=
  match (x ?= 0)%Q with
  | Eq => 0%Q
  | Gt => round64_pos x
  | Lt => (- round64_pos (- x))%Q
  end.

(** [x - y] for a float [x] and a finite float of value [y]; an infinity
    and NaN stay what they are. *)
Definition float_sub (x : pyfloat) (y : Q) : pyfloat :=
  match x with
  | Finite q => Finite (round64 (q - y))
  | other => other
  end.

(** [x <= y] on floats: false as soon as one of them is NaN. *)
Definition float_le (x y : pyfloat) : bool :=
  match x, y with
  | NotANumber, _ | _, NotANumber => false
  | NegInf, _ | _, PosInf => true
  | Finite a, Finite b => Qle_bool a b
  | _, _ => false
  end.

(** [float(z)] for an int [z] and [x / y] for two floats, [y] not 0. *)
Definition float_of_int (z : Z) : Q := round64 (inject_Z z).

Definition float_div (x y : Q) : Q := round64 (x / y).

(** What [ulp_exp] satisfies: [q] is the exponent of the unit in the last
    place of a positive [a]. *)
Definition ulp_ok (a : Q) (q : Z) : Prop :=
  (-1074 <= q)%Z /\ (a < pow2 53 * pow2 q)%Q
  /\ ((-1074 < q)%Z -> (pow2 52 * pow2 q <= a)%Q).

End Float64.

(** ** [utils.labels_match] *)
Module Labels.
Import PyStr Float64.

Definition NaN_label : pystr := u "NaN".

(** The float [1e-5]: the binary64 value nearest to 1/100000. *)
Definition TOLERANCE : Q := 5902958103587057 # 590295810358705651712.

Definition DEFAULT_THRESH : pyfloat := Finite (1 # 2).

(** The counting loop
    [coef = 0; for word in xs: if word in ys: coef += 1]. *)
Definition count_in (xs ys : list pystr) : Z :=
  fold_left (fun coef word => if bool_decide (word ∈ ys) then coef + 1 else coef) xs 0.

(** [k / len(xs)], the true division of two ints: the quotient rounded to
    a float; [None] stands for ZeroDivisionError. *)
Definition true_div (k : Z) (n : nat) : option Q :=
  match n with
  | O => None
  | S _ => Some (round64 (inject_Z k / inject_Z (Z.of_nat n)))
  end.

(** Python's [max(x, y)]: the first argument unless the second is greater. *)
Definition py_max (x y : Q) : Q := if Qle_bool y x then x else y.

(** [max(coef_01 / len(l0), coef_10 / len(l1))]. *)
Definition match_coef (l0 l1 : list pystr) : option Q :=
  c01 ← true_div (count_in l0 l1) (length l0);
  c10 ← true_div (count_in l1 l0) (length l1);
  Some (py_max c01 c10).

Section WithRuntime.
Context {RT : Runtime}.

(** Lines 39-42 and 56-61: the right quote is replaced, for a song the
    punctuation is removed, then the label is lowercased and split. *)
Definition artist_tokens (artist : pystr) : list pystr :=
  re_split (str_lower (sub_char RIGHT_QUOTE APOSTROPHE artist)).

Definition song_tokens (song : pystr) : list pystr :=
  re_split (str_lower (strip_song_punct (sub_char RIGHT_QUOTE APOSTROPHE song))).

(** [labels_match(original_labels, compared_labels, match_thresh)] for a
    float [match_thresh]; [None] stands for an exception (IndexError on a
    list shorter than two, ZeroDivisionError). *)
Definition labels_match (original_labels compared_labels : list pystr)
    (match_thresh : pyfloat) : option bool :=
  let match_thresh := float_sub match_thresh TOLERANCE in
  artist_0 ← original_labels !! 0%nat;
  song_0 ← original_labels !! 1%nat;
  artist_1 ← compared_labels !! 0%nat;
  song_1 ← compared_labels !! 1%nat;
  if str_eqb artist_1 NaN_label || str_eqb song_1 NaN_label then Some false
  else
    coef_a ← match_coef (artist_tokens artist_0) (artist_tokens artist_1);
    coef_s ← match_coef (song_tokens song_0) (song_tokens song_1);
    if float_le match_thresh (Finite coef_a) && float_le match_thresh (Finite coef_s)
    then Some true else Some false.

End WithRuntime.

(** *** The claim's wording, to compare with the code

    A coefficient is the maximum of the two directional overlap fractions
    (as a float: the fraction rounded). *)
Definition overlap_fraction (xs ys : list pystr) : Q :=
  (inject_Z (Z.of_nat (length (filter (fun w => w ∈ ys) xs)))
   / inject_Z (Z.of_nat (length xs)))%Q.

Definition overlap_coef (xs ys : list pystr) : Q :=
  round64 (Qmax (overlap_fraction xs ys) (overlap_fraction ys xs)).

(** The float 1.00001 and the float that follows it. *)
Definition T_100001 : Q := 2251822331683385 # 2251799813685248.
Definition T_100001_next : Q := 4503644663366771 # 4503599627370496.

End Labels.

(** ** NumPy helpers used by the analysis functions *)
Module Np.

(** Insertion into a strictly increasing list; a value already present is
    not inserted again. *)
Fixpoint insert_unique (x : Z) (l : list Z) : list Z :=
  match l with
  | [] => [x]
  | y :: l' =>
      if x <? y then x :: l
      else if x =? y then l
      else y :: insert_unique x l'
  end.

(** [np.unique(a)]: the sorted distinct values of [a]. *)
Definition unique (a : list Z) : list Z := fold_right insert_unique [] a.

(** [np.union1d(a, b)] is [np.unique(np.concatenate((a, b)))]. *)
Definition union1d (a b : list Z) : list Z := unique (a ++ b).

(** Arithmetic on int64, the dtype of an integer column: a result outside
    the range comes back into it modulo 2^64, without an exception. *)
Definition wrap64 (z : Z) : Z := (z + 2 ^ 63) mod 2 ^ 64 - 2 ^ 63.

Definition int64_add (a b : Z) : Z := wrap64 (a + b).
Definition int64_sub (a b : Z) : Z := wrap64 (a - b).

End Np.

(** ** [utils.spotify_audio_features]

    The function talks to the Spotify web API.  The embedding is a function
    of the list [w] of the HTTP responses the servers give, in the order the
    requests are made; it returns the trace of what the function does
    (requests, console output, sleeps, file writes) and how it ends.  When
    [w] is used up while a request is outstanding the run is [Pending]:
    a longer list of responses continues it.  Every response body is a JSON
    document of one of the shapes below, and the log file can be written
    (the directory [spotify_API_logs] exists). *)
Module Spotify.
Import PyStr.

(** The four URLs: the token endpoint and the three API endpoints. *)
Inductive api := Token | Search | AudioFeatures | Artists.

(** The JSON documents the function reads. *)
Record artist_ref := { ar_name : pystr; ar_id : pystr }.

Record track_item := {
  item_artists : option (list artist_ref);   (* item['artists'], None or a list *)
  item_name : pystr;
  item_id : pystr }.

Record audio_features := { feat_id : pystr; feat_values : list Q }.

Record artist_obj := { art_id : pystr; art_genres : option (list pystr) }.

Inductive json :=
| JTracks (items : list track_item)                (* {'tracks': {'items': [...]}} *)
| JFeatures (feats : list (option audio_features)) (* {'audio_features': [...]} *)
| JArtists (arts : list (option artist_obj))       (* {'artists': [...]} *)
| JToken (access_token : pystr)                    (* {'access_token': ...} *)
| JError (message : pystr).

(** An HTTP response: [retry_after] is [int(resp.headers['retry-after'])],
    which the code reads on a 429 only. *)
Record response := {
  status_code : Z;
  retry_after : Z;
  body : json }.

Inductive message :=
| MsgSearchRateLimit (retry_seconds : Z)  (* 'Search rate limit exceeded!' and the retry time *)
| MsgSearchException (b : json)
| MsgFeaturesException (b : json)
| MsgArtistsException (b : json)
| MsgPostpone.                            (* 'Trying to postpone the request for 5 seconds...' *)

Inductive exn :=
| TokenException (b : json)
| FeaturesRateLimit (b : json)            (* 'Audio features rate limit exceeded: ...' *)
| ArtistsRateLimit (b : json)             (* 'Artists rate limit exceeded: ...' *)
| KeyError
| IndexError
| ZeroDivisionError
| AttributeError
| TypeError.

(** One row of the input frame, and one record of the batch container. *)
Record hot_row := { hot_date : Z; hot_artist : pystr; hot_song : pystr }.

Record batch_row := {
  b_date : Z;
  artist_orig : pystr;
  song_orig : pystr;
  artist_spot : pystr;
  song_spot : pystr;
  artist_spot_id : pystr;
  song_spot_id : pystr;
  matched : Z }.

(** A row of the frame [save_batch] returns: a batch record with the
    genres of its artist and the audio features of its song.  [None] is
    the NaN of a record without a partner in the merge; the genres of a
    partner can themselves be null. *)
Record merged_row := {
  mr_batch : batch_row;
  mr_genres : option (option (list pystr));
  mr_features : option audio_features }.

Definition batch_frame : Type := list merged_row.

Inductive csv_mode := ModeW | ModeA.      (* to_csv default mode 'w', or mode='a' *)

Inductive event :=
| EvPost (client_id client_secret : pystr)           (* requests.post(token url, ...) *)
| EvGet (a : api) (params : pystr) (auth : pystr)    (* requests.get(api, params, headers) *)
| EvRecv (a : api) (r : response)                    (* the response of endpoint [a] *)
| EvPrint (m : message)
| EvSleep (seconds : Z)
| EvDisplay (date hot_i no_hot batch_i no_batches : Z)
| EvAllCollected                                     (* 'All the batches collected!' *)
| EvToCsv (mode : csv_mode) (header : bool) (frame : batch_frame).

Inductive outcome (A : Type) :=
| Done (x : A)          (* the code block ran to its end *)
| Return (b : bool)     (* a [return] statement of the function *)
| Raised (e : exn)      (* an exception, which nothing catches *)
| Pending.              (* a request is outstanding: [w] is used up *)
Arguments Done {A} x.
Arguments Return {A} b.
Arguments Raised {A} e.
Arguments Pending {A}.

Definition run (A : Type) : Type := (list event * outcome A)%type.

Definition prepend {A} (evs : list event) (r : run A) : run A :=
  (evs ++ r.1, r.2).

Definition bind {A B} (r : run A) (k : A -> run B) : run B :=
  match r.2 with
  | Done x => prepend r.1 (k x)
  | Return b => (r.1, Return b)
  | Raised e => (r.1, Raised e)
  | Pending => (r.1, Pending)
  end.

(** *** The frames of [save_batch] (lines 164-187) *)

(** The loops [for i, x in enumerate(l): if <x is null>: del l[i]]: the
    deletion moves the rest of the list one place down, so the element
    after a deleted one is not visited. *)
Fixpoint del_nulls {A} (l : list (option A)) : list (option A) :=
  match l with
  | [] => []
  | Some x :: rest => Some x :: del_nulls rest
  | None :: rest =>
      match rest with
      | [] => []
      | y :: rest' => y :: del_nulls rest'
      end
  end.

(** The loop over the artists reads [artist['genres']], which raises
    TypeError on a null artist. *)
Fixpoint del_no_genres (l : list (option artist_obj)) : exn + list (option artist_obj) :=
  match l with
  | [] => inr []
  | None :: _ => inl TypeError
  | Some a :: rest =>
      match art_genres a with
      | Some _ =>
          match del_no_genres rest with
          | inl e => inl e
          | inr kept => inr (Some a :: kept)
          end
      | None =>
          match rest with
          | [] => inr []
          | y :: rest' =>
              match del_no_genres rest' with
              | inl e => inl e
              | inr kept => inr (y :: kept)
              end
          end
      end
  end.

(** [pd.DataFrame(l)] for a list of JSON objects and nulls.  With an object
    first the rows are read as dicts, and a null among them raises
    AttributeError; an empty list gives a frame without columns and a list
    that starts with a null a frame with one unnamed column: [None] stands
    for such a frame, which has none of the columns the code asks for. *)
Definition data_frame {A} (l : list (option A)) : exn + option (list A) :=
  match l with
  | [] => inr None
  | None :: _ => inr None
  | Some x :: rest =>
      match mapM id rest with
      | Some rows => inr (Some (x :: rows))
      | None => inl AttributeError
      end
  end.

(** [left.merge(right, how='left', on=key)]: every row of [left], in order,
    with each row of [right] of the same key, in the order of [right], or
    with NaN when there is none. *)
Definition merge_left {L R V} (key_l : L -> pystr) (key_r : R -> pystr) (val : R -> V)
    (left : list L) (right : list R) : list (L * option V) :=
  flat_map (fun l =>
              match filter (fun r => key_r r = key_l l) right with
              | [] => [(l, None)]
              | partners => map (fun r => (l, Some (val r))) partners
              end) left.

(** [drop_duplicates(subset=['date', 'artist_orig', 'song_orig'])]: the
    first row of every key is kept. *)
Definition frame_key (r : merged_row) : Z * pystr * pystr :=
  (b_date (mr_batch r), artist_orig (mr_batch r), song_orig (mr_batch r)).

Fixpoint drop_duplicates_from (seen : list (Z * pystr * pystr)) (rows : list merged_row)
    : list merged_row :=
  match rows with
  | [] => []
  | r :: rest =>
      if bool_decide (frame_key r ∈ seen) then drop_duplicates_from seen rest
      else r :: drop_duplicates_from (frame_key r :: seen) rest
  end.

Definition drop_duplicates (rows : list merged_row) : list merged_row :=
  drop_duplicates_from [] rows.

(** Lines 164-187, in the order of the code. *)
Definition batch_merged (batch_list : list batch_row) (feat_json artist_json : json)
    : exn + batch_frame :=
  match feat_json with
  | JFeatures spot_feat =>
      match data_frame (del_nulls spot_feat) with
      | inl e => inl e
      | inr features_df =>
          match artist_json with
          | JArtists spot_artist =>
              match del_no_genres spot_artist with
              | inl e => inl e
              | inr spot_artist =>
                  match data_frame spot_artist with
                  | inl e => inl e
                  | inr None => inl KeyError              (* [['id', 'genres']] *)
                  | inr (Some genres_df) =>
                      let merged :=
                        merge_left artist_spot_id art_id art_genres batch_list genres_df in
                      match features_df with
                      | None => inl KeyError              (* on='song_spot_id' *)
                      | Some features_df =>
                          inr (drop_duplicates
                                 (map (fun '(bg, f) =>
                                         {| mr_batch := bg.1; mr_genres := bg.2;
                                            mr_features := f |})
                                    (merge_left (fun bg => song_spot_id bg.1) feat_id id
                                       merged features_df)))
                      end
                  end
              end
          | _ => inl KeyError                             (* artist_json['artists'] *)
          end
      end
  | _ => inl KeyError                                     (* feat_json['audio_features'] *)
  end.

Section Credentials.
Variables client_id client_secret : pystr.
Context {RT : Runtime}.

(** What [auth_update] does with the token response: the new value of
    [header_auth['Authorization']], or the exception. *)
Definition token_result (token_resp : response) : exn + pystr :=
  if negb (status_code token_resp =? 200) then inl (TokenException (body token_resp))
  else match body token_resp with
       | JToken t => inr (u "Bearer " ++ t)
       | _ => inl KeyError
       end.

(** [auth_update(header_auth)]: returns the updated Authorization value and
    the responses left. *)
Definition auth_update (w : list response) : run (pystr * list response) :=
  match w with
  | [] => ([EvPost client_id client_secret], Pending)
  | token_resp :: w' =>
      match token_result token_resp with
      | inr auth' => ([EvPost client_id client_secret; EvRecv Token token_resp], Done (auth', w'))
      | inl e => ([EvPost client_id client_secret; EvRecv Token token_resp], Raised e)
      end
  end.

(** The [while True] loop of the track search (lines 231-250).  Each round
    uses up at least one response, so the loop is a recursion on [w]; the
    round that refreshes the token reads the token response in place
    ([search_loop_401] of Part II states it through [auth_update]). *)
Fixpoint search_loop (payload auth : pystr) (w : list response)
    : run (response * pystr * list response) :=
  match w with
  | [] => ([EvGet Search payload auth], Pending)
  | spot_q_resp :: w1 =>
      let spot_q_sc := status_code spot_q_resp in
      let req := [EvGet Search payload auth; EvRecv Search spot_q_resp] in
      if spot_q_sc =? 429 then
        (req ++ [EvPrint (MsgSearchRateLimit (retry_after spot_q_resp))], Return false)
      else if spot_q_sc =? 401 then
        match w1 with
        | [] => (req ++ [EvPost client_id client_secret], Pending)
        | token_resp :: w2 =>
            let tok := [EvPost client_id client_secret; EvRecv Token token_resp] in
            match token_result token_resp with
            | inr auth' => prepend (req ++ tok) (search_loop payload auth' w2)
            | inl e => (req ++ tok, Raised e)
            end
        end
      else if negb (spot_q_sc =? 200) then
        prepend (req ++ [EvPrint (MsgSearchException (body spot_q_resp));
                         EvPrint MsgPostpone; EvSleep 5])
                (search_loop payload auth w1)
      else (req, Done (spot_q_resp, auth, w1))
  end.

(** The [while True] loop of [save_batch] (lines 133-161): both requests are
    made, then the two status codes are examined. *)
Fixpoint save_batch_loop (payload_feat payload_artist auth : pystr) (w : list response)
    : run (json * json * pystr * list response) :=
  match w with
  | [] => ([EvGet AudioFeatures payload_feat auth], Pending)
  | spot_feat_resp :: w1 =>
      let get_feat := [EvGet AudioFeatures payload_feat auth; EvRecv AudioFeatures spot_feat_resp] in
      match w1 with
      | [] => (get_feat ++ [EvGet Artists payload_artist auth], Pending)
      | spot_artist_resp :: w2 =>
          let req := get_feat ++ [EvGet Artists payload_artist auth; EvRecv Artists spot_artist_resp] in
          let feat_sc := status_code spot_feat_resp in
          let feat_json := body spot_feat_resp in
          let artist_sc := status_code spot_artist_resp in
          let artist_json := body spot_artist_resp in
          if feat_sc =? 429 then (req, Raised (FeaturesRateLimit feat_json))
          else if artist_sc =? 429 then (req, Raised (ArtistsRateLimit artist_json))
          else if (feat_sc =? 401) || (artist_sc =? 401) then
            match w2 with
            | [] => (req ++ [EvPost client_id client_secret], Pending)
            | token_resp :: w3 =>
                let tok := [EvPost client_id client_secret; EvRecv Token token_resp] in
                match token_result token_resp with
                | inr auth' =>
                    prepend (req ++ tok) (save_batch_loop payload_feat payload_artist auth' w3)
                | inl e => (req ++ tok, Raised e)
                end
            end
          else if negb (feat_sc =? 200) then
            prepend (req ++ [EvPrint (MsgFeaturesException feat_json);
                             EvPrint MsgPostpone; EvSleep 5])
                    (save_batch_loop payload_feat payload_artist auth w2)
          else if negb (artist_sc =? 200) then
            prepend (req ++ [EvPrint (MsgArtistsException artist_json);
                             EvPrint MsgPostpone; EvSleep 5])
                    (save_batch_loop payload_feat payload_artist auth w2)
          else (req, Done (feat_json, artist_json, auth, w2))
      end
  end.

(** The labels and ids found for one chart row, with the [matched] flag. *)
Record spot_match := {
  m_artist : pystr; m_song : pystr; m_artist_id : pystr; m_song_id : pystr;
  m_matched : Z }.

Definition no_match : spot_match :=
  {| m_artist := Labels.NaN_label; m_song := Labels.NaN_label;
     m_artist_id := Labels.NaN_label; m_song_id := Labels.NaN_label;
     m_matched := 0 |}.

(** [item['artists'][0]] when the list is not None. *)
Definition first_artist (item : track_item) : exn + (pystr * pystr) :=
  match item_artists item with
  | None => inr (Labels.NaN_label, Labels.NaN_label)
  | Some [] => inl IndexError
  | Some (a :: _) => inr (ar_name a, ar_id a)
  end.

(** The loop over the search results (lines 254-274): [cur] holds the
    variables as the previous item left them; an empty result leaves
    [no_match]. *)
Fixpoint match_items (artist_o song_o : pystr) (spot_q : list track_item)
    (cur : spot_match) : exn + spot_match :=
  match spot_q with
  | [] => inr cur
  | item :: rest =>
      match first_artist item with
      | inl e => inl e
      | inr (artist_s, artist_s_id) =>
          let found m := {| m_artist := artist_s; m_song := item_name item;
                            m_artist_id := artist_s_id; m_song_id := item_id item;
                            m_matched := m |} in
          match Labels.labels_match [artist_o; song_o] [artist_s; item_name item]
                  Labels.DEFAULT_THRESH with
          | Some true => inr (found 1)                         (* break *)
          | Some false => match_items artist_o song_o rest (found 0)
          | None => inl ZeroDivisionError
          end
      end
  end.

(** The search query (lines 220-229). *)
Fixpoint before_comma (s : pystr) : pystr :=        (* s.split(',')[0] *)
  match s with
  | [] => []
  | c :: s' => if (c =? COMMA)%N then [] else c :: before_comma s'
  end.

Fixpoint remove_The (s : pystr) : pystr :=          (* s.replace('The', '') *)
  match s with
  | [] => []
  | c :: s' =>
      match s' with
      | d :: e :: s'' =>
          if (c =? 84)%N && (d =? 104)%N && (e =? 101)%N then remove_The s''
          else c :: remove_The s'
      | _ => c :: remove_The s'
      end
  end.

Definition delete_char (c : N) (s : pystr) : pystr :=   (* s.replace(c, '') *)
  filter (fun x => x ≠ c) s.

Definition payload_search (artist_o song_o : pystr) : pystr :=
  let artist_search := strip (delete_char 46 (remove_The (before_comma artist_o))) in
  let song_search := delete_char APOSTROPHE song_o in
  u "artist:" ++ artist_search ++ u " track:" ++ song_search.

Fixpoint join (sep : pystr) (l : list pystr) : pystr :=
  match l with
  | [] => []
  | [x] => x
  | x :: l' => x ++ sep ++ join sep l'
  end.

Definition matched_rows (batch_list : list batch_row) : list batch_row :=
  filter (fun r => matched r = 1) batch_list.        (* query('match == 1') *)

(** [save_batch(batch_list, header_auth)]: the merged frame, with the
    Authorization value (the dict is shared with the caller) and the
    responses left. *)
Definition save_batch (batch_list : list batch_row) (auth : pystr) (w : list response)
    : run (batch_frame * pystr * list response) :=
  let payload_feat := join [COMMA] (map song_spot_id (matched_rows batch_list)) in
  let payload_artist := join [COMMA] (map artist_spot_id (matched_rows batch_list)) in
  bind (save_batch_loop payload_feat payload_artist auth w)
    (fun '(feat_json, artist_json, auth', w') =>
       match batch_merged batch_list feat_json artist_json with
       | inr batch_merged_df => ([], Done (batch_merged_df, auth', w'))
       | inl e => ([], Raised e)
       end).

Definition batch_size : Z := 50.

(** The variables the main loop updates. *)
Record loop_state := {
  batch_list : list batch_row;
  batch_i : Z;
  hot_i : Z;
  header_auth : pystr }.

(** The body of the two nested [for] loops (lines 207-304), over the rows
    in the order the loops visit them. *)
Fixpoint collect (no_hot no_batches : Z) (rows : list hot_row) (st : loop_state)
    (w : list response) : run (loop_state * list response) :=
  match rows with
  | [] => ([], Done (st, w))
  | hot :: rows' =>
      let hot_i' := hot_i st + 1 in
      prepend [EvDisplay (hot_date hot) hot_i' no_hot (batch_i st) no_batches]
        (bind (search_loop (payload_search (hot_artist hot) (hot_song hot)) (header_auth st) w)
           (fun '(spot_q_resp, auth1, w1) =>
              match body spot_q_resp with
              | JTracks spot_q =>
                  match match_items (hot_artist hot) (hot_song hot) spot_q no_match with
                  | inl e => ([], Raised e)
                  | inr m =>
                      let batch_list' := batch_list st ++
                        [{| b_date := hot_date hot;
                            artist_orig := hot_artist hot; song_orig := hot_song hot;
                            artist_spot := m_artist m; song_spot := m_song m;
                            artist_spot_id := m_artist_id m; song_spot_id := m_song_id m;
                            matched := m_matched m |}] in
                      if Z.of_nat (length batch_list') =? batch_size then
                        bind (save_batch batch_list' auth1 w1)
                          (fun '(batch_feat_df, auth2, w2) =>
                             prepend
                               [if batch_i st =? 0 then EvToCsv ModeW true batch_feat_df
                                else EvToCsv ModeA false batch_feat_df]
                               (collect no_hot no_batches rows'
                                  {| batch_list := []; batch_i := batch_i st + 1;
                                     hot_i := hot_i'; header_auth := auth2 |} w2))
                      else
                        collect no_hot no_batches rows'
                          {| batch_list := batch_list'; batch_i := batch_i st;
                             hot_i := hot_i'; header_auth := auth1 |} w1
                  end
              | _ => ([], Raised KeyError)
              end))
  end.

(** [df.groupby(level='date')] visits the dates in increasing order and,
    within a date, the rows in the order of the frame. *)
Definition groupby_date (df : list hot_row) : list hot_row :=
  flat_map (fun d => filter (fun r => hot_date r = d) df) (Np.unique (map hot_date df)).

(** The rows left over after the loops (lines 306-312). *)
Definition save_remaining (st : loop_state) (w : list response) : run unit :=
  match batch_list st with
  | [] => ([], Done tt)
  | _ :: _ =>
      bind (save_batch (batch_list st) (header_auth st) w)
        (fun '(batch_feat_df, _, _) => ([EvToCsv ModeA false batch_feat_df], Done tt))
  end.

Definition spotify_audio_features (df : list hot_row) (w : list response) : run unit :=
  bind (auth_update w) (fun '(auth, w0) =>
    let n := Z.of_nat (length df) in
    let no_batches := n / batch_size + 1 in
    let no_batches := if negb (n mod batch_size =? 0) then no_batches else no_batches - 1 in
    bind (collect n no_batches (groupby_date df)
            {| batch_list := []; batch_i := 0; hot_i := 0; header_auth := auth |} w0)
      (fun '(st, w1) =>
         bind (save_remaining st w1) (fun _ => ([EvAllCollected], Return true)))).

End Credentials.

(** *** Vocabulary for the facts of Part II *)






(** The [to_csv] calls of a trace: mode, header flag and the number of
    chart rows processed (one [display] each) since the call before, or
    since the start; [k] rows have been processed before the trace. *)
Fixpoint csv_writes_from (k : nat) (tr : list event) : list (csv_mode * bool * nat) :=
  match tr with
  | [] => []
  | EvToCsv mode header _ :: rest => (mode, header, k) :: csv_writes_from 0 rest
  | EvDisplay _ _ _ _ _ :: rest => csv_writes_from (S k) rest
  | _ :: rest => csv_writes_from k rest
  end.

Definition csv_writes (tr : list event) : list (csv_mode * bool * nat) :=
  csv_writes_from 0 tr.


End Spotify.

(** ** [utils.artist_stats]: the basic statistics (lines 344-382) *)
Module ArtistStats.
Import PyStr.

(** One row of the Billboard frame.  [date] is the day number of the chart
    week; the integer columns are pandas' int64, the dtype [read_json] and
    [pd.DataFrame] give a column of integers, so a value is a [Z] of the
    int64 range and the arithmetic on the column is [Np.int64_sub] and
    [Np.int64_add]; [last_week] is [None] for NaN. *)
Record chart_row := {
  date : Z;
  pos : Z;
  artist : pystr;
  song : pystr;
  last_week : option Z;
  peak_pos : Z;
  wks_on_chart : Z }.

(** A row with the column [score] that [.assign(score=lambda x: 101 - x.pos)]
    adds. *)
Record scored_row := { row : chart_row; score : Z }.

Definition assign_score (r : chart_row) : scored_row :=
  {| row := r; score := Np.int64_sub 101 (pos r) |}.

Fixpoint startswith (s prefix : pystr) : bool :=      (* s.startswith(prefix) *)
  match prefix, s with
  | [], _ => true
  | p :: prefix', c :: s' => (c =? p)%N && startswith s' prefix'
  | _ :: _, [] => false
  end.

(** The query string [f'artist == "{artist}"'] is the comparison of the
    column with the name as long as the name has no double quote and no
    backslash; what pandas makes of another name is not modelled
    ([None]). *)
Definition plain_name (name : pystr) : bool :=
  forallb (fun c => negb ((c =? 34)%N || (c =? 92)%N)) name.

Definition solo_df (name : pystr) (hot_100 : list chart_row) : option (list scored_row) :=
  if plain_name name
  then Some (map assign_score (filter (fun r => artist r = name) hot_100))
  else None.

Definition colab_df (name : pystr) (hot_100 : list chart_row) : list scored_row :=
  map assign_score
    (filter (fun r => startswith (artist r) name = true ∧ artist r ≠ name) hot_100).

(** [Series.nunique()]: the values are visited in order and a value not
    seen before is recorded. *)
Definition seen_step (seen : list pystr) (x : pystr) : list pystr :=
  if bool_decide (x ∈ seen) then seen else seen ++ [x].

Definition nunique (values : list pystr) : nat :=
  length (fold_left seen_step values []).

(** [Series.sum()] of an int64 column: the additions wrap around. *)
Definition col_sum (values : list Z) : Z := fold_left Np.int64_add values 0.

(** The five numbers written to the statistics file, in the order of the
    [file.write] calls. *)
Record basic_stats := {
  n_solo_songs : nat;
  n_colab_songs : nat;
  n_weeks : nat;
  solo_score : Z;
  total_score : Z }.

Definition artist_stats (name : pystr) (hot_100 : list chart_row) : option basic_stats :=
  solo ← solo_df name hot_100;
  let colab := colab_df name hot_100 in
  let stat_solo := col_sum (map score solo) in
  Some {| n_solo_songs := nunique (map (fun s => song (row s)) solo);
          n_colab_songs := nunique (map (fun s => song (row s)) colab);
          n_weeks := length (Np.union1d (map (fun s => date (row s)) solo)
                                        (map (fun s => date (row s)) colab));
          solo_score := stat_solo;
          total_score := Np.int64_add stat_solo (col_sum (map score colab)) |}.

End ArtistStats.

(** ** The Billboard spider: [items.py], [itemloaders.py], [spiders/billboard.py] *)
Module Billboard.
Import PyStr.

(** *** [datetime.date]

    A date is a (year, month, day) triple; [date + timedelta] goes through
    the proleptic Gregorian day number the way CPython's [datetime] does. *)
Record pydate := { year : Z; month : Z; day : Z }.

Global Instance pydate_eq_dec : EqDecision pydate.
Proof. solve_decision. Defined.

Definition is_leap (y : Z) : bool :=
  (y mod 4 =? 0) && (negb (y mod 100 =? 0) || (y mod 400 =? 0)).

Definition days_before_year (y : Z) : Z :=
  let y := y - 1 in y * 365 + y / 4 - y / 100 + y / 400.

Definition DAYS_IN_MONTH : list Z := [31; 28; 31; 30; 31; 30; 31; 31; 30; 31; 30; 31].

Definition days_in_month (y m : Z) : Z :=
  if (m =? 2) && is_leap y then 29 else nth (Z.to_nat (m - 1)) DAYS_IN_MONTH 0.

Definition days_before_month (y m : Z) : Z :=
  fold_right Z.add 0 (firstn (Z.to_nat (m - 1)) DAYS_IN_MONTH)
  + (if (2 <? m) && is_leap y then 1 else 0).

Definition toordinal (d : pydate) : Z :=
  days_before_year (year d) + days_before_month (year d) (month d) + day d.

Definition fromordinal (n : Z) : pydate :=
  let n := n - 1 in
  let n400 := n / 146097 in let n := n mod 146097 in
  let n100 := n / 36524 in let n := n mod 36524 in
  let n4 := n / 1461 in let n := n mod 1461 in
  let n1 := n / 365 in let n := n mod 365 in
  let y := n400 * 400 + 1 + n100 * 100 + n4 * 4 + n1 in
  if (n1 =? 4) || (n100 =? 4) then {| year := y - 1; month := 12; day := 31 |}
  else
    let leapyear := (n1 =? 3) && (negb (n4 =? 24) || (n100 =? 3)) in
    let m := Z.shiftr (n + 50) 5 in
    let preceding := days_before_month y m in
    let m' := if n <? preceding then m - 1 else m in
    let preceding' := if n <? preceding then preceding - days_in_month y m' else preceding in
    {| year := y; month := m'; day := n - preceding' + 1 |}.

(** [d + dt.timedelta(weeks=1)]. *)
Definition add_week (d : pydate) : pydate := fromordinal (toordinal d + 7).

(** [a <= b] on dates compares the triples. *)
Definition date_leb (a b : pydate) : bool :=
  (year a <? year b)
  || ((year a =? year b)
      && ((month a <? month b) || ((month a =? month b) && (day a <=? day b)))).

(** [d.strftime('%Y-%m-%d')] for a year of four digits. *)
Definition digit (n : Z) : N := (48 + Z.to_N (n mod 10))%N.

Definition strftime_ymd (d : pydate) : pystr :=
  [digit (year d / 1000); digit (year d / 100); digit (year d / 10); digit (year d); 45%N;
   digit (month d / 10); digit (month d); 45%N; digit (day d / 10); digit (day d)].

Definition CHART_URL : pystr := u "https://www.billboard.com/charts/hot-100/".

Definition chart_url (d : pydate) : pystr := CHART_URL ++ strftime_ymd d.

Definition START_DATE : pydate := {| year := 1958; month := 8; day := 2 |}.
Definition ENDING_DATE : pydate := {| year := 2023; month := 5; day := 27 |}.

Section WithRuntime.
Context {RT : Runtime}.

(** *** [int(x)] on a string

    White space at both ends is dropped; then an optional sign and decimal
    digits, with single underscores between digits.  A digit is any
    character with a decimal value in the Unicode database
    ([unicode_decimal]), the ASCII digits among them, and a string of more
    digits than the limit of the runtime is refused; [None] stands for
    ValueError. *)
Fixpoint parse_digits (acc : Z) (after_digit : bool) (s : pystr) : option Z :=
  match s with
  | [] => if after_digit then Some acc else None
  | c :: s' =>
      if (c =? 95)%N then
        if after_digit then parse_digits acc false s' else None
      else match unicode_decimal c with
           | Some d => parse_digits (acc * 10 + d) true s'
           | None => None
           end
  end.

Definition too_many_digits (digits : pystr) : bool :=
  (0 <? int_max_str_digits)%nat
  && (int_max_str_digits <? length (filter (fun c => c ≠ 95%N) digits))%nat.

Definition int_of_digits (digits : pystr) : option Z :=
  n ← parse_digits 0 false digits;
  if too_many_digits digits then None else Some n.

Definition py_int (s : pystr) : option Z :=
  match strip s with
  | sign :: digits =>
      if (sign =? 45)%N then Z.opp <$> int_of_digits digits
      else if (sign =? 43)%N then int_of_digits digits
      else int_of_digits (sign :: digits)
  | [] => None
  end.

(** *** Items and the item loader *)
Inductive value :=
| VDate (d : pydate)
| VInt (n : Z)
| VNaN                    (* float("NaN") *)
| VStr (s : pystr).

Global Instance value_eq_dec : EqDecision value.
Proof. unfold pystr. solve_decision. Defined.

(** [BillboardItem]: the declared fields; an item is a map from field names
    to values, and setting an undeclared field raises KeyError. *)
Definition FIELDS : list string :=
  ["date"; "pos"; "artist"; "song"; "last_week"; "peak_pos"; "wks_on_chart"]%string.

Definition DASH : pystr := u "-".

(** The input processors of [BillboardItemLoader], applied to one scraped
    value ([MapCompose] applies them to each value of the list in turn);
    a field without one has the default, the identity. *)
Definition st (v : value) : option value :=
  match v with VStr s => Some (VStr (strip s)) | _ => None end.

Definition to_int (v : value) : option value :=
  match v with
  | VStr s => VInt <$> py_int s
  | VInt n => Some (VInt n)
  | _ => None
  end.

Definition int_or_nan (v : value) : option value :=     (* the lambda of last_week_in *)
  if bool_decide (v = VStr DASH) then Some VNaN else to_int v.

Definition map_compose (funcs : list (value -> option value)) (values : list value)
    : option (list value) :=
  fold_left (fun acc f => vs ← acc; mapM f vs) funcs (Some values).

Definition input_processor (field : string) : list value -> option (list value) :=
  if bool_decide (field = "pos"%string) then map_compose [st; to_int]
  else if bool_decide (field = "artist"%string) then map_compose [st]
  else if bool_decide (field = "song"%string) then map_compose [st]
  else if bool_decide (field = "last_week"%string) then map_compose [st; int_or_nan]
  else if bool_decide (field = "peak_pos"%string) then map_compose [st; to_int]
  else if bool_decide (field = "wks_on_chart"%string) then map_compose [st; to_int]
  else Some.

(** The loader's [_values]: the processed values collected per field. *)
Definition loader_values := gmap string (list value).

(** [loader.add_value(field, values)] and [loader.add_css(field, css)], the
    latter with the list of texts the selector extracts: the values go
    through the input processor, and a field is touched only when something
    comes out.  [None] stands for the ValueError of a processor. *)
Definition add_values (field : string) (values : list value) (l : loader_values)
    : option loader_values :=
  processed ← input_processor field values;
  match processed with
  | [] => Some l
  | _ :: _ => Some (<[field := default [] (l !! field) ++ processed]> l)
  end.

Definition add_value (field : string) (v : value) (l : loader_values) : option loader_values :=
  add_values field [v] l.

Definition add_css (field : string) (texts : list pystr) (l : loader_values)
    : option loader_values :=
  add_values field (map VStr texts) l.

(** [TakeFirst()], the default output processor: the first value that is
    neither None nor the empty string. *)
Fixpoint take_first (values : list value) : option value :=
  match values with
  | [] => None
  | v :: rest => if bool_decide (v = VStr []) then take_first rest else Some v
  end.

(** [loader.load_item()]: every collected field whose output is not None is
    set on the item; setting an undeclared field raises KeyError ([None]). *)
Definition item := gmap string value.

Definition load_item (l : loader_values) : option item :=
  let out : item := omap take_first l in
  if bool_decide (dom out ⊆ list_to_set FIELDS) then Some out else None.

(** *** The spider *)

(** What the CSS selectors of [parse] extract from one chart row: the text
    nodes of each selector, in document order. *)
Record row_sel := {
  bold_l : list pystr;        (* span.c-label.a-font-primary-bold-l::text *)
  primary_m : list pystr;     (* span.c-label.a-font-primary-m::text *)
  no_trucate : list pystr;    (* span.c-label.a-no-trucate::text *)
  h3 : list pystr }.          (* h3::text *)

(** A fetched page: [tagline] is the chart date read from the tagline
    ('Week of ' removed, parsed with '%B %d, %Y'), [None] when the page has
    none or it does not parse; [hot100] are the row containers. *)
Record response := { tagline : option pydate; hot100 : list row_sel }.

(** [hot_stats[i].get()]; [None] stands for IndexError. *)
Definition stat_text (hot_stats : list pystr) (i : nat) : option value :=
  VStr <$> hot_stats !! i.

(** The first chart position (lines 31-44). *)
Definition load_first (hot_date : pydate) (hot1 : row_sel) : option item :=
  let hot_stats := bold_l hot1 in
  l ← add_value "date" (VDate hot_date) ∅;
  v ← stat_text hot_stats 0; l ← add_value "pos" v l;
  l ← add_css "artist" (no_trucate hot1) l;
  l ← add_css "song" (h3 hot1) l;
  v ← stat_text hot_stats 1; l ← add_value "last_week" v l;
  v ← stat_text hot_stats 2; l ← add_value "peak_pos" v l;
  v ← stat_text hot_stats 3; l ← add_value "wks_on_chart" v l;
  load_item l.

(** One of the positions 2-100 (lines 47-59). *)
Definition load_other (hot_date : pydate) (hot : row_sel) : option item :=
  let hot_stats := primary_m hot in
  l ← add_value "date" (VDate hot_date) ∅;
  l ← add_css "pos" (bold_l hot) l;
  l ← add_css "artist" (no_trucate hot) l;
  l ← add_css "song" (h3 hot) l;
  v ← stat_text hot_stats 0; l ← add_value "last_week" v l;
  v ← stat_text hot_stats 1; l ← add_value "peak_pos" v l;
  v ← stat_text hot_stats 2; l ← add_value "wks_on_chart" v l;
  load_item l.

(** The [for hot in hot100[1:]] loop: the items yielded, and whether the
    loop ran to its end (an exception stops the generator). *)
Fixpoint load_others (hot_date : pydate) (rows : list row_sel) : list item * bool :=
  match rows with
  | [] => ([], true)
  | hot :: rest =>
      match load_other hot_date hot with
      | None => ([], false)
      | Some it => let r := load_others hot_date rest in (it :: r.1, r.2)
      end
  end.

(** The result of one call of [parse]: the items yielded, and, when the
    generator reaches line 62, the new value of [self.resp_date] with the
    request yielded for the next chart, if any. *)
Record parse_result := {
  yielded : list item;
  advanced : option (pydate * option pystr) }.

Definition parse (resp_date : pydate) (resp : response) : parse_result :=
  match tagline resp with
  | None => {| yielded := []; advanced := None |}
  | Some hot_date =>
      match hot100 resp with
      | [] => {| yielded := []; advanced := None |}
      | hot1 :: others =>
          match load_first hot_date hot1 with
          | None => {| yielded := []; advanced := None |}
          | Some it1 =>
              let r := load_others hot_date others in
              if r.2 then
                let resp_date' := add_week resp_date in
                {| yielded := it1 :: r.1;
                   advanced := Some (resp_date',
                     if date_leb resp_date' ENDING_DATE
                     then Some (chart_url resp_date') else None) |}
              else {| yielded := it1 :: r.1; advanced := None |}
          end
      end
  end.

(** The crawl: the engine fetches a URL, hands the page to [parse] and
    schedules the request [parse] yields.  [pages] are the pages the site
    serves, in the order of the requests; a request that gets no page ends
    the crawl. *)
Record crawl_log := { fetched : list pystr; scraped : list item }.

Fixpoint crawl (pages : list response) (resp_date : pydate) (url : pystr) : crawl_log :=
  match pages with
  | [] => {| fetched := [url]; scraped := [] |}
  | page :: pages' =>
      let r := parse resp_date page in
      match advanced r with
      | Some (resp_date', Some next_url) =>
          let rest := crawl pages' resp_date' next_url in
          {| fetched := url :: fetched rest; scraped := yielded r ++ scraped rest |}
      | _ => {| fetched := [url]; scraped := yielded r |}
      end
  end.

(** [resp_date] starts as the class attribute, [start_urls] holds the URL of
    the first chart. *)
Definition run_spider (pages : list response) : crawl_log :=
  crawl pages START_DATE (chart_url START_DATE).

(** *** Vocabulary for the facts of Part II *)

(** [parse] runs to its end on the page (no exception before line 62);
    this does not depend on [resp_date]. *)
Definition parses (page : response) : bool :=
  match advanced (parse START_DATE page) with Some _ => true | None => false end.

(** [n] consecutive weekly dates from [d] on. *)
Fixpoint week_seq (n : nat) (d : pydate) : list pydate :=
  match n with
  | O => []
  | S n' => d :: week_seq n' (add_week d)
  end.

(** The weekly dates from [d] on that are not after the ending date, at
    most [fuel] of them after [d]. *)
Fixpoint weeks_until (fuel : nat) (d : pydate) : list pydate :=
  d :: match fuel with
       | O => []
       | S fuel' =>
           if date_leb (add_week d) ENDING_DATE then weeks_until fuel' (add_week d) else []
       end.

(** The number of weekly charts from 1958-08-02 to 2023-05-27. *)
Definition N_CHARTS : nat := 3383.

(** The values the loader has collected for a field. *)
Definition collected (l : loader_values) (field : string) : list value :=
  default [] (l !! field).

(** Field [field] of the item is the integer read from the stripped
    text. *)
Definition int_field (it : item) (field : string) (t : pystr) : Prop :=
  exists n, py_int (strip t) = Some n /\ it !! field = Some (VInt n).

(** [last_week] is NaN when the stripped text is the dash, and the integer
    read from the stripped text otherwise. *)
Definition last_week_field (it : item) (t : pystr) : Prop :=
  (strip t = DASH -> it !! "last_week"%string = Some VNaN)
  /\ (strip t ≠ DASH -> int_field it "last_week" t).

(** Field [field] of the item is the first of the stripped texts that is
    not empty; the item has no such field when there is none. *)
Definition text_field (it : item) (field : string) (texts : list pystr) : Prop :=
  it !! field = take_first (map (fun t => VStr (strip t)) texts).

End WithRuntime.

End Billboard.

(** ** [utils.genres_popul]

    [genres_src] is a Series of genre strings over an index of annual
    periods (the decade labels the function builds, [str(label) + 's'],
    read '1960s' for such an index); a period is modelled by its year.  The
    pandas operations are modelled as pandas documents them:
    - [groupby(level=0)] has one group per index label that occurs;
    - [groupby(pd.Grouper(freq=...))] has one bin per step from the first
      label to the last one, the empty bins included (count and sum 0);
    - [a / b] aligns the two Series on the union of their labels; a label
      missing on one side gives NaN, and so does 0 / 0.
    [re.search] is the regex engine of the runtime, a parameter: it answers
    whether the pattern is found in the string, or raises re.error
    ([None]) for a pattern it cannot compile. *)
Module Genres.
Import PyStr.

(** A float64 value of the result. *)
Inductive fval := FNum (q : Q) | FInf | FNaN.

(** The exceptions of the loop over [genres]. *)
Inductive error := IndexError | RegexError.

Definition series (A : Type) : Type := list (Z * A).

Definition labels {A} (s : series A) : list Z := Np.unique (map fst s).

Definition EMPTY_LIST : pystr := u "[]".

(** [groupby(level=0).count()]. *)
Definition count_by_label {A} (s : series A) : series Z :=
  map (fun y => (y, Z.of_nat (length (filter (fun r => r.1 = y) s)))) (labels s).

(** The bins of [pd.Grouper(freq=...)] with a step of [step] years: they
    start at the first label. *)
Definition bin_labels {A} (step : Z) (s : series A) : list Z :=
  match labels s with
  | [] => []
  | first :: _ =>
      let last := List.last (labels s) first in
      map (fun k => first + step * Z.of_nat k)
          (seq 0 (S (Z.to_nat ((last - first) / step))))
  end.

Definition bin_of {A} (step : Z) (s : series A) (y : Z) : Z :=
  match labels s with
  | [] => y
  | first :: _ => first + step * ((y - first) / step)
  end.

Definition in_bin {A} (step : Z) (s : series A) (b : Z) : list (Z * A) :=
  filter (fun r => bin_of step s r.1 = b) s.

(** [groupby(pd.Grouper(freq=...)).count()] and [.sum()] of a Boolean
    Series. *)
Definition grouper_count {A} (step : Z) (s : series A) : series Z :=
  map (fun b => (b, Z.of_nat (length (in_bin step s b)))) (bin_labels step s).

Definition grouper_sum (step : Z) (s : series bool) : series Z :=
  map (fun b => (b, Z.of_nat (length (filter (fun r => r.2 = true) (in_bin step s b)))))
      (bin_labels step s).

Definition lookup_label {A} (y : Z) (s : series A) : option A :=
  snd <$> find (fun r => bool_decide (r.1 = y)) s.

(** [x / y] on two int64 counts: both are converted to float64 and
    divided. *)
Definition int_truediv (x y : Z) : fval :=
  if y =? 0 then (if x =? 0 then FNaN else FInf)
  else FNum (Float64.float_div (Float64.float_of_int x) (Float64.float_of_int y)).

(** [a / b] on two Series. *)
Definition series_div (a b : series Z) : series fval :=
  map (fun y => (y, match lookup_label y a, lookup_label y b with
                    | Some x, Some n => int_truediv x n
                    | _, _ => FNaN
                    end))
      (Np.union1d (map fst a) (map fst b)).

(** An entry of [genres]: a string or a list of strings. *)
Inductive genre := GStr (g : pystr) | GList (gs : list pystr).

Definition underscored (s : pystr) : pystr :=           (* s.replace(' ', '_') *)
  map (fun c => if (c =? SPACE)%N then 95%N else c) s.

Fixpoint join_bar (l : list pystr) : pystr :=           (* r'|'.join(l) *)
  match l with
  | [] => []
  | [x] => x
  | x :: l' => x ++ [124%N] ++ join_bar l'
  end.

(** [genres_agg[name] = column]: a column of that name is replaced in
    place, a new one is added at the end. *)
Fixpoint set_column {A} (name : pystr) (col : A) (frame : list (pystr * A))
    : list (pystr * A) :=
  match frame with
  | [] => [(name, col)]
  | (n, c) :: rest =>
      if bool_decide (n = name) then (name, col) :: rest
      else (n, c) :: set_column name col rest
  end.

Section Regex.
Variable re_search : pystr -> pystr -> option bool.  (* bool(re.search(pattern, x)) *)

(** The state of [genres_popul] after lines 449-459: the filtered Series,
    the step of the Grouper in years and the counts [songs_no]. *)
Definition prepare (genres_src : series pystr) (decades : bool)
    : series pystr * Z * series Z :=
  let genres_src := filter (fun r => r.2 ≠ EMPTY_LIST) genres_src in
  if negb decades then (genres_src, 1, count_by_label genres_src)
  else
    let genres_src := filter (fun r => 1960 ≤ r.1 ∧ r.1 < 2020) genres_src in
    (genres_src, 10, grouper_count 10 genres_src).

(** [genres_src.apply(lambda x: bool(re.search(genre, x)))]: the rows are
    searched in order, and the first search that raises ends the call; a
    Series without rows is searched by no call. *)
Fixpoint apply_search (pattern : pystr) (genres_src : series pystr)
    : option (series bool) :=
  match genres_src with
  | [] => Some []
  | r :: rest =>
      match re_search pattern r.2 with
      | None => None
      | Some b =>
          match apply_search pattern rest with
          | None => None
          | Some flags => Some ((r.1, b) :: flags)
          end
      end
  end.

(** The local function [genre_popul]. *)
Definition genre_popul (genres_src : series pystr) (songs_no : series Z)
    (pattern : pystr) (step : Z) : error + series fval :=
  match apply_search pattern genres_src with
  | None => inl RegexError
  | Some flags => inr (series_div (grouper_sum step flags) songs_no)
  end.

(** The loop over [genres] (lines 469-475): [genre[0]] raises IndexError
    on an empty list, before the search. *)
Fixpoint evaluate (genres_src : series pystr) (songs_no : series Z) (step : Z)
    (genres : list genre) (genres_agg : list (pystr * series fval))
    : error + list (pystr * series fval) :=
  match genres with
  | [] => inr genres_agg
  | GStr g :: rest =>
      match genre_popul genres_src songs_no g step with
      | inl e => inl e
      | inr col => evaluate genres_src songs_no step rest
                     (set_column (underscored g) col genres_agg)
      end
  | GList gs :: rest =>
      match gs with
      | [] => inl IndexError
      | g0 :: _ =>
          match genre_popul genres_src songs_no (join_bar gs) step with
          | inl e => inl e
          | inr col => evaluate genres_src songs_no step rest
                         (set_column (underscored g0) col genres_agg)
          end
      end
  end.

(** [genres_popul(genres, genres_src, decades)]: the columns of the frame,
    each a Series over the period labels. *)
Definition genres_popul (genres : list genre) (genres_src : series pystr)
    (decades : bool) : error + list (pystr * series fval) :=
  let '(src, step, songs_no) := prepare genres_src decades in
  evaluate src songs_no step genres [].

End Regex.

(** *** Vocabulary for the facts of Part II *)

(** A value between 0 and 1 inclusive; NaN and infinity are not. *)
Definition in_unit_interval (v : fval) : Prop :=
  match v with
  | FNum q => (0 <= q)%Q /\ (q <= 1)%Q
  | FInf | FNaN => False
  end.

(** The ratio of two counts of rows, the float division of the one by the
    other; NaN when there is no row. *)
Definition ratio {A B} (matching : list A) (all : list B) : fval :=
  match all with
  | [] => FNaN
  | _ :: _ => FNum (Float64.float_div
                      (Float64.float_of_int (Z.of_nat (length matching)))
                      (Float64.float_of_int (Z.of_nat (length all))))
  end.

(** *** [re.search] on the patterns of the examples

    A pattern made of letters, digits, spaces and hyphens is found where
    it occurs in the string, and [a|b] where one of the alternatives
    occurs.  Patterns with another character are outside this fragment of
    the regex language; [words_search] answers [None] for them, and the
    examples use none. *)
Fixpoint occurs_in (word s : pystr) : bool :=
  ArtistStats.startswith s word
  || match s with
     | [] => false
     | _ :: s' => occurs_in word s'
     end.

Definition BAR : N := 124%N.

Definition is_word_char (c : N) : bool :=
  ((48 <=? c) && (c <=? 57) || (65 <=? c) && (c <=? 90) || (97 <=? c) && (c <=? 122)
   || (c =? SPACE) || (c =? 45))%N.

Fixpoint alternatives_from (cur : pystr) (pattern : pystr) : list pystr :=
  match pattern with
  | [] => [rev cur]
  | c :: rest =>
      if (c =? BAR)%N then rev cur :: alternatives_from [] rest
      else alternatives_from (c :: cur) rest
  end.

Definition alternatives (pattern : pystr) : list pystr := alternatives_from [] pattern.

Definition words_search (pattern s : pystr) : option bool :=
  if forallb (fun c => is_word_char c || (c =? BAR)%N) pattern
  then Some (existsb (fun word => occurs_in word s) (alternatives pattern))
  else None.

End Genres.

(** ** Sample data for the examples of Part II *)
Module Samples.
Import PyStr.

Definition CLIENT_ID : pystr := u "id".
Definition CLIENT_SECRET : pystr := u "secret".

Definition resp (sc : Z) (b : Spotify.json) : Spotify.response :=
  {| Spotify.status_code := sc; Spotify.retry_after := 30; Spotify.body := b |}.

Definition token_ok : Spotify.response := resp 200 (Spotify.JToken (u "t0")).
Definition search_empty : Spotify.response := resp 200 (Spotify.JTracks []).
(** A search result for 'Poor Little Fool', with its audio features and its
    artist. *)
Definition search_hit : Spotify.response :=
  resp 200 (Spotify.JTracks
              [{| Spotify.item_artists :=
                    Some [{| Spotify.ar_name := u "Ricky Nelson"; Spotify.ar_id := u "a1" |}];
                  Spotify.item_name := u "Poor Little Fool";
                  Spotify.item_id := u "t1" |}]).
Definition feats_ok : Spotify.response :=
  resp 200 (Spotify.JFeatures
              [Some {| Spotify.feat_id := u "t1"; Spotify.feat_values := [3 # 5; 1 # 3] |}]).
Definition artists_ok : Spotify.response :=
  resp 200 (Spotify.JArtists
              [Some {| Spotify.art_id := u "a1";
                       Spotify.art_genres := Some [u "rock-and-roll"; u "rockabilly"] |}]).
Definition expired : Spotify.response := resp 401 (Spotify.JError (u "token expired")).

Definition poor_little_fool : Spotify.hot_row :=
  {| Spotify.hot_date := 714993;
     Spotify.hot_artist := u "Ricky Nelson";
     Spotify.hot_song := u "Poor Little Fool" |}.

(** Rows of a chart page as the selectors extract them, and pages. *)
Definition first_row : Billboard.row_sel :=
  {| Billboard.bold_l := [u " 1 "; u " - "; u " 1 "; u " 1 "];
     Billboard.primary_m := [];
     Billboard.no_trucate := [u " Ricky Nelson "];
     Billboard.h3 := [u " Poor Little Fool "] |}.

Definition second_row : Billboard.row_sel :=
  {| Billboard.bold_l := [u " 2 "];
     Billboard.primary_m := [u " 3 "; u " 2 "; u " 5 "];
     Billboard.no_trucate := [u " Perez Prado And His Orchestra "];
     Billboard.h3 := [u " Patricia "] |}.

(** A row without a song title. *)
Definition untitled_row : Billboard.row_sel :=
  {| Billboard.bold_l := [u " 2 "];
     Billboard.primary_m := [u " - "; u " 2 "; u " 1 "];
     Billboard.no_trucate := [u " Perez Prado And His Orchestra "];
     Billboard.h3 := [u "  "] |}.

Definition good_page : Billboard.response :=
  {| Billboard.tagline := Some Billboard.START_DATE;
     Billboard.hot100 := [first_row; second_row] |}.

Definition untitled_page : Billboard.response :=
  {| Billboard.tagline := Some Billboard.START_DATE;
     Billboard.hot100 := [first_row; untitled_row] |}.

(** Genres of songs of 1960 and 1962, none of 1961. *)
Definition gap_series : Genres.series pystr :=
  [(1960, u "['rock-and-roll', 'rockabilly']");
   (1960, u "['adult standards']");
   (1962, u "['rock-and-roll']");
   (1962, u "[]")].

Definition chart (d p : Z) (a t : string) : ArtistStats.chart_row :=
  {| ArtistStats.date := d; ArtistStats.pos := p;
     ArtistStats.artist := u a; ArtistStats.song := u t;
     ArtistStats.last_week := None; ArtistStats.peak_pos := p;
     ArtistStats.wks_on_chart := 1 |}.

(** A small chart table: three weeks (day numbers 1, 8 and 15). *)
Definition fixture : list ArtistStats.chart_row :=
  [chart 1 1 "Drake" "One Dance";
   chart 1 5 "Drake" "Hotline Bling";
   chart 8 2 "Drake" "One Dance";
   chart 8 10 "Drake Featuring Rihanna" "Too Good";
   chart 15 3 "Drake Featuring Rihanna" "Too Good";
   chart 15 50 "Queen" "Radio Ga Ga"].


End Samples.

(** ** Vocabulary and sample data for the facts of Part III *)
Module SpotifyTerms.
Import PyStr Labels Spotify.

(** A character [re.split] cuts at on its own. *)
Definition is_separator (c : N) : Prop := c = SPACE \/ c = NBSP.

Section WithRuntime.
Context {RT : Runtime}.

(** The labels of a search result match the chart row. *)
Definition item_matches (artist_o song_o : pystr) (item : track_item) : Prop :=
  exists artist_s artist_s_id,
    first_artist item = inr (artist_s, artist_s_id)
    /\ labels_match [artist_o; song_o] [artist_s; item_name item] DEFAULT_THRESH = Some true.

End WithRuntime.

(** The variables of the loop hold the labels and ids of [item]. *)
Definition taken_from (m : spot_match) (item : track_item) : Prop :=
  first_artist item = inr (m_artist m, m_artist_id m)
  /\ m_song m = item_name item /\ m_song_id m = item_id item.

(** The records of a batch without the later ones of a (date, artist,
    song) that came before. *)
Definition batch_key (b : batch_row) : Z * pystr * pystr :=
  (b_date b, artist_orig b, song_orig b).

Fixpoint distinct_rows_from (seen : list (Z * pystr * pystr)) (batch : list batch_row)
    : list batch_row :=
  match batch with
  | [] => []
  | b :: rest =>
      if bool_decide (batch_key b ∈ seen) then distinct_rows_from seen rest
      else b :: distinct_rows_from (batch_key b :: seen) rest
  end.

Definition distinct_rows (batch : list batch_row) : list batch_row :=
  distinct_rows_from [] batch.

(** A record with the genres of the first artist of its id and the
    features of the first song of its id, NaN when there is none. *)
Definition with_partners (genres_df : list artist_obj) (features_df : list audio_features)
    (b : batch_row) : merged_row :=
  {| mr_batch := b;
     mr_genres := art_genres <$> head (filter (fun a => art_id a = artist_spot_id b) genres_df);
     mr_features := head (filter (fun f => feat_id f = song_spot_id b) features_df) |}.


(** A run that does not return True: the function returns True only at
    its last line. *)
Definition never_true {A} (r : run A) : Prop := forall b, r.2 = Return b -> b = false.




(** The value of [header_auth['Authorization']] after a token response:
    a 200 with a token sets it, anything else leaves it. *)
Definition after_token (cur : option pystr) (r : response) : option pystr :=
  match token_result r with
  | inr auth => Some auth
  | inl _ => cur
  end.

(** Every GET of the trace carries the value set by the latest token
    response; [cur] is the value before the trace, [None] before the first
    token. *)
Fixpoint auth_follows (cur : option pystr) (tr : list event) : Prop :=
  match tr with
  | [] => True
  | EvGet _ _ auth :: rest => cur = Some auth /\ auth_follows cur rest
  | EvRecv Token r :: rest => auth_follows (after_token cur r) rest
  | _ :: rest => auth_follows cur rest
  end.

Fixpoint final_auth (cur : option pystr) (tr : list event) : option pystr :=
  match tr with
  | [] => cur
  | EvRecv Token r :: rest => final_auth (after_token cur r) rest
  | _ :: rest => final_auth cur rest
  end.

(** A block of code started with the header value [cur]: its GETs follow
    the header, and when it runs to its end the header holds the value
    [proj] reads from the result. *)
Definition keeps_auth {A} (proj : A -> pystr) (cur : option pystr) (r : run A) : Prop :=
  auth_follows cur r.1
  /\ forall x, r.2 = Done x -> final_auth cur r.1 = Some (proj x).

End SpotifyTerms.

Module BillboardTerms.
Import PyStr Billboard.

(** The date a chart URL was built from: the ten characters after the
    prefix, read as YYYY-MM-DD. *)
Definition digit_value (c : N) : Z := Z.of_N c - 48.

Definition url_date (url : pystr) : option pydate :=
  match drop (length CHART_URL) url with
  | [y1; y2; y3; y4; _; m1; m2; _; d1; d2] =>
      Some {| year := digit_value y1 * 1000 + digit_value y2 * 100
                      + digit_value y3 * 10 + digit_value y4;
              month := digit_value m1 * 10 + digit_value m2;
              day := digit_value d1 * 10 + digit_value d2 |}
  | _ => None
  end.

End BillboardTerms.

Module GenresTerms.
Import PyStr Genres.





End GenresTerms.

Module MoreSamples.
Import PyStr Samples.
#[local] Existing Instance ascii_runtime.

Definition hound_dog_item : Spotify.track_item :=
  {| Spotify.item_artists :=
       Some [{| Spotify.ar_name := u "Elvis Presley"; Spotify.ar_id := u "a0" |}];
     Spotify.item_name := u "Hound Dog"; Spotify.item_id := u "t0" |}.

Definition poor_little_fool_item : Spotify.track_item :=
  {| Spotify.item_artists :=
       Some [{| Spotify.ar_name := u "Ricky Nelson"; Spotify.ar_id := u "a1" |}];
     Spotify.item_name := u "Poor Little Fool"; Spotify.item_id := u "t1" |}.

(** A page whose second row has no statistics. *)
Definition broken_page : Billboard.response :=
  {| Billboard.tagline := Some Billboard.START_DATE;
     Billboard.hot100 :=
       [first_row;
        {| Billboard.bold_l := [u " 2 "]; Billboard.primary_m := [];
           Billboard.no_trucate := [u " Perez Prado And His Orchestra "];
           Billboard.h3 := [u " Patricia "] |}] |}.

(** The record of the first row of the sample page. *)
Definition first_record : Billboard.item :=
  default ∅ (head (Billboard.yielded (Billboard.parse Billboard.START_DATE good_page))).

End MoreSamples.

(* ===================================================================== *)
(** * Part II: facts about the embedding                                  *)
(* ===================================================================== *)

(** ** Binary64 rounding *)
Section Float64Facts.
Import Float64.
Local Open Scope Q_scope.


Lemma pow2_pos e : 0 < pow2 e.
Proof. apply Qpower_0_lt. reflexivity. Qed.

Lemma pow2_add a b : pow2 (a + b) == pow2 a * pow2 b.
Proof. apply Qpower_plus. discriminate. Qed.

Lemma pow2_le a b : (a <= b)%Z -> pow2 a <= pow2 b.
Proof. intros H. apply Qpower_le_compat_l; [exact H|]. unfold Qle. simpl. lia. Qed.


Lemma pow2_succ a : pow2 (a + 1) == 2 * pow2 a.
Proof. rewrite pow2_add. unfold pow2 at 2. simpl. ring. Qed.

Lemma pow2_Z (n : Z) : (0 <= n)%Z -> inject_Z (2 ^ n) == pow2 n.
Proof. intros H. apply Zpower_Qpower. exact H. Qed.

Lemma ilog2_spec (a : Q) : 0 < a -> pow2 (ilog2 a) <= a /\ a < pow2 (ilog2 a + 1).
Proof.
  intros Ha. destruct a as [n d]. unfold ilog2. cbn [Qnum Qden].
  assert (Hn : (0 < n)%Z) by (unfold Qlt in Ha; simpl in Ha; lia).
  set (ln := Z.log2 n). set (ld := Z.log2 (Z.pos d)).
  destruct (Z.log2_spec n Hn) as [N1 N2]. fold ln in N1, N2.
  destruct (Z.log2_spec (Z.pos d) (Pos2Z.is_pos d)) as [D1 D2]. fold ld in D1, D2.
  assert (Hln : (0 <= ln)%Z) by apply Z.log2_nonneg.
  assert (Hld : (0 <= ld)%Z) by apply Z.log2_nonneg.
  assert (E : n # d == inject_Z n / inject_Z (Z.pos d)) by apply Qmake_Qdiv.
  assert (Dpos : 0 < inject_Z (Z.pos d)) by (unfold Qlt; simpl; lia).
  assert (QN1 : pow2 ln <= inject_Z n).
  { rewrite <- pow2_Z by exact Hln. rewrite <- Zle_Qle. exact N1. }
  assert (QN2 : inject_Z n < pow2 (ln + 1)).
  { rewrite <- pow2_Z by lia. rewrite <- Zlt_Qlt. replace (ln + 1)%Z with (Z.succ ln) by lia. exact N2. }
  assert (QD1 : pow2 ld <= inject_Z (Z.pos d)).
  { rewrite <- pow2_Z by exact Hld. rewrite <- Zle_Qle. exact D1. }
  assert (QD2 : inject_Z (Z.pos d) < pow2 (ld + 1)).
  { rewrite <- pow2_Z by lia. rewrite <- Zlt_Qlt. replace (ld + 1)%Z with (Z.succ ld) by lia. exact D2. }
  (* a * D = N *)
  assert (EA : (n # d) * inject_Z (Z.pos d) == inject_Z n).
  { rewrite E. field. intros Hz. rewrite Hz in Dpos. apply (Qlt_irrefl 0 Dpos). }
  set (a := n # d) in *. set (N := inject_Z n) in *. set (D := inject_Z (Z.pos d)) in *.
  assert (Hup : a < pow2 (ln - ld + 1)).
  { (* a * D = N < 2^(ln+1) = 2^(ln-ld+1) * 2^ld <= 2^(ln-ld+1) * D *)
    assert (P : pow2 (ln + 1) == pow2 (ln - ld + 1) * pow2 ld).
    { rewrite <- pow2_add. f_equiv. lia. }
    pose proof (pow2_pos (ln - ld + 1)) as P1.
    apply Qnot_le_lt. intros Hc.
    assert (pow2 (ln - ld + 1) * D <= a * D) by (apply Qmult_le_compat_r; [exact Hc|apply Qlt_le_weak, Dpos]).
    assert (pow2 (ln - ld + 1) * pow2 ld <= pow2 (ln - ld + 1) * D).
    { rewrite !(Qmult_comm (pow2 (ln - ld + 1))). apply Qmult_le_compat_r; [exact QD1|apply Qlt_le_weak, P1]. }
    lra. }
  assert (Hlow : pow2 (ln - ld - 1) <= a).
  { assert (P : pow2 ln == pow2 (ln - ld - 1) * pow2 (ld + 1)).
    { rewrite <- pow2_add. f_equiv. lia. }
    pose proof (pow2_pos (ln - ld - 1)) as P1.
    apply Qnot_lt_le. intros Hc.
    assert (a * D < pow2 (ln - ld - 1) * D) by (apply Qmult_lt_compat_r; [exact Dpos|exact Hc]).
    assert (pow2 (ln - ld - 1) * D <= pow2 (ln - ld - 1) * pow2 (ld + 1)).
    { rewrite !(Qmult_comm (pow2 (ln - ld - 1))). apply Qmult_le_compat_r; [apply Qlt_le_weak, QD2|apply Qlt_le_weak, P1]. }
    lra. }
  destruct (Qle_bool (pow2 (ln - ld)) a) eqn:B.
  - apply Qle_bool_iff in B. split; [exact B|exact Hup].
  - assert (B' : a < pow2 (ln - ld)).
    { apply Qnot_le_lt. intros Hc. apply Qle_bool_iff in Hc. congruence. }
    split; [exact Hlow|]. replace (ln - ld - 1 + 1)%Z with (ln - ld)%Z by lia. exact B'.
Qed.

Lemma ulp_exp_spec (a : Q) : 0 < a -> ulp_ok a (ulp_exp a).
Proof.
  intros Ha. destruct (ilog2_spec a Ha) as [L U]. unfold ulp_ok, ulp_exp.
  set (e := ilog2 a) in *.
  destruct (Z.max_spec e (-1022)) as [[H ->]|[H ->]].
  - split; [lia|]. split.
    + assert (P : pow2 53 * pow2 (-1022 - 52) == pow2 (-1021)) by (rewrite <- pow2_add; reflexivity).
      rewrite P. eapply Qlt_le_trans; [exact U|]. apply pow2_le. lia.
    + lia.
  - split; [lia|]. split.
    + assert (P : pow2 53 * pow2 (e - 52) == pow2 (e + 1)) by (rewrite <- pow2_add; f_equiv; lia).
      rewrite P. exact U.
    + intros _.
      assert (P : pow2 52 * pow2 (e - 52) == pow2 e) by (rewrite <- pow2_add; f_equiv; lia).
      rewrite P. exact L.
Qed.

Lemma ulp_ok_le (a b : Q) (qa qb : Z) :
  0 < a -> a <= b -> ulp_ok a qa -> ulp_ok b qb -> (qa <= qb)%Z.
Proof.
  intros Ha Hab (A1 & A2 & A3) (B1 & B2 & B3).
  destruct (Z_le_gt_dec qa qb) as [H|H]; [exact H|exfalso].
  assert (HA : pow2 52 * pow2 qa <= a) by (apply A3; lia).
  assert (P : pow2 53 * pow2 qb <= pow2 52 * pow2 qa).
  { rewrite <- !pow2_add. apply pow2_le. lia. }
  lra.
Qed.



(** Rounding to the nearest integer. *)
Lemma rhe_bounds (x : Q) :
  (Qfloor x <= round_half_even x <= Qfloor x + 1)%Z.
Proof.
  unfold round_half_even.
  destruct (x - inject_Z (Qfloor x) ?= 1 # 2); [destruct (Z.even (Qfloor x))| |]; lia.
Qed.

Lemma rhe_Z (x : Q) (z : Z) : x == inject_Z z -> round_half_even x = z.
Proof.
  intros E. unfold round_half_even.
  rewrite (Qfloor_comp x (inject_Z z) E), Qfloor_Z.
  destruct (Qcompare_spec (x - inject_Z z) (1 # 2)) as [H|H|H]; try lra.
  reflexivity.
Qed.

Lemma rhe_mono (x y : Q) : x <= y -> (round_half_even x <= round_half_even y)%Z.
Proof.
  intros Hxy. pose proof (Qfloor_resp_le x y Hxy) as Hf.
  pose proof (rhe_bounds x) as Bx. pose proof (rhe_bounds y) as By'.
  destruct (Z_lt_le_dec (Qfloor x) (Qfloor y)) as [Hlt|Hge]; [lia|].
  assert (Ef : Qfloor x = Qfloor y) by lia.
  unfold round_half_even. rewrite Ef.
  assert (Hr : x - inject_Z (Qfloor y) <= y - inject_Z (Qfloor y)) by lra.
  destruct (Qcompare_spec (x - inject_Z (Qfloor y)) (1 # 2)) as [H|H|H];
    destruct (Qcompare_spec (y - inject_Z (Qfloor y)) (1 # 2)) as [H'|H'|H'];
    try lra; try lia; destruct (Z.even (Qfloor y)); lia.
Qed.

Lemma rhe_compat (x y : Q) : x == y -> round_half_even x = round_half_even y.
Proof.
  intros E. apply Z.le_antisymm; apply rhe_mono; rewrite E; apply Qle_refl.
Qed.

Lemma rhe_le_Z (x : Q) (z : Z) : x <= inject_Z z -> (round_half_even x <= z)%Z.
Proof. intros H. rewrite <- (rhe_Z (inject_Z z) z) by reflexivity. by apply rhe_mono. Qed.

Lemma rhe_ge_Z (x : Q) (z : Z) : inject_Z z <= x -> (z <= round_half_even x)%Z.
Proof. intros H. rewrite <- (rhe_Z (inject_Z z) z) at 1 by reflexivity. by apply rhe_mono. Qed.

Lemma scaled_le (a : Q) (q : Z) (k : Z) : a <= inject_Z k * pow2 q <-> a / pow2 q <= inject_Z k.
Proof.
  pose proof (pow2_pos q) as P. split; intros H.
  - apply Qle_shift_div_r; assumption.
  - assert (E : a == a / pow2 q * pow2 q) by (field; lra).
    rewrite E. apply Qmult_le_compat_r; [exact H|lra].
Qed.

Lemma scaled_ge (a : Q) (q : Z) (k : Z) : inject_Z k * pow2 q <= a <-> inject_Z k <= a / pow2 q.
Proof.
  pose proof (pow2_pos q) as P. split; intros H.
  - apply Qle_shift_div_l; assumption.
  - assert (E : a == a / pow2 q * pow2 q) by (field; lra).
    rewrite E. apply Qmult_le_compat_r; [exact H|lra].
Qed.

(** The rounded value does not cross a multiple of the unit. *)
Lemma round64_pos_le (a : Q) (k : Z) :
  a <= inject_Z k * pow2 (ulp_exp a) -> round64_pos a <= inject_Z k * pow2 (ulp_exp a).
Proof.
  intros H. unfold round64_pos. cbv zeta.
  apply Qmult_le_compat_r; [|apply Qlt_le_weak, pow2_pos].
  rewrite <- Zle_Qle. apply rhe_le_Z. by apply scaled_le.
Qed.

Lemma round64_pos_ge (a : Q) (k : Z) :
  inject_Z k * pow2 (ulp_exp a) <= a -> inject_Z k * pow2 (ulp_exp a) <= round64_pos a.
Proof.
  intros H. unfold round64_pos. cbv zeta.
  apply Qmult_le_compat_r; [|apply Qlt_le_weak, pow2_pos].
  rewrite <- Zle_Qle. apply rhe_ge_Z. by apply scaled_ge.
Qed.

Lemma round64_pos_nonneg (a : Q) : 0 < a -> 0 <= round64_pos a.
Proof.
  intros Ha. assert (E : 0 == inject_Z 0 * pow2 (ulp_exp a)) by ring.
  rewrite E. apply round64_pos_ge. rewrite <- E. lra.
Qed.

Lemma round64_pos_mono (a b : Q) : 0 < a -> a <= b -> round64_pos a <= round64_pos b.
Proof.
  intros Ha Hab. assert (Hb : 0 < b) by lra.
  pose proof (ulp_exp_spec a Ha) as Sa. pose proof (ulp_exp_spec b Hb) as Sb.
  pose proof (ulp_ok_le a b _ _ Ha Hab Sa Sb) as Hq.
  destruct Sa as (A1 & A2 & A3). destruct Sb as (B1 & B2 & B3).
  destruct (Z.eq_dec (ulp_exp a) (ulp_exp b)) as [E|N].
  - unfold round64_pos. cbv zeta. rewrite E.
    apply Qmult_le_compat_r; [|apply Qlt_le_weak, pow2_pos].
    rewrite <- Zle_Qle. apply rhe_mono.
    apply Qmult_le_compat_r; [exact Hab|]. apply Qlt_le_weak, Qinv_lt_0_compat, pow2_pos.
  - assert (Hlt : (ulp_exp a < ulp_exp b)%Z) by lia.
    (* B = 2^52 * 2^qb *)
    assert (HB : pow2 52 * pow2 (ulp_exp b) <= b) by (apply B3; lia).
    assert (Rb : inject_Z (2 ^ 52) * pow2 (ulp_exp b) <= round64_pos b).
    { apply round64_pos_ge. rewrite pow2_Z by lia. exact HB. }
    set (k := (2 ^ (52 + (ulp_exp b - ulp_exp a)))%Z).
    assert (Ek : inject_Z k * pow2 (ulp_exp a) == pow2 52 * pow2 (ulp_exp b)).
    { unfold k. rewrite pow2_Z by lia. rewrite <- !pow2_add. f_equiv. lia. }
    assert (Ra : round64_pos a <= inject_Z k * pow2 (ulp_exp a)).
    { apply round64_pos_le. rewrite Ek.
      assert (P : pow2 53 * pow2 (ulp_exp a) <= pow2 52 * pow2 (ulp_exp b)).
      { rewrite <- !pow2_add. apply pow2_le. lia. }
      lra. }
    rewrite pow2_Z in Rb by lia. lra.
Qed.

Lemma round64_pos_compat (a b : Q) : 0 < a -> a == b -> round64_pos a == round64_pos b.
Proof.
  intros Ha E. apply Qle_antisym; apply round64_pos_mono; lra.
Qed.

Lemma round64_neg (x : Q) : round64 (- x) == - round64 x.
Proof.
  unfold round64.
  destruct (Qcompare_spec x 0) as [H|H|H];
    destruct (Qcompare_spec (- x) 0) as [H'|H'|H']; try lra.
  rewrite (round64_pos_compat (- - x) x); [reflexivity|lra|ring].
Qed.

Lemma round64_0 : round64 0 = 0.
Proof. reflexivity. Qed.

Lemma round64_nonneg (x : Q) : 0 <= x -> 0 <= round64 x.
Proof.
  intros H. unfold round64. destruct (Qcompare_spec x 0) as [E|E|E]; try lra.
  by apply round64_pos_nonneg.
Qed.

(** Rounding is monotone. *)
Lemma round64_mono (x y : Q) : x <= y -> round64 x <= round64 y.
Proof.
  intros Hxy.
  destruct (Qlt_le_dec 0 x) as [Hx|Hx].
  - unfold round64.
    destruct (Qcompare_spec x 0) as [E|E|E]; try lra.
    destruct (Qcompare_spec y 0) as [E'|E'|E']; try lra.
    by apply round64_pos_mono.
  - destruct (Qlt_le_dec y 0) as [Hy|Hy].
    + (* both negative *)
      assert (Hn : round64 (- y) <= round64 (- x)).
      { unfold round64.
        destruct (Qcompare_spec (- y) 0) as [E|E|E]; try lra.
        destruct (Qcompare_spec (- x) 0) as [E'|E'|E']; try lra.
        apply round64_pos_mono; lra. }
      rewrite !round64_neg in Hn. lra.
    + pose proof (round64_nonneg y Hy) as Py.
      assert (Px : 0 <= round64 (- x)) by (apply round64_nonneg; lra).
      rewrite round64_neg in Px. lra.
Qed.

Lemma round64_compat (x y : Q) : x == y -> round64 x == round64 y.
Proof. intros E. apply Qle_antisym; apply round64_mono; lra. Qed.



Lemma round64_1 : round64 1 == 1.
Proof. vm_compute. reflexivity. Qed.

(** A quotient between 0 and 1 rounds to a float between 0 and 1. *)
Lemma round64_unit (x : Q) : 0 <= x -> x <= 1 -> 0 <= round64 x /\ round64 x <= 1.
Proof.
  intros H0 H1. split; [by apply round64_nonneg|].
  rewrite <- round64_1. by apply round64_mono.
Qed.

End Float64Facts.

(** ** [labels_match] *)
Section LabelsFacts.
Import PyStr Float64 Labels.
Context {RT : Runtime}.

Lemma re_split_from_length cur s : (0 < length (re_split_from cur s))%nat.
Proof.
  remember (length s) as n eqn:En.
  revert s cur En. induction n as [n IH] using lt_wf_ind. intros s cur En.
  destruct s as [|c s]; [simpl; lia|].
  cbn [re_split_from]. destruct (c =? COMMA)%N.
  - destruct s as [|d s'].
    + simpl; lia.
    + destruct (d =? SPACE)%N; [simpl; lia|].
      eapply (IH (length (d :: s'))); [subst n; simpl; lia|reflexivity].
  - destruct ((c =? SPACE)%N || (c =? NBSP)%N); [simpl; lia|].
    eapply (IH (length s)); [subst n; simpl; lia|reflexivity].
Qed.

Lemma re_split_length s : (0 < length (re_split s))%nat.
Proof. apply re_split_from_length. Qed.

Lemma count_in_from (xs ys : list pystr) (a : Z) :
  fold_left (fun coef word => if bool_decide (word ∈ ys) then coef + 1 else coef) xs a
  = a + Z.of_nat (length (filter (fun w => w ∈ ys) xs)).
Proof.
  revert a. induction xs as [|x xs IH]; intros a; simpl; [lia|].
  rewrite IH, filter_cons.
  case_bool_decide; destruct (decide (x ∈ ys)); try tauto; simpl length; lia.
Qed.

Lemma count_in_filter (xs ys : list pystr) :
  count_in xs ys = Z.of_nat (length (filter (fun w => w ∈ ys) xs)).
Proof. unfold count_in. rewrite count_in_from. lia. Qed.

Lemma overlap_fraction_unit (xs ys : list pystr) :
  (0 <= overlap_fraction xs ys)%Q /\ (overlap_fraction xs ys <= 1)%Q.
Proof.
  unfold overlap_fraction.
  pose proof (length_filter (fun w => w ∈ ys) xs) as Hle.
  destruct xs as [|x xs].
  - simpl. split; unfold Qle; simpl; lia.
  - remember (x :: xs) as l eqn:El.
    assert (Hpos : (0 < length l)%nat) by (subst l; simpl; lia).
    split.
    + apply Qle_shift_div_l. { unfold Qlt. simpl. lia. }
      unfold Qle. simpl. lia.
    + apply Qle_shift_div_r. { unfold Qlt. simpl. lia. }
      unfold Qle. simpl. lia.
Qed.

Lemma true_div_count (xs ys : list pystr) :
  (0 < length xs)%nat ->
  true_div (count_in xs ys) (length xs) = Some (round64 (overlap_fraction xs ys)).
Proof.
  intros Hlen. unfold true_div, overlap_fraction. rewrite count_in_filter.
  destruct (length xs) eqn:E; [lia|reflexivity].
Qed.

Lemma match_coef_some (l0 l1 : list pystr) :
  (0 < length l0)%nat -> (0 < length l1)%nat ->
  match_coef l0 l1 =
  Some (py_max (round64 (overlap_fraction l0 l1)) (round64 (overlap_fraction l1 l0))).
Proof.
  intros H0 H1. unfold match_coef.
  rewrite (true_div_count l0 l1 H0), (true_div_count l1 l0 H1). reflexivity.
Qed.

Lemma py_max_le t x y : (t <= py_max x y <-> t <= Qmax x y)%Q.
Proof.
  unfold py_max. rewrite Q.max_le_iff.
  destruct (Qle_bool y x) eqn:E.
  - apply Qle_bool_iff in E. split; [tauto|]. intros [Hx|Hy]; [exact Hx|].
    eapply Qle_trans; eassumption.
  - split; [tauto|]. intros [Hx|Hy]; [|exact Hy].
    destruct (Qlt_le_dec x y) as [L|L].
    + eapply Qle_trans; [exact Hx|]. apply Qlt_le_weak, L.
    + apply Qle_bool_iff in L. congruence.
Qed.

(** Rounding commutes with the maximum: the float coefficient is the
    rounded maximum of the two fractions. *)
Lemma round64_max (x y : Q) : (Qmax (round64 x) (round64 y) == round64 (Qmax x y))%Q.
Proof.
  destruct (Qlt_le_dec x y) as [L|L].
  - assert (Hxy : (x <= y)%Q) by (apply Qlt_le_weak, L).
    rewrite (Q.max_r (round64 x) (round64 y)) by (apply round64_mono, Hxy).
    apply round64_compat. symmetry. apply Q.max_r, Hxy.
  - rewrite (Q.max_l (round64 x) (round64 y)) by (apply round64_mono, L).
    apply round64_compat. symmetry. apply Q.max_l, L.
Qed.

Lemma float_le_coef (th : pyfloat) (x y : Q) :
  float_le th (Finite (py_max (round64 x) (round64 y)))
  = float_le th (Finite (round64 (Qmax x y))).
Proof.
  destruct th as [q| | |]; try reflexivity. simpl.
  apply eq_true_iff_eq. rewrite !Qle_bool_iff, py_max_le, round64_max. reflexivity.
Qed.

Lemma overlap_coef_unit (xs ys : list pystr) :
  (0 <= overlap_coef xs ys)%Q /\ (overlap_coef xs ys <= 1)%Q.
Proof.
  unfold overlap_coef.
  destruct (overlap_fraction_unit xs ys) as [A1 A2].
  destruct (overlap_fraction_unit ys xs) as [B1 B2].
  apply round64_unit.
  - apply Q.max_le_iff. by left.
  - apply Q.max_lub; assumption.
Qed.

Lemma artist_tokens_length s : (0 < length (artist_tokens s))%nat.
Proof. apply re_split_length. Qed.

Lemma song_tokens_length s : (0 < length (song_tokens s))%nat.
Proof. apply re_split_length. Qed.

(** The compared labels are not the null label: the function reduces to the
    comparison of the two coefficients with the lowered threshold. *)
Lemma labels_match_unfold a0 s0 a1 s1 t :
  a1 ≠ NaN_label -> s1 ≠ NaN_label ->
  labels_match [a0; s0] [a1; s1] t =
  Some (float_le (float_sub t TOLERANCE)
          (Finite (overlap_coef (artist_tokens a0) (artist_tokens a1)))
        && float_le (float_sub t TOLERANCE)
             (Finite (overlap_coef (song_tokens s0) (song_tokens s1)))).
Proof.
  intros Ha Hs. unfold labels_match. simpl.
  unfold str_eqb. rewrite !bool_decide_eq_false_2 by assumption. simpl.
  rewrite !match_coef_some by (apply re_split_length). simpl.
  rewrite !float_le_coef. fold (overlap_coef (artist_tokens a0) (artist_tokens a1)).
  fold (overlap_coef (song_tokens s0) (song_tokens s1)).
  match goal with |- context [if ?b then _ else _] => destruct b end; reflexivity.
Qed.

Lemma overlap_fraction_self (l : list pystr) : (0 < length l)%nat -> (overlap_fraction l l == 1)%Q.
Proof.
  intros Hl. unfold overlap_fraction.
  assert (E : filter (fun w => w ∈ l) l = l).
  { assert (G : forall l', Forall (fun w => w ∈ l) l' -> filter (fun w => w ∈ l) l' = l').
    { induction 1 as [|x l' Hx _ IH]; [reflexivity|].
      rewrite filter_cons, IH. destruct (decide (x ∈ l)); tauto. }
    apply G, Forall_forall. auto. }
  rewrite E. unfold Qdiv. apply Qmult_inv_r.
  unfold Qeq. simpl. lia.
Qed.

Lemma overlap_coef_self (l : list pystr) : (0 < length l)%nat -> (overlap_coef l l == 1)%Q.
Proof.
  intros Hl. unfold overlap_coef. rewrite <- round64_1. apply round64_compat.
  rewrite Q.max_id. by apply overlap_fraction_self.
Qed.

(** The lowered threshold is a float not above the threshold. *)
Lemma float_sub_le (t : pyfloat) (q : Q) :
  float_le t (Finite q) = true -> (round64 q == q)%Q ->
  float_le (float_sub t TOLERANCE) (Finite q) = true.
Proof.
  destruct t as [x| | |]; simpl; try done.
  intros Hle Hq. apply Qle_bool_iff in Hle. apply Qle_bool_iff.
  rewrite <- Hq. apply round64_mono.
  assert (Htol : (0 < TOLERANCE)%Q) by reflexivity.
  unfold Qminus. apply Qle_trans with x; [|exact Hle].
  rewrite <- (Qplus_0_r x) at 2. apply Qplus_le_r.
  apply Qlt_le_weak. apply (Qopp_lt_compat 0 TOLERANCE) in Htol. exact Htol.
Qed.

(** Labels with the same tokens match at every threshold up to 1. *)
Lemma labels_match_same_tokens a0 s0 a1 s1 t :
  a1 ≠ NaN_label -> s1 ≠ NaN_label ->
  artist_tokens a0 = artist_tokens a1 ->
  song_tokens s0 = song_tokens s1 ->
  float_le t (Finite 1) = true ->
  labels_match [a0; s0] [a1; s1] t = Some true.
Proof.
  intros Ha Hs Ea Es Ht. rewrite labels_match_unfold by assumption.
  rewrite Ea, Es. f_equal. apply andb_true_iff.
  assert (Hle : forall l : list pystr, (0 < length l)%nat ->
            float_le (float_sub t TOLERANCE) (Finite (overlap_coef l l)) = true).
  { intros l Hl.
    assert (E1 : float_le (float_sub t TOLERANCE) (Finite 1) = true).
    { apply float_sub_le; [exact Ht|apply round64_1]. }
    destruct t as [x| | |]; simpl in *; try done.
    apply Qle_bool_iff in E1. apply Qle_bool_iff.
    rewrite (overlap_coef_self l Hl). exact E1. }
  split; apply Hle, re_split_length.
Qed.

(** On ASCII text the tokens are those of the ASCII lower case. *)
Lemma sub_quote_ascii (s : pystr) :
  forallb is_ascii s = true -> sub_char RIGHT_QUOTE APOSTROPHE s = s.
Proof.
  induction s as [|c s IH]; [reflexivity|]. simpl.
  intros Hs. apply andb_true_iff in Hs as [Hc Hs]. rewrite (IH Hs).
  unfold is_ascii in Hc. apply N.ltb_lt in Hc.
  destruct (c =? RIGHT_QUOTE)%N eqn:E; [|reflexivity].
  apply N.eqb_eq in E. subst c. unfold RIGHT_QUOTE in Hc. lia.
Qed.


Lemma artist_tokens_ascii (s : pystr) :
  forallb is_ascii s = true -> artist_tokens s = re_split (ascii_lower s).
Proof.
  intros Hs. unfold artist_tokens. rewrite (sub_quote_ascii s Hs).
  by rewrite str_lower_ascii.
Qed.



(** C9: [labels_match] returns False whenever the compared artist or the
    compared song is the string 'NaN', whatever the original labels and the
    threshold; only the second argument is checked, so the function is not
    symmetric: with 'NaN' as the original artist only, the call can return
    True while the call with the arguments exchanged returns False. *)
Theorem labels_match_null_compared :
  (forall (a0 s0 a1 s1 : pystr) (t : pyfloat),
     a1 = NaN_label \/ s1 = NaN_label ->
     labels_match [a0; s0] [a1; s1] t = Some false)
  /\ (forall (s : pystr) (t : pyfloat),
        s ≠ NaN_label -> float_le t (Finite 1) = true ->
        labels_match [NaN_label; s] [u "nan"; s] t = Some true
        /\ labels_match [u "nan"; s] [NaN_label; s] t = Some false).
Proof.
  assert (Hnull : forall (a0 s0 a1 s1 : pystr) (t : pyfloat),
            a1 = NaN_label \/ s1 = NaN_label ->
            labels_match [a0; s0] [a1; s1] t = Some false).
  { intros a0 s0 a1 s1 t Hn. unfold labels_match. simpl. unfold str_eqb.
    destruct Hn as [-> | ->].
    - rewrite bool_decide_eq_true_2 by reflexivity. reflexivity.
    - rewrite (bool_decide_eq_true_2 (NaN_label = NaN_label)) by reflexivity.
      rewrite orb_true_r. reflexivity. }
  split; [exact Hnull|].
  intros s t Hs Ht. split.
  - apply labels_match_same_tokens; try assumption; try reflexivity.
    + vm_compute. discriminate.
    + rewrite !artist_tokens_ascii by reflexivity. reflexivity.
  - apply Hnull. left. reflexivity.
Qed.

End LabelsFacts.

Section LabelsExamples.
Import PyStr Float64 Labels.
#[local] Existing Instance ascii_runtime.


Lemma labels_match_null_compared_witness :
  labels_match [u "Queen"; u "Radio Ga Ga"] [u "NaN"; u "Radio Ga Ga"] DEFAULT_THRESH
    = Some false
  /\ labels_match [u "NaN"; u "Hello"] [u "nan"; u "Hello"] DEFAULT_THRESH = Some true
  /\ labels_match [u "nan"; u "Hello"] [u "NaN"; u "Hello"] DEFAULT_THRESH = Some false.
Proof.
  split.
  - apply (proj1 labels_match_null_compared). left. reflexivity.
  - apply (proj2 labels_match_null_compared (u "Hello") DEFAULT_THRESH).
    + vm_compute. discriminate.
    + vm_compute. reflexivity.
Defined.

End LabelsExamples.

(** ** [np.unique] and [np.union1d] *)
Section NpFacts.
Import Np.

Lemma elem_of_insert_unique (x y : Z) (l : list Z) :
  y ∈ insert_unique x l <-> y = x \/ y ∈ l.
Proof.
  induction l as [|z l IH]; simpl.
  - rewrite list_elem_of_singleton, elem_of_nil. tauto.
  - destruct (x <? z) eqn:L; [|destruct (x =? z) eqn:E].
    + rewrite (elem_of_cons (z :: l)). tauto.
    + apply Z.eqb_eq in E. subst z. rewrite elem_of_cons. tauto.
    + rewrite !elem_of_cons, IH. tauto.
Qed.

Lemma elem_of_unique (y : Z) (a : list Z) : y ∈ unique a <-> y ∈ a.
Proof.
  induction a as [|x a IH]; simpl; [tauto|].
  rewrite elem_of_insert_unique, elem_of_cons, IH. tauto.
Qed.

Lemma insert_unique_sorted (x : Z) (l : list Z) :
  StronglySorted Z.lt l -> StronglySorted Z.lt (insert_unique x l).
Proof.
  induction 1 as [|z l Hs IH Hz]; simpl.
  - repeat constructor.
  - destruct (x <? z) eqn:L; [|destruct (x =? z) eqn:E].
    + apply Z.ltb_lt in L. constructor; [constructor; assumption|].
      constructor; [exact L|]. eapply Forall_impl; [exact Hz|]. simpl. lia.
    + constructor; assumption.
    + apply Z.ltb_ge in L. apply Z.eqb_neq in E.
      constructor; [exact IH|].
      apply Forall_forall. intros y Hy. apply elem_of_insert_unique in Hy.
      destruct Hy as [->|Hy]; [lia|].
      rewrite Forall_forall in Hz. apply Hz, Hy.
Qed.

Lemma unique_sorted (a : list Z) : StronglySorted Z.lt (unique a).
Proof.
  induction a as [|x a IH]; simpl; [constructor|].
  apply insert_unique_sorted, IH.
Qed.

Lemma sorted_NoDup (l : list Z) : StronglySorted Z.lt l -> NoDup l.
Proof.
  induction 1 as [|z l Hs IH Hz]; constructor; [|exact IH].
  intros Hin. rewrite Forall_forall in Hz. specialize (Hz z Hin). lia.
Qed.

Lemma unique_NoDup (a : list Z) : NoDup (unique a).
Proof. apply sorted_NoDup, unique_sorted. Qed.

(** The number of values [np.unique] returns is the size of the set of
    the values. *)
Lemma unique_length (a : list Z) :
  length (unique a) = size (list_to_set a : gset Z).
Proof.
  rewrite <- (size_list_to_set (C := gset Z) (unique a)) by apply unique_NoDup.
  f_equal. apply set_eq. intros y.
  rewrite !elem_of_list_to_set. apply elem_of_unique.
Qed.

(** *** int64 *)

Lemma wrap64_range (z : Z) : - 2 ^ 63 <= wrap64 z < 2 ^ 63.
Proof. unfold wrap64. pose proof (Z.mod_pos_bound (z + 2 ^ 63) (2 ^ 64)). lia. Qed.

Lemma wrap64_small (z : Z) : - 2 ^ 63 <= z < 2 ^ 63 -> wrap64 z = z.
Proof. intros H. unfold wrap64. rewrite Z.mod_small by lia. lia. Qed.

Lemma wrap64_add_l (a b : Z) : wrap64 (wrap64 a + b) = wrap64 (a + b).
Proof.
  unfold wrap64. f_equal.
  replace ((a + 2 ^ 63) mod 2 ^ 64 - 2 ^ 63 + b + 2 ^ 63)
    with ((a + 2 ^ 63) mod 2 ^ 64 + b) by lia.
  rewrite Zplus_mod_idemp_l. f_equal. lia.
Qed.

Lemma wrap64_add_r (a b : Z) : wrap64 (a + wrap64 b) = wrap64 (a + b).
Proof. rewrite (Z.add_comm a (wrap64 b)), wrap64_add_l. f_equal. lia. Qed.

Lemma wrap64_idem (z : Z) : wrap64 (wrap64 z) = wrap64 z.
Proof. apply wrap64_small, wrap64_range. Qed.

(** A sum of int64 values, added one by one, is the sum of the integers
    brought into the range. *)
Lemma int64_sum_from (values : list Z) (a : Z) :
  wrap64 (fold_left int64_add values a) = wrap64 (a + foldr Z.add 0 values).
Proof.
  revert a. induction values as [|v values IH]; intros a; simpl.
  - f_equal. lia.
  - rewrite IH. unfold int64_add. rewrite wrap64_add_l. f_equal. lia.
Qed.

Lemma int64_fold_range (values : list Z) (a : Z) :
  - 2 ^ 63 <= a < 2 ^ 63 -> - 2 ^ 63 <= fold_left int64_add values a < 2 ^ 63.
Proof.
  revert a. induction values as [|v values IH]; intros a Ha; [exact Ha|].
  simpl. apply IH, wrap64_range.
Qed.

Lemma int64_sum (values : list Z) :
  fold_left int64_add values 0 = wrap64 (foldr Z.add 0 values).
Proof.
  rewrite <- (wrap64_small (fold_left int64_add values 0))
    by (apply int64_fold_range; lia).
  rewrite int64_sum_from. reflexivity.
Qed.

Lemma wrap64_sum_map (values : list Z) :
  wrap64 (foldr Z.add 0 (map wrap64 values)) = wrap64 (foldr Z.add 0 values).
Proof.
  induction values as [|v values IH]; [reflexivity|]. simpl.
  rewrite wrap64_add_l, <- wrap64_add_r, IH, wrap64_add_r. reflexivity.
Qed.

End NpFacts.

(** ** [spotify_audio_features] *)
Section SpotifyFacts.
Import PyStr Spotify.
Context {RT : Runtime}.

(** *** One round of each request loop *)




Lemma search_loop_200 cid cs payload auth r w :
  status_code r = 200 ->
  search_loop cid cs payload auth (r :: w) =
  ([EvGet Search payload auth; EvRecv Search r], Done (r, auth, w)).
Proof. intros H. simpl. rewrite H. reflexivity. Qed.








(** *** A 429 ends the run *)


















(** *** Retries without a bound *)





End SpotifyFacts.

Section SpotifyExamples.
Import PyStr Spotify Samples.
#[local] Existing Instance ascii_runtime.






End SpotifyExamples.

(** *** The CSV log *)
Section SpotifyCsvFacts.
Import PyStr Spotify SpotifyTerms.
Context {RT : Runtime}.











Lemma bind_outcome {A B} (r : run A) (k : A -> run B) :
  (bind r k).2 = match r.2 with
                 | Done x => (k x).2
                 | Return b => Return b
                 | Raised e => Raised e
                 | Pending => Pending
                 end.
Proof. destruct r as [tr out]. unfold bind. cbn [fst snd]. destruct out; reflexivity. Qed.








Lemma never_true_prepend {A} evs (r : run A) : never_true r -> never_true (prepend evs r).
Proof. intros Hr b Hb. apply Hr, Hb. Qed.

Lemma never_true_bind {A B} (r : run A) (k : A -> run B) :
  never_true r -> (forall x, never_true (k x)) -> never_true (bind r k).
Proof.
  intros Hr Hk b. rewrite bind_outcome. destruct r as [tr out]. cbn [snd] in *.
  destruct out as [x|b'|e|]; intros Hb; try discriminate Hb.
  - apply (Hk x), Hb.
  - apply Hr. cbn [snd]. injection Hb as ->. reflexivity.
Qed.

Lemma never_true_other {A} evs (out : outcome A) :
  (forall b, out ≠ Return b) -> never_true (evs, out).
Proof. intros Hn b Hb. simpl in Hb. exfalso. exact (Hn b Hb). Qed.



Lemma save_batch_loop_never_true cid cs pf pa auth w :
  never_true (save_batch_loop cid cs pf pa auth w).
Proof.
  remember (length w) as n eqn:En.
  revert w auth En. induction n as [n IH] using lt_wf_ind. intros w auth En.
  destruct w as [|rf w]; [by apply never_true_other|].
  destruct w as [|ra w]; [by apply never_true_other|].
  cbn [save_batch_loop].
  destruct (status_code rf =? 429); [by apply never_true_other|].
  destruct (status_code ra =? 429); [by apply never_true_other|].
  destruct ((status_code rf =? 401) || (status_code ra =? 401)).
  { destruct w as [|t w3]; [by apply never_true_other|].
    destruct (token_result t); [by apply never_true_other|].
    apply never_true_prepend.
    eapply (IH (length w3)); [subst n; simpl; lia|reflexivity]. }
  destruct (negb (status_code rf =? 200)).
  { apply never_true_prepend. eapply (IH (length w)); [subst n; simpl; lia|reflexivity]. }
  destruct (negb (status_code ra =? 200)); [|by apply never_true_other].
  apply never_true_prepend. eapply (IH (length w)); [subst n; simpl; lia|reflexivity].
Qed.

Lemma save_batch_never_true cid cs batch auth w :
  never_true (save_batch cid cs batch auth w).
Proof.
  unfold save_batch. apply never_true_bind; [apply save_batch_loop_never_true|].
  intros [[[fj aj] auth'] w'].
  destruct (batch_merged batch fj aj); by apply never_true_other.
Qed.


Lemma save_remaining_never_true cid cs st w :
  never_true (save_remaining cid cs st w).
Proof.
  unfold save_remaining. destruct (batch_list st); [by apply never_true_other|].
  apply never_true_bind; [apply save_batch_never_true|].
  intros [[frame auth2] w2]. by apply never_true_other.
Qed.

(** *** The plan of the writes *)





Lemma prefix_nil_l {A} (l : list A) : [] `prefix_of` l.
Proof. apply prefix_nil. Qed.





End SpotifyCsvFacts.

Section SpotifyCsvExamples.
Import PyStr Spotify SpotifyTerms Samples.
#[local] Existing Instance ascii_runtime.


(** An input of one row: the only call is the append after the loop. *)
Example short_input_is_appended :
  (spotify_audio_features CLIENT_ID CLIENT_SECRET [poor_little_fool]
     [token_ok; search_hit; feats_ok; artists_ok]).2 = Return true
  /\ csv_writes
       (spotify_audio_features CLIENT_ID CLIENT_SECRET [poor_little_fool]
          [token_ok; search_hit; feats_ok; artists_ok]).1
     = [(ModeA, false, 1%nat)].
Proof. split; vm_compute; reflexivity. Qed.

(** An empty list of artists: [save_batch] raises KeyError (line 175) and
    nothing is written. *)
Example empty_artists_raise :
  spotify_audio_features CLIENT_ID CLIENT_SECRET [poor_little_fool]
    [token_ok; search_hit; feats_ok; resp 200 (JArtists [])]
  = ([EvPost CLIENT_ID CLIENT_SECRET; EvRecv Token token_ok;
      EvDisplay 714993 1 1 0 1;
      EvGet Search (u "artist:Ricky Nelson track:Poor Little Fool") (u "Bearer t0");
      EvRecv Search search_hit;
      EvGet AudioFeatures (u "t1") (u "Bearer t0"); EvRecv AudioFeatures feats_ok;
      EvGet Artists (u "a1") (u "Bearer t0"); EvRecv Artists (resp 200 (JArtists []))],
     Raised KeyError).
Proof. vm_compute. reflexivity. Qed.

End SpotifyCsvExamples.

(** ** [artist_stats] *)
Section ArtistStatsFacts.
Import PyStr Np ArtistStats.

Lemma startswith_prefix (s p : pystr) : startswith s p = true <-> p `prefix_of` s.
Proof.
  revert s. induction p as [|c p IH]; intros s.
  - split; [intros _; apply prefix_nil|]. intros _. destruct s; reflexivity.
  - destruct s as [|d s]; simpl.
    + split; [discriminate|]. intros H. by apply prefix_nil_not in H.
    + rewrite andb_true_iff, N.eqb_eq, IH. split.
      * intros [-> H]. by apply prefix_cons.
      * intros H. split; [symmetry; eapply prefix_cons_inv_1, H|eapply prefix_cons_inv_2, H].
Qed.

Lemma col_sum_wrap (values : list Z) : col_sum values = wrap64 (foldr Z.add 0 values).
Proof. apply int64_sum. Qed.

(** The sum of the column [score] of a frame of scored rows. *)
Lemma score_sum (rows : list chart_row) :
  col_sum (map score (map assign_score rows))
  = wrap64 (foldr Z.add 0 (map (fun r => 101 - pos r) rows)).
Proof.
  rewrite col_sum_wrap, map_map. cbn [score assign_score]. unfold int64_sub.
  rewrite <- (map_map (fun r => 101 - pos r) wrap64). apply wrap64_sum_map.
Qed.

Lemma foldr_add_bounds (f : chart_row -> Z) (lo hi : Z) (l : list chart_row) :
  (forall r, r ∈ l -> lo <= f r <= hi) ->
  lo * Z.of_nat (length l) <= foldr Z.add 0 (map f l) <= hi * Z.of_nat (length l).
Proof.
  induction l as [|r l IH]; intros H; [simpl; lia|].
  assert (H1 : lo <= f r <= hi) by (apply H; left).
  assert (H2 : forall r, r ∈ l -> lo <= f r <= hi) by (intros r' Hr'; apply H; by right).
  specialize (IH H2). cbn [map foldr length]. lia.
Qed.

(** The solo rows and the collaborations are different rows of the
    table. *)
Lemma solo_colab_length (name : pystr) (hot_100 : list chart_row) :
  (length (filter (fun r => artist r = name) hot_100)
   + length (filter (fun r => name `prefix_of` artist r ∧ artist r ≠ name) hot_100)
   <= length hot_100)%nat.
Proof.
  induction hot_100 as [|r l IH]; [reflexivity|].
  rewrite !filter_cons.
  destruct (decide (artist r = name)) as [E|E];
    destruct (decide (name `prefix_of` artist r ∧ artist r ≠ name)) as [[_ F]|F];
    cbn [length]; try lia.
  contradiction.
Qed.

Lemma seen_fold (values seen : list pystr) :
  NoDup seen ->
  NoDup (fold_left seen_step values seen)
  /\ (forall x, x ∈ fold_left seen_step values seen <-> x ∈ seen \/ x ∈ values).
Proof.
  revert seen. induction values as [|v values IH]; intros seen Hnd; simpl.
  - split; [exact Hnd|]. intros x. rewrite elem_of_nil. tauto.
  - assert (Hstep : NoDup (seen_step seen v)
                    /\ forall x, x ∈ seen_step seen v <-> x ∈ seen \/ x = v).
    { unfold seen_step. case_bool_decide as Hv.
      - split; [exact Hnd|]. intros x. split; [tauto|]. intros [H| ->]; assumption.
      - split.
        + apply NoDup_app. split; [exact Hnd|]. split; [|apply NoDup_singleton].
          intros x Hx Hx'. apply list_elem_of_singleton in Hx'. subst x. contradiction.
        + intros x. rewrite elem_of_app, list_elem_of_singleton. tauto. }
    destruct Hstep as [Hnd' Hin'].
    destruct (IH _ Hnd') as [Hn Hi]. split; [exact Hn|].
    intros x. rewrite Hi, Hin', elem_of_cons. tauto.
Qed.

(** [nunique] counts the distinct values. *)
Lemma nunique_size (values : list pystr) :
  nunique values = size (list_to_set values : gset pystr).
Proof.
  unfold nunique.
  destruct (seen_fold values [] (NoDup_nil_2)) as [Hnd Hin].
  rewrite <- (size_list_to_set (C := gset pystr) _ Hnd).
  f_equal. apply set_eq. intros x.
  rewrite !elem_of_list_to_set, Hin, elem_of_nil. tauto.
Qed.

Lemma union1d_size (a b : list Z) :
  length (union1d a b) = size ((list_to_set a ∪ list_to_set b) : gset Z).
Proof.
  unfold union1d. rewrite unique_length, list_to_set_app_L. reflexivity.
Qed.


End ArtistStatsFacts.

Section ArtistStatsExamples.
Import PyStr Np ArtistStats Samples.

Example artist_stats_fixture :
  artist_stats (u "Drake") fixture =
  Some {| n_solo_songs := 2; n_colab_songs := 1; n_weeks := 3;
          solo_score := 295; total_score := 484 |}.
Proof. vm_compute. reflexivity. Qed.



End ArtistStatsExamples.

(** ** [str.strip] *)
Section StripFacts.
Import PyStr.

Lemma lstrip_head (s : pystr) (c : N) : head (lstrip s) = Some c -> is_space c = false.
Proof.
  induction s as [|x s IH]; simpl; [discriminate|].
  destruct (is_space x) eqn:E; [exact IH|].
  simpl. intros H. injection H as <-. exact E.
Qed.

Lemma lstrip_suffix (s : pystr) : exists p, s = p ++ lstrip s.
Proof.
  induction s as [|x s [p IH]]; [by exists []|].
  simpl. destruct (is_space x).
  - exists (x :: p). simpl. by rewrite <- IH.
  - by exists [].
Qed.

Lemma last_rev_head {A} (l : list A) : last (rev l) = head l.
Proof. destruct l as [|x l]; [reflexivity|]. simpl. apply last_snoc. Qed.

Lemma head_app_ne {A} (a b : list A) : a ≠ [] -> head (a ++ b) = head a.
Proof. destruct a; [contradiction|reflexivity]. Qed.

(** [str.strip] leaves no white space at either end. *)
Lemma strip_ends (s : pystr) (c : N) :
  (head (strip s) = Some c -> is_space c = false)
  /\ (last (strip s) = Some c -> is_space c = false).
Proof.
  unfold strip. set (a := lstrip s). set (v := lstrip (rev a)).
  split.
  - intros H. destruct (lstrip_suffix (rev a)) as [p Hp]. fold v in Hp.
    assert (Ha : a = rev v ++ rev p).
    { rewrite <- (rev_involutive a), Hp, rev_app_distr. reflexivity. }
    assert (Hne : rev v ≠ []) by (intros E; rewrite E in H; discriminate H).
    apply (lstrip_head s). fold a. rewrite Ha, head_app_ne by exact Hne. exact H.
  - rewrite last_rev_head. apply lstrip_head.
Qed.

Lemma lstrip_sublist (s : pystr) : lstrip s `sublist_of` s.
Proof.
  destruct (lstrip_suffix s) as [p Hp]. rewrite Hp at 2. apply sublist_inserts_l. reflexivity.
Qed.

Lemma strip_sublist (s : pystr) : strip s `sublist_of` s.
Proof.
  unfold strip. set (a := lstrip s).
  destruct (lstrip_suffix (rev a)) as [p Hp].
  assert (Ha : a = rev (lstrip (rev a)) ++ rev p).
  { rewrite <- (rev_involutive a) at 1. rewrite Hp at 1. by rewrite rev_app_distr. }
  transitivity a; [|apply lstrip_sublist].
  rewrite Ha at 2. apply sublist_inserts_r. reflexivity.
Qed.

End StripFacts.

(** ** [int] *)
Section IntLimit.
Import PyStr Billboard.
Context {RT : Runtime}.

Lemma too_many_digits_short (digits : pystr) :
  (length digits <= 640)%nat -> too_many_digits digits = false.
Proof.
  intros Hl. unfold too_many_digits.
  destruct int_max_str_digits_min as [E|E].
  - rewrite E. reflexivity.
  - apply andb_false_iff. right. apply Nat.ltb_ge.
    etransitivity; [apply length_filter|lia].
Qed.

End IntLimit.

Section IntFacts.
Import PyStr Billboard.
Context {RT : Runtime}.

Lemma parse_digits_ascii (acc : Z) (after_digit : bool) (s : pystr) :
  forallb is_ascii s = true ->
  parse_digits acc after_digit s = parse_digits (RT := ascii_runtime) acc after_digit s.
Proof.
  revert acc after_digit. induction s as [|c s IH]; intros acc after_digit Hs; [reflexivity|].
  cbn [forallb] in Hs. apply andb_true_iff in Hs as [Hc Hs].
  cbn [parse_digits]. rewrite (unicode_decimal_ascii c Hc).
  change (unicode_decimal (Runtime := ascii_runtime) c) with (ascii_decimal c).
  destruct (c =? 95)%N; [destruct after_digit; [by apply IH|reflexivity]|].
  destruct (ascii_decimal c); [by apply IH|reflexivity].
Qed.

Lemma int_of_digits_ascii (digits : pystr) :
  forallb is_ascii digits = true -> (length digits <= 640)%nat ->
  int_of_digits digits = int_of_digits (RT := ascii_runtime) digits.
Proof.
  intros Ha Hl. unfold int_of_digits.
  rewrite (parse_digits_ascii 0 false digits Ha), (too_many_digits_short digits Hl),
    (too_many_digits_short (RT := ascii_runtime) digits Hl).
  reflexivity.
Qed.

(** On ASCII text of at most 640 characters [int] reads the ASCII digits,
    whatever the runtime. *)
Lemma py_int_ascii (s : pystr) :
  forallb is_ascii s = true -> (length s <= 640)%nat ->
  py_int s = py_int (RT := ascii_runtime) s.
Proof.
  intros Hs Hl. unfold py_int.
  pose proof (sublist_length _ _ (strip_sublist s)) as Hsl.
  assert (Ha : forallb is_ascii (strip s) = true).
  { apply forallb_forall. intros c Hc. rewrite forallb_forall in Hs. apply Hs.
    apply list_elem_of_In. apply list_elem_of_In in Hc.
    eapply elem_of_sublist; [exact Hc|apply strip_sublist]. }
  destruct (strip s) as [|c digits]; [reflexivity|].
  cbn [length] in Hsl.
  pose proof Ha as Hcd. cbn [forallb] in Ha. apply andb_true_iff in Ha as [Hc Hd].
  rewrite (int_of_digits_ascii digits Hd) by lia.
  rewrite (int_of_digits_ascii (c :: digits) Hcd) by (cbn [length]; lia).
  reflexivity.
Qed.

(** A digit of another script is read by its decimal value: U+0663, the
    Arabic-Indic digit three. *)
Lemma py_int_other_script :
  unicode_decimal 1635 = Some 3 -> py_int [1635%N] = Some 3.
Proof.
  intros H. unfold py_int.
  change (strip [1635%N]) with [1635%N].
  change (1635 =? 45)%N with false. change (1635 =? 43)%N with false.
  unfold int_of_digits. cbn [parse_digits]. change (1635 =? 95)%N with false.
  rewrite H. cbn [mbind option_bind]. rewrite too_many_digits_short; [reflexivity|].
  cbn [length]. lia.
Qed.

End IntFacts.

(** ** The Billboard spider: the sequence of requests *)
Section SpiderFacts.
Import PyStr Billboard.
Context {RT : Runtime}.

Lemma parse_advanced (d : pydate) (page : response) :
  advanced (parse d page) =
  if parses page
  then Some (add_week d,
             if date_leb (add_week d) ENDING_DATE then Some (chart_url (add_week d)) else None)
  else None.
Proof.
  unfold parses, parse.
  destruct (tagline page); [|reflexivity].
  destruct (hot100 page); [reflexivity|].
  destruct (load_first _ _); [|reflexivity].
  destruct (load_others _ _).2; reflexivity.
Qed.

Lemma crawl_fetched (pages : list response) (d : pydate) :
  exists ds, ds ≠ []
             /\ ds `prefix_of` weeks_until (length pages) d
             /\ fetched (crawl pages d (chart_url d)) = map chart_url ds
             /\ (forallb parses pages = true -> ds = weeks_until (length pages) d).
Proof.
  revert d. induction pages as [|page pages IH]; intros d.
  - exists [d]. split; [discriminate|]. split; [reflexivity|]. split; reflexivity.
  - cbn [crawl length weeks_until forallb]. rewrite parse_advanced.
    destruct (parses page).
    + destruct (date_leb (add_week d) ENDING_DATE).
      * destruct (IH (add_week d)) as (ds & Hne & Hp & Hf & Hall).
        exists (d :: ds). split; [discriminate|].
        split; [by apply prefix_cons|].
        split; [simpl; by rewrite Hf|].
        intros H. simpl in H. by rewrite (Hall H).
      * exists [d]. split; [discriminate|]. split; [reflexivity|]. split; reflexivity.
    + exists [d]. split; [discriminate|].
      split; [apply prefix_cons, prefix_nil|]. split; [reflexivity|].
      intros H. simpl in H. discriminate H.
Qed.

Lemma weeks_until_prefix (n m : nat) (d : pydate) :
  weeks_until n d `prefix_of` weeks_until (n + m) d.
Proof.
  revert d. induction n as [|n IH]; intros d.
  - destruct m; apply prefix_cons, prefix_nil.
  - cbn [weeks_until Nat.add]. apply prefix_cons.
    destruct (date_leb (add_week d) ENDING_DATE); [apply IH|reflexivity].
Qed.

Lemma weeks_until_stable (n m : nat) (d : pydate) :
  (length (weeks_until n d) <= n)%nat -> weeks_until (n + m) d = weeks_until n d.
Proof.
  revert d. induction n as [|n IH]; intros d H.
  - simpl in H. lia.
  - cbn [weeks_until Nat.add] in *.
    destruct (date_leb (add_week d) ENDING_DATE); [|reflexivity].
    f_equal. apply IH. simpl in H. lia.
Qed.

(** The weekly dates from the start date to the ending date. *)
Lemma weeks_until_start : weeks_until 3383 START_DATE = week_seq N_CHARTS START_DATE.
Proof. vm_compute. reflexivity. Qed.

Lemma week_seq_length (n : nat) (d : pydate) : length (week_seq n d) = n.
Proof. revert d. induction n as [|n IH]; intros d; simpl; [reflexivity|by rewrite IH]. Qed.

Lemma weeks_until_start_ge (n : nat) :
  (3382 <= n)%nat -> weeks_until n START_DATE = week_seq N_CHARTS START_DATE.
Proof.
  intros H. destruct (decide (n = 3382%nat)) as [->|Hne].
  - vm_compute. reflexivity.
  - replace n with (3383 + (n - 3383))%nat by lia.
    rewrite weeks_until_stable; [exact weeks_until_start|].
    rewrite weeks_until_start, week_seq_length. unfold N_CHARTS. lia.
Qed.

Lemma weeks_until_start_prefix (n : nat) :
  weeks_until n START_DATE `prefix_of` week_seq N_CHARTS START_DATE.
Proof.
  rewrite <- (weeks_until_start_ge (n + 3382)) by lia.
  apply weeks_until_prefix.
Qed.

Lemma week_seq_ordinals :
  map toordinal (week_seq N_CHARTS START_DATE) =
  map (fun k => toordinal START_DATE + 7 * Z.of_nat k) (seq 0 N_CHARTS).
Proof. vm_compute. reflexivity. Qed.

Lemma week_seq_NoDup : NoDup (week_seq N_CHARTS START_DATE).
Proof.
  apply (NoDup_fmap_1 toordinal).
  assert (E : toordinal <$> week_seq N_CHARTS START_DATE =
              (fun k => toordinal START_DATE + 7 * Z.of_nat k) <$> seq 0 N_CHARTS)
    by (vm_compute; reflexivity).
  rewrite E. apply NoDup_fmap_2; [|apply NoDup_seq].
  intros j k H. lia.
Qed.

Lemma week_seq_before_end :
  Forall (fun d => date_leb d ENDING_DATE = true) (week_seq N_CHARTS START_DATE).
Proof.
  apply Forall_forall. intros d Hd. apply list_elem_of_In in Hd. revert d Hd.
  apply forallb_forall. vm_compute. reflexivity.
Qed.

Lemma forallb_repeat {A} (f : A -> bool) (x : A) (n : nat) :
  f x = true -> forallb f (repeat x n) = true.
Proof. intros H. induction n as [|n IH]; simpl; [reflexivity|by rewrite H, IH]. Qed.

(** C5: [parse] advances the spider's date by one week and asks for the
    chart of the new date only when it is not after the ending date.  The
    URLs a crawl requests are those of an initial part of the 3383 weekly
    dates that start on 1958-08-02, each 7 days after the one before, none
    twice and none after 2023-05-27, the last of them; when every page is
    parsed to its end the crawl requests all of them, in order. *)
Theorem spider_requests_weekly :
  (forall d page d' next,
     advanced (parse d page) = Some (d', next) ->
     d' = add_week d
     /\ next = if date_leb d' ENDING_DATE then Some (chart_url d') else None)
  /\ (forall pages,
        exists ds, ds ≠ []
          /\ ds `prefix_of` week_seq N_CHARTS START_DATE
          /\ fetched (run_spider pages) = map chart_url ds)
  /\ (forall pages,
        (3382 <= length pages)%nat -> forallb parses pages = true ->
        fetched (run_spider pages) = map chart_url (week_seq N_CHARTS START_DATE))
  /\ head (week_seq N_CHARTS START_DATE) = Some START_DATE
  /\ last (week_seq N_CHARTS START_DATE) = Some ENDING_DATE
  /\ map toordinal (week_seq N_CHARTS START_DATE) =
     map (fun k => toordinal START_DATE + 7 * Z.of_nat k) (seq 0 N_CHARTS)
  /\ NoDup (week_seq N_CHARTS START_DATE)
  /\ Forall (fun d => date_leb d ENDING_DATE = true) (week_seq N_CHARTS START_DATE)
  /\ date_leb (add_week ENDING_DATE) ENDING_DATE = false.
Proof.
  split.
  { intros d page d' next H. rewrite parse_advanced in H.
    destruct (parses page); [|discriminate H].
    injection H as <- <-. split; reflexivity. }
  split.
  { intros pages. unfold run_spider.
    destruct (crawl_fetched pages START_DATE) as (ds & Hne & Hp & Hf & _).
    exists ds. split; [exact Hne|]. split; [|exact Hf].
    etrans; [exact Hp|]. apply weeks_until_start_prefix. }
  split.
  { intros pages Hlen Hall. unfold run_spider.
    destruct (crawl_fetched pages START_DATE) as (ds & _ & _ & Hf & Heq).
    rewrite Hf, (Heq Hall). by rewrite weeks_until_start_ge. }
  split; [reflexivity|].
  split; [vm_compute; reflexivity|].
  split; [apply week_seq_ordinals|].
  split; [apply week_seq_NoDup|].
  split; [apply week_seq_before_end|].
  vm_compute. reflexivity.
Qed.

End SpiderFacts.

Section SpiderExamples.
Import PyStr Billboard Samples.
#[local] Existing Instance ascii_runtime.

Lemma spider_requests_weekly_witness :
  fetched (run_spider (repeat good_page 3382)) =
  map chart_url (week_seq N_CHARTS START_DATE)
  /\ advanced (parse START_DATE good_page) =
     Some ({| year := 1958; month := 8; day := 9 |},
           Some (u "https://www.billboard.com/charts/hot-100/1958-08-09")).
Proof.
  destruct spider_requests_weekly as (H1 & _ & H3 & _).
  split.
  - apply (H3 (repeat good_page 3382)).
    + rewrite repeat_length. lia.
    + apply forallb_repeat. vm_compute. reflexivity.
  - destruct (H1 START_DATE good_page (add_week START_DATE)
                (Some (chart_url (add_week START_DATE))) eq_refl) as [_ _].
    vm_compute. reflexivity.
Defined.

End SpiderExamples.

(** ** The item loader: the fields of a chart-row record *)
Section LoaderFacts.
Import PyStr Billboard.
Context {RT : Runtime}.

Lemma mapM_st (texts : list pystr) :
  mapM st (map VStr texts) = Some (map (fun t => VStr (strip t)) texts).
Proof.
  induction texts as [|t texts IH]; [reflexivity|].
  simpl. rewrite IH. reflexivity.
Qed.

Lemma add_values_collected field values l l' :
  add_values field values l = Some l' ->
  exists processed,
    input_processor field values = Some processed
    /\ collected l' field = collected l field ++ processed
    /\ (forall g, g ≠ field -> collected l' g = collected l g).
Proof.
  unfold add_values. destruct (input_processor field values) as [processed|]; [|discriminate].
  simpl. intros H. exists processed. split; [reflexivity|].
  destruct processed as [|v processed].
  - injection H as <-. split; [by rewrite app_nil_r|reflexivity].
  - injection H as <-. unfold collected, loader_values in *. split.
    + by rewrite lookup_insert_eq.
    + intros g Hg. by rewrite lookup_insert_ne.
Qed.

Lemma load_item_lookup l it field :
  load_item l = Some it -> it !! field = take_first (collected l field).
Proof.
  unfold load_item. case_bool_decide as Hd; [|discriminate]. intros H. injection H as <-.
  unfold collected, loader_values, item in *.
  rewrite lookup_omap. destruct (l !! field); reflexivity.
Qed.

Lemma load_item_dom l it :
  load_item l = Some it -> dom it ⊆ (list_to_set FIELDS : gset string).
Proof.
  unfold load_item. case_bool_decide as Hd; [|discriminate]. intros H. by injection H as <-.
Qed.

(** The input processors on one scraped text. *)
Lemma input_int_field field (t : pystr) :
  field = "pos"%string \/ field = "peak_pos"%string \/ field = "wks_on_chart"%string ->
  input_processor field [VStr t] = (n ← py_int (strip t); Some [VInt n]).
Proof.
  intros [-> | [-> | ->]]; unfold input_processor; simpl; unfold map_compose; simpl;
    destruct (py_int (strip t)); reflexivity.
Qed.

Lemma input_last_week (t : pystr) :
  input_processor "last_week" [VStr t] =
  if bool_decide (strip t = DASH) then Some [VNaN]
  else n ← py_int (strip t); Some [VInt n].
Proof.
  unfold input_processor; simpl; unfold map_compose; simpl. unfold int_or_nan.
  destruct (decide (strip t = DASH)) as [E|E].
  - rewrite E. reflexivity.
  - rewrite !bool_decide_eq_false_2; [|exact E|congruence].
    simpl. destruct (py_int (strip t)); reflexivity.
Qed.

Lemma input_text_field field (texts : list pystr) :
  field = "artist"%string \/ field = "song"%string ->
  input_processor field (map VStr texts) = Some (map (fun t => VStr (strip t)) texts).
Proof.
  intros [-> | ->]; unfold input_processor; simpl; unfold map_compose; simpl;
    apply mapM_st.
Qed.

Lemma input_pos_texts (texts : list pystr) :
  input_processor "pos" (map VStr texts) =
  mapM (fun t => VInt <$> py_int (strip t)) texts.
Proof.
  unfold input_processor; simpl; unfold map_compose; simpl. rewrite mapM_st. simpl.
  induction texts as [|t texts IH]; [reflexivity|].
  simpl. rewrite IH. reflexivity.
Qed.

Lemma input_date d : input_processor "date" [VDate d] = Some [VDate d].
Proof. reflexivity. Qed.

Lemma stat_text_some hot_stats i v :
  stat_text hot_stats i = Some v -> exists t, hot_stats !! i = Some t /\ v = VStr t.
Proof.
  unfold stat_text. destruct (hot_stats !! i) as [t|]; [|discriminate].
  simpl. intros H. injection H as <-. eauto.
Qed.

Lemma int_processed (t : pystr) processed :
  (n ← py_int (strip t); Some [VInt n]) = Some processed ->
  exists n, py_int (strip t) = Some n /\ processed = [VInt n].
Proof.
  destruct (py_int (strip t)) as [n|]; [|discriminate].
  simpl. intros H. injection H as <-. eauto.
Qed.

Lemma last_week_processed (t : pystr) processed :
  (if bool_decide (strip t = DASH) then Some [VNaN]
   else n ← py_int (strip t); Some [VInt n]) = Some processed ->
  (strip t = DASH -> processed = [VNaN])
  /\ (strip t ≠ DASH -> exists n, py_int (strip t) = Some n /\ processed = [VInt n]).
Proof.
  case_bool_decide as E; intros H.
  - injection H as <-. split; [reflexivity|]. intros Hn. contradiction.
  - split; [intros He; contradiction|]. intros _. by apply int_processed.
Qed.

Lemma take_first_int n : take_first [VInt n] = Some (VInt n).
Proof. reflexivity. Qed.

Ltac loader_step H l x Hp Hf Hs :=
  apply bind_Some in H as (l & Hp & H);
  apply add_values_collected in Hp as (x & Hp & Hf & Hs).

Ltac stat_step H t Ht :=
  let v := fresh "v" in
  let Hv := fresh "Hv" in
  apply bind_Some in H as (v & Hv & H);
  apply stat_text_some in Hv as (t & Ht & ->).

Lemma load_first_fields hot_date hot1 it :
  load_first hot_date hot1 = Some it ->
  dom it ⊆ (list_to_set FIELDS : gset string)
  /\ it !! "date"%string = Some (VDate hot_date)
  /\ (exists t, bold_l hot1 !! 0%nat = Some t /\ int_field it "pos" t)
  /\ text_field it "artist" (no_trucate hot1)
  /\ text_field it "song" (h3 hot1)
  /\ (exists t, bold_l hot1 !! 1%nat = Some t /\ last_week_field it t)
  /\ (exists t, bold_l hot1 !! 2%nat = Some t /\ int_field it "peak_pos" t)
  /\ (exists t, bold_l hot1 !! 3%nat = Some t /\ int_field it "wks_on_chart" t).
Proof.
  unfold load_first, add_value, add_css. intros H.
  loader_step H l1 x1 P1 F1 S1.
  stat_step H t0 T0. loader_step H l2 x2 P2 F2 S2.
  loader_step H l3 x3 P3 F3 S3.
  loader_step H l4 x4 P4 F4 S4.
  stat_step H t1 T1. loader_step H l5 x5 P5 F5 S5.
  stat_step H t2 T2. loader_step H l6 x6 P6 F6 S6.
  stat_step H t3 T3. loader_step H l7 x7 P7 F7 S7.
  rewrite input_date in P1. injection P1 as <-.
  rewrite input_int_field in P2 by tauto. apply int_processed in P2 as (n0 & N0 & ->).
  rewrite input_text_field in P3 by tauto. injection P3 as <-.
  rewrite input_text_field in P4 by tauto. injection P4 as <-.
  rewrite input_last_week in P5. apply last_week_processed in P5 as [D5 I5].
  rewrite input_int_field in P6 by tauto. apply int_processed in P6 as (n2 & N2 & ->).
  rewrite input_int_field in P7 by tauto. apply int_processed in P7 as (n3 & N3 & ->).
  assert (E0 : forall g, collected (∅ : loader_values) g = []) by reflexivity.
  assert (L : forall g, it !! g = take_first (collected l7 g))
    by (intros g; by apply load_item_lookup).
  assert (Ldate : it !! "date"%string = Some (VDate hot_date)).
  { rewrite L, S7, S6, S5, S4, S3, S2, F1, E0 by discriminate. reflexivity. }
  assert (Lpos : it !! "pos"%string = Some (VInt n0)).
  { rewrite L, S7, S6, S5, S4, S3, F2, S1, E0 by discriminate. reflexivity. }
  assert (Lartist : text_field it "artist" (no_trucate hot1)).
  { unfold text_field. rewrite L, S7, S6, S5, S4, F3, S2, S1, E0 by discriminate.
    reflexivity. }
  assert (Lsong : text_field it "song" (h3 hot1)).
  { unfold text_field. rewrite L, S7, S6, S5, F4, S3, S2, S1, E0 by discriminate.
    reflexivity. }
  assert (Llw : it !! "last_week"%string = take_first x5).
  { rewrite L, S7, S6, F5, S4, S3, S2, S1, E0 by discriminate. reflexivity. }
  assert (Lpeak : it !! "peak_pos"%string = Some (VInt n2)).
  { rewrite L, S7, F6, S5, S4, S3, S2, S1, E0 by discriminate. reflexivity. }
  assert (Lwks : it !! "wks_on_chart"%string = Some (VInt n3)).
  { rewrite L, F7, S6, S5, S4, S3, S2, S1, E0 by discriminate. reflexivity. }
  split; [by eapply load_item_dom|].
  unfold last_week_field, int_field.
  split; [exact Ldate|]. split; [eauto|]. split; [exact Lartist|]. split; [exact Lsong|].
  split.
  { exists t1. split; [exact T1|]. split.
    - intros E. rewrite Llw, (D5 E). reflexivity.
    - intros E. destruct (I5 E) as (n1 & N1 & ->). rewrite Llw. eauto. }
  split; eauto.
Qed.

Lemma take_first_ints (texts : list pystr) vs :
  mapM (fun t => VInt <$> py_int (strip t)) texts = Some vs ->
  take_first vs = head vs
  /\ length vs = length texts
  /\ (forall v, v ∈ vs -> exists t n, t ∈ texts /\ py_int (strip t) = Some n /\ v = VInt n).
Proof.
  revert vs. induction texts as [|t texts IH]; intros vs H.
  - injection H as <-. split; [reflexivity|]. split; [reflexivity|].
    intros v Hv. apply elem_of_nil in Hv. contradiction.
  - simpl in H. destruct (py_int (strip t)) as [n|] eqn:N; [|discriminate H].
    simpl in H.
    destruct (mapM (fun t => VInt <$> py_int (strip t)) texts) as [vs'|]; [|discriminate H].
    simpl in H. injection H as <-.
    destruct (IH vs' eq_refl) as (_ & Hl & Hin).
    split; [reflexivity|]. split; [simpl; by rewrite Hl|].
    intros v Hv. apply elem_of_cons in Hv. destruct Hv as [->|Hv].
    + exists t, n. split; [left|]. split; [exact N|reflexivity].
    + destruct (Hin v Hv) as (t' & n' & Ht' & Hn' & ->).
      exists t', n'. split; [by right|]. split; [exact Hn'|reflexivity].
Qed.

Lemma load_other_fields hot_date hot it :
  load_other hot_date hot = Some it ->
  dom it ⊆ (list_to_set FIELDS : gset string)
  /\ it !! "date"%string = Some (VDate hot_date)
  /\ (exists vs, mapM (fun t => VInt <$> py_int (strip t)) (bold_l hot) = Some vs
                 /\ it !! "pos"%string = head vs)
  /\ text_field it "artist" (no_trucate hot)
  /\ text_field it "song" (h3 hot)
  /\ (exists t, primary_m hot !! 0%nat = Some t /\ last_week_field it t)
  /\ (exists t, primary_m hot !! 1%nat = Some t /\ int_field it "peak_pos" t)
  /\ (exists t, primary_m hot !! 2%nat = Some t /\ int_field it "wks_on_chart" t).
Proof.
  unfold load_other, add_value, add_css. intros H.
  loader_step H l1 x1 P1 F1 S1.
  loader_step H l2 x2 P2 F2 S2.
  loader_step H l3 x3 P3 F3 S3.
  loader_step H l4 x4 P4 F4 S4.
  stat_step H t1 T1. loader_step H l5 x5 P5 F5 S5.
  stat_step H t2 T2. loader_step H l6 x6 P6 F6 S6.
  stat_step H t3 T3. loader_step H l7 x7 P7 F7 S7.
  rewrite input_date in P1. injection P1 as <-.
  rewrite input_pos_texts in P2.
  rewrite input_text_field in P3 by tauto. injection P3 as <-.
  rewrite input_text_field in P4 by tauto. injection P4 as <-.
  rewrite input_last_week in P5. apply last_week_processed in P5 as [D5 I5].
  rewrite input_int_field in P6 by tauto. apply int_processed in P6 as (n2 & N2 & ->).
  rewrite input_int_field in P7 by tauto. apply int_processed in P7 as (n3 & N3 & ->).
  assert (E0 : forall g, collected (∅ : loader_values) g = []) by reflexivity.
  assert (L : forall g, it !! g = take_first (collected l7 g))
    by (intros g; by apply load_item_lookup).
  assert (Ldate : it !! "date"%string = Some (VDate hot_date)).
  { rewrite L, S7, S6, S5, S4, S3, S2, F1, E0 by discriminate. reflexivity. }
  assert (Lpos : it !! "pos"%string = head x2).
  { rewrite L, S7, S6, S5, S4, S3, F2, S1, E0 by discriminate. simpl.
    by apply take_first_ints in P2 as [-> _]. }
  assert (Lartist : text_field it "artist" (no_trucate hot)).
  { unfold text_field. rewrite L, S7, S6, S5, S4, F3, S2, S1, E0 by discriminate.
    reflexivity. }
  assert (Lsong : text_field it "song" (h3 hot)).
  { unfold text_field. rewrite L, S7, S6, S5, F4, S3, S2, S1, E0 by discriminate.
    reflexivity. }
  assert (Llw : it !! "last_week"%string = take_first x5).
  { rewrite L, S7, S6, F5, S4, S3, S2, S1, E0 by discriminate. reflexivity. }
  assert (Lpeak : it !! "peak_pos"%string = Some (VInt n2)).
  { rewrite L, S7, F6, S5, S4, S3, S2, S1, E0 by discriminate. reflexivity. }
  assert (Lwks : it !! "wks_on_chart"%string = Some (VInt n3)).
  { rewrite L, F7, S6, S5, S4, S3, S2, S1, E0 by discriminate. reflexivity. }
  split; [by eapply load_item_dom|].
  unfold last_week_field, int_field.
  split; [exact Ldate|]. split; [eauto|]. split; [exact Lartist|]. split; [exact Lsong|].
  split.
  { exists t1. split; [exact T1|]. split.
    - intros E. rewrite Llw, (D5 E). reflexivity.
    - intros E. destruct (I5 E) as (n1 & N1 & ->). rewrite Llw. eauto. }
  split; eauto.
Qed.

Lemma load_others_elem hot_date rows it :
  it ∈ (load_others hot_date rows).1 ->
  exists hot, hot ∈ rows /\ load_other hot_date hot = Some it.
Proof.
  induction rows as [|hot rows IH]; simpl.
  - intros H. apply elem_of_nil in H. contradiction.
  - destruct (load_other hot_date hot) as [it'|] eqn:E; simpl.
    + intros H. apply elem_of_cons in H. destruct H as [->|H].
      * exists hot. split; [left|exact E].
      * destruct (IH H) as (hot' & Hin & Hl). exists hot'. split; [by right|exact Hl].
    + intros H. apply elem_of_nil in H. contradiction.
Qed.

Lemma parse_yielded d page it :
  it ∈ yielded (parse d page) ->
  exists hot_date hot,
    tagline page = Some hot_date /\ hot ∈ hot100 page
    /\ (load_first hot_date hot = Some it \/ load_other hot_date hot = Some it).
Proof.
  unfold parse. destruct (tagline page) as [hot_date|]; simpl;
    [|intros H; apply elem_of_nil in H; contradiction].
  destruct (hot100 page) as [|hot1 others]; simpl;
    [intros H; apply elem_of_nil in H; contradiction|].
  destruct (load_first hot_date hot1) as [it1|] eqn:E1; simpl;
    [|intros H; apply elem_of_nil in H; contradiction].
  assert (G : it ∈ it1 :: (load_others hot_date others).1 ->
              exists hd hot, Some hot_date = Some hd /\ hot ∈ hot1 :: others
                /\ (load_first hd hot = Some it \/ load_other hd hot = Some it)).
  { intros H. apply elem_of_cons in H. destruct H as [->|H].
    - exists hot_date, hot1. split; [reflexivity|]. split; [left|]. left. exact E1.
    - apply load_others_elem in H as (hot & Hin & Hl).
      exists hot_date, hot. split; [reflexivity|]. split; [by right|]. by right. }
  destruct (load_others hot_date others).2; exact G.
Qed.

Lemma all_fields_dom (it : item) :
  dom it ⊆ (list_to_set FIELDS : gset string) ->
  (forall f, f ∈ FIELDS -> is_Some (it !! f)) ->
  dom it = (list_to_set FIELDS : gset string).
Proof.
  intros Hsub Hall. apply set_eq. intros f. split; [apply Hsub|].
  intros Hf. apply elem_of_list_to_set in Hf. apply elem_of_dom, Hall, Hf.
Qed.

Lemma head_ints_some (texts : list pystr) vs :
  mapM (fun t => VInt <$> py_int (strip t)) texts = Some vs ->
  is_Some (head vs) <-> texts ≠ [].
Proof.
  intros H. apply take_first_ints in H as (_ & Hl & _).
  destruct vs, texts; simpl in *; try discriminate Hl.
  - split; [intros [? ?]; discriminate|intros ?; contradiction].
  - split; [intros _; discriminate|intros _; eauto].
Qed.

(** C6, as the code has it: every record the crawl yields comes from one
    row of the page and has no field outside the seven declared ones.  The
    date is the chart date; the position, the peak position and the weeks on
    chart are integers read from whitespace-stripped text; the last-week
    position is NaN exactly when the whitespace-stripped text is '-' and the
    integer read from the stripped text otherwise; the artist and the song
    are the first scraped text that is not empty after stripping.  A field
    with no such text is left out, so the record has all seven fields
    exactly when the artist and the song (and, for positions 2-100, the
    position) have one. *)
Theorem chart_row_record_fields :
  (forall d page it,
     it ∈ yielded (parse d page) ->
     exists hot_date hot,
       tagline page = Some hot_date /\ hot ∈ hot100 page
       /\ (load_first hot_date hot = Some it \/ load_other hot_date hot = Some it))
  /\ (forall hot_date hot1 it,
        load_first hot_date hot1 = Some it ->
        dom it ⊆ (list_to_set FIELDS : gset string)
        /\ it !! "date"%string = Some (VDate hot_date)
        /\ (exists t, bold_l hot1 !! 0%nat = Some t /\ int_field it "pos" t)
        /\ text_field it "artist" (no_trucate hot1)
        /\ text_field it "song" (h3 hot1)
        /\ (exists t, bold_l hot1 !! 1%nat = Some t /\ last_week_field it t)
        /\ (exists t, bold_l hot1 !! 2%nat = Some t /\ int_field it "peak_pos" t)
        /\ (exists t, bold_l hot1 !! 3%nat = Some t /\ int_field it "wks_on_chart" t)
        /\ (dom it = (list_to_set FIELDS : gset string) <->
            is_Some (it !! "artist"%string) /\ is_Some (it !! "song"%string)))
  /\ (forall hot_date hot it,
        load_other hot_date hot = Some it ->
        dom it ⊆ (list_to_set FIELDS : gset string)
        /\ it !! "date"%string = Some (VDate hot_date)
        /\ (exists vs, mapM (fun t => VInt <$> py_int (strip t)) (bold_l hot) = Some vs
                       /\ it !! "pos"%string = head vs)
        /\ text_field it "artist" (no_trucate hot)
        /\ text_field it "song" (h3 hot)
        /\ (exists t, primary_m hot !! 0%nat = Some t /\ last_week_field it t)
        /\ (exists t, primary_m hot !! 1%nat = Some t /\ int_field it "peak_pos" t)
        /\ (exists t, primary_m hot !! 2%nat = Some t /\ int_field it "wks_on_chart" t)
        /\ (dom it = (list_to_set FIELDS : gset string) <->
            bold_l hot ≠ [] /\ is_Some (it !! "artist"%string)
            /\ is_Some (it !! "song"%string))).
Proof.
  assert (Hlw : forall (it : item) t, last_week_field it t -> is_Some (it !! "last_week"%string)).
  { intros it t [Hd Hi]. destruct (decide (strip t = DASH)) as [E|E].
    - rewrite (Hd E). eauto.
    - destruct (Hi E) as (n & _ & ->). eauto. }
  assert (Hint : forall (it : item) f t, int_field it f t -> is_Some (it !! f)).
  { intros it f t (n & _ & ->). eauto. }
  assert (Hdom : forall (it : item) f,
            dom it = (list_to_set FIELDS : gset string) -> f ∈ FIELDS -> is_Some (it !! f)).
  { unfold item. intros it f E Hf. apply elem_of_dom. rewrite E.
    by apply elem_of_list_to_set. }
  split; [exact parse_yielded|]. split.
  - intros hot_date hot1 it H.
    destruct (load_first_fields _ _ _ H)
      as (Hsub & Hdate & (t0 & T0 & Hpos) & Hart & Hsong & (t1 & T1 & Hl)
          & (t2 & T2 & Hpk) & (t3 & T3 & Hwk)).
    repeat (split; [by eauto|]). split.
    + intros E. split; apply (Hdom it _ E), list_elem_of_In; simpl; tauto.
    + intros [Ha Hs]. apply all_fields_dom; [exact Hsub|].
      intros f Hf. unfold FIELDS in Hf.
      repeat (apply elem_of_cons in Hf; destruct Hf as [->|Hf]);
        try (apply elem_of_nil in Hf; contradiction);
        try (rewrite Hdate; eauto; fail); eauto.
  - intros hot_date hot it H.
    destruct (load_other_fields _ _ _ H)
      as (Hsub & Hdate & (vs & Hvs & Hpos) & Hart & Hsong & (t1 & T1 & Hl)
          & (t2 & T2 & Hpk) & (t3 & T3 & Hwk)).
    repeat (split; [by eauto|]). split.
    + intros E.
      split; [|split; apply (Hdom it _ E), list_elem_of_In; simpl; tauto].
      apply (head_ints_some _ _ Hvs). rewrite <- Hpos.
      apply (Hdom it _ E), list_elem_of_In; simpl; tauto.
    + intros (Hb & Ha & Hs). apply all_fields_dom; [exact Hsub|].
      intros f Hf. unfold FIELDS in Hf.
      repeat (apply elem_of_cons in Hf; destruct Hf as [->|Hf]);
        try (apply elem_of_nil in Hf; contradiction);
        try (rewrite Hdate; eauto; fail);
        try (rewrite Hpos; by apply (head_ints_some _ _ Hvs)); eauto.
Qed.

End LoaderFacts.

Section LoaderExamples.
Import PyStr Billboard Samples.
#[local] Existing Instance ascii_runtime.

(** C6 as the claim states it fails on a row whose title is blank: the
    record has no song field; and the last-week position of that record is
    NaN although the scraped text is not the dash alone. *)
Lemma untitled_row_record :
  exists it,
    yielded (parse START_DATE untitled_page) !! 1%nat = Some it
    /\ it !! "song"%string = None
    /\ dom it ≠ (list_to_set FIELDS : gset string)
    /\ primary_m untitled_row !! 0%nat = Some (u " - ")
    /\ u " - " ≠ DASH
    /\ it !! "last_week"%string = Some VNaN.
Proof.
  assert (E : exists it, yielded (parse START_DATE untitled_page) !! 1%nat = Some it
                         /\ load_other START_DATE untitled_row = Some it)
    by (eexists; split; vm_compute; reflexivity).
  destruct E as (it & Hy & E). exists it.
  destruct (load_other_fields _ _ _ E)
    as (_ & _ & _ & _ & Hsong & (t1 & T1 & Hl & _) & _).
  assert (Hnone : it !! "song"%string = None) by (rewrite Hsong; vm_compute; reflexivity).
  split; [exact Hy|]. split; [exact Hnone|]. split.
  { unfold item in *. intros Hd.
    assert (Hin : "song"%string ∈ dom it).
    { rewrite Hd. apply elem_of_list_to_set, list_elem_of_In. simpl. tauto. }
    apply elem_of_dom in Hin. rewrite Hnone in Hin. destruct Hin as [? ?]. discriminate. }
  split; [reflexivity|]. split; [vm_compute; discriminate|].
  injection T1 as <-. apply Hl. vm_compute. reflexivity.
Qed.

Lemma chart_row_record_fields_witness :
  exists it,
    load_first START_DATE first_row = Some it
    /\ it !! "date"%string = Some (VDate START_DATE)
    /\ it !! "last_week"%string = Some VNaN
    /\ dom it = (list_to_set FIELDS : gset string).
Proof.
  assert (E : exists it, load_first START_DATE first_row = Some it)
    by (eexists; vm_compute; reflexivity).
  destruct E as (it & E). exists it. split; [exact E|].
  destruct chart_row_record_fields as (_ & H & _).
  destruct (H START_DATE first_row it E)
    as (_ & Hdate & _ & Hart & Hsong & (t1 & T1 & Hl & _) & _ & _ & Hall).
  split; [exact Hdate|]. split.
  - injection T1 as <-. apply Hl. vm_compute. reflexivity.
  - apply Hall. rewrite Hart, Hsong. split; vm_compute; eauto.
Defined.

End LoaderExamples.

(** ** [genres_popul] *)
Section GenresFacts.
Import PyStr Np Float64 Genres.

Lemma lookup_label_map {A} (f : Z -> A) (L : list Z) (y : Z) :
  lookup_label y (map (fun b => (b, f b)) L) = if decide (y ∈ L) then Some (f y) else None.
Proof.
  unfold lookup_label. induction L as [|b L IH]; simpl.
  - destruct (decide (y ∈ [])) as [H|H]; [by apply elem_of_nil in H|reflexivity].
  - case_bool_decide as E.
    + subst b. simpl. destruct (decide (y ∈ y :: L)) as [H|H]; [reflexivity|].
      exfalso. apply H. left.
    + rewrite IH. destruct (decide (y ∈ L)) as [H|H], (decide (y ∈ b :: L)) as [H'|H'];
        try reflexivity.
      * exfalso. apply H'. by right.
      * exfalso. apply elem_of_cons in H'. destruct H' as [->|H']; [by apply E|by apply H].
Qed.

(** The float quotient of two counts, the one at most the other, lies
    between 0 and 1. *)
Lemma float_div_unit (x n : Z) :
  0 <= x <= n -> 0 < n ->
  (0 <= float_div (float_of_int x) (float_of_int n))%Q
  /\ (float_div (float_of_int x) (float_of_int n) <= 1)%Q.
Proof.
  intros H Hn. unfold float_div, float_of_int.
  assert (Hx : (0 <= round64 (inject_Z x))%Q).
  { apply round64_nonneg. unfold Qle. simpl. lia. }
  assert (Hxn : (round64 (inject_Z x) <= round64 (inject_Z n))%Q).
  { apply round64_mono. unfold Qle. simpl. lia. }
  assert (H1 : (1 <= round64 (inject_Z n))%Q).
  { rewrite <- round64_1. apply round64_mono. unfold Qle. simpl. lia. }
  apply round64_unit.
  - apply Qle_shift_div_l; lra.
  - apply Qle_shift_div_r; lra.
Qed.

Lemma int_truediv_unit (x n : Z) :
  0 <= x <= n -> int_truediv x n = FNaN \/ in_unit_interval (int_truediv x n).
Proof.
  intros H. unfold int_truediv.
  destruct (n =? 0) eqn:E.
  - apply Z.eqb_eq in E. assert (x = 0) as -> by lia. left. reflexivity.
  - apply Z.eqb_neq in E. right. apply float_div_unit; lia.
Qed.

Lemma sorted_bounds (l : list Z) (d y : Z) :
  StronglySorted Z.lt l -> y ∈ l ->
  match l with [] => False | first :: _ => first <= y <= List.last l d end.
Proof.
  intros Hs. revert d y. induction Hs as [|z l Hs IH Hz]; intros d y Hy.
  - by apply elem_of_nil in Hy.
  - rewrite Forall_forall in Hz. apply elem_of_cons in Hy.
    destruct l as [|z' l'].
    + destruct Hy as [->|Hy]; [simpl; lia|by apply elem_of_nil in Hy].
    + assert (Hz' : z < z') by (apply Hz; left).
      change (List.last (z :: z' :: l') d) with (List.last (z' :: l') d).
      destruct Hy as [->|Hy].
      * specialize (IH d z' ltac:(left)). cbv beta iota in IH. lia.
      * specialize (IH d y Hy). cbv beta iota in IH. lia.
Qed.

Section OneSeries.
Context {A : Type} (src : series A).

Lemma labels_elem (y : Z) : y ∈ labels src <-> exists r, r ∈ src /\ r.1 = y.
Proof.
  unfold labels. rewrite elem_of_unique, list_elem_of_fmap. split.
  - intros (r & -> & Hr). eauto.
  - intros (r & Hr & <-). eauto.
Qed.

(** With a step of one year a bin holds the rows of its label. *)
Lemma bin_of_1 (y : Z) : bin_of 1 src y = y.
Proof. unfold bin_of. destruct (labels src); [reflexivity|]. rewrite Z.div_1_r. lia. Qed.

Lemma in_bin_1 (b : Z) : in_bin 1 src b = filter (fun r => r.1 = b) src.
Proof.
  unfold in_bin. apply list_filter_iff. intros r. by rewrite bin_of_1.
Qed.

Lemma labels_in_bins_1 (y : Z) : y ∈ labels src -> y ∈ bin_labels 1 src.
Proof.
  intros Hy. unfold bin_labels.
  pose proof (sorted_bounds (labels src) 0 y (unique_sorted _) Hy) as Hb.
  destruct (labels src) as [|first rest] eqn:E; [contradiction|].
  rewrite <- E in *.
  assert (Hb' : first <= y <= List.last (labels src) first).
  { pose proof (sorted_bounds (labels src) first y (unique_sorted _) Hy) as Hb2.
    rewrite E in Hb2. rewrite E. exact Hb2. }
  apply list_elem_of_fmap. exists (Z.to_nat (y - first)). split; [lia|].
  apply elem_of_seq. rewrite Z.div_1_r. lia.
Qed.

End OneSeries.

Lemma no_label_no_row {A} (src : series A) (y : Z) :
  y ∉ labels src -> filter (fun r : Z * A => r.1 = y) src = [].
Proof.
  unfold labels, series in *. rewrite elem_of_unique.
  induction src as [|r l IH]; intros Hy; [reflexivity|].
  rewrite (filter_cons _ r l). simpl in Hy. apply not_elem_of_cons in Hy as [Hne Hy].
  destruct (decide (r.1 = y)) as [E|E]; [congruence|]. apply IH, Hy.
Qed.

Section Popularity.
Variable re_search : pystr -> pystr -> option bool.
Variable pattern : pystr.

Let flag (r : Z * pystr) : Z * bool :=
  (r.1, bool_decide (re_search pattern r.2 = Some true)).

(** When no search raises, the flags are the answers. *)
Lemma apply_search_flags (src : series pystr) (flags : series bool) :
  apply_search re_search pattern src = Some flags -> flags = map flag src.
Proof.
  revert flags. induction src as [|r src IH]; intros flags H; simpl in H.
  - by injection H as <-.
  - destruct (re_search pattern r.2) as [b|] eqn:Eb; [|discriminate H].
    destruct (apply_search re_search pattern src) as [fl|]; [|discriminate H].
    injection H as <-. rewrite (IH fl eq_refl). cbn [map]. f_equal.
    unfold flag. rewrite Eb. destruct b; reflexivity.
Qed.


Lemma labels_flag (src : series pystr) : labels (map flag src) = labels src.
Proof. unfold labels. by rewrite map_map. Qed.

Lemma filter_flag_commute (f : Z -> Z) (b : Z) (l : list (Z * pystr)) :
  filter (fun r : Z * bool => f r.1 = b) (map flag l) =
  map flag (filter (fun r : Z * pystr => f r.1 = b) l).
Proof.
  induction l as [|r l IH]; [reflexivity|].
  simpl map. rewrite (filter_cons _ (flag r)), (filter_cons _ r), IH.
  simpl. destruct (decide (f r.1 = b)); reflexivity.
Qed.

Lemma in_bin_flag step (src : series pystr) b :
  in_bin step (map flag src) b = map flag (in_bin step src b).
Proof.
  unfold in_bin, bin_of. rewrite labels_flag. unfold series in *.
  destruct (labels src) as [|first rest].
  - apply (filter_flag_commute (fun y => y)).
  - apply (filter_flag_commute (fun y => first + step * ((y - first) / step))).
Qed.

Lemma filter_flag_length (rows : list (Z * pystr)) :
  length (filter (fun r : Z * bool => r.2 = true) (map flag rows)) =
  length (filter (fun r : Z * pystr => re_search pattern r.2 = Some true) rows).
Proof.
  induction rows as [|r l IH]; [reflexivity|].
  simpl map. rewrite (filter_cons _ (flag r)), (filter_cons _ r).
  assert (Hiff : (flag r).2 = true <-> re_search pattern r.2 = Some true).
  { unfold flag. cbn [snd]. apply bool_decide_eq_true. }
  destruct (decide ((flag r).2 = true)) as [E1|E1],
           (decide (re_search pattern r.2 = Some true)) as [E2|E2];
    cbn [length]; try (by rewrite IH); tauto.
Qed.

Lemma grouper_sum_flag step (src : series pystr) :
  grouper_sum step (map flag src) =
  map (fun b => (b, Z.of_nat (length (filter (fun r : Z * pystr =>
                                                re_search pattern r.2 = Some true)
                                        (in_bin step src b)))))
      (bin_labels step src).
Proof.
  unfold grouper_sum, bin_labels. rewrite labels_flag.
  apply map_ext. intros b. by rewrite in_bin_flag, filter_flag_length.
Qed.

Lemma int_truediv_ratio {B C} (m : list B) (rows : list C) :
  (length m <= length rows)%nat ->
  int_truediv (Z.of_nat (length m)) (Z.of_nat (length rows)) = ratio m rows.
Proof.
  intros H. unfold int_truediv, ratio. destruct rows as [|r rows].
  - destruct m; [reflexivity|simpl in H; lia].
  - reflexivity.
Qed.

Lemma series_div_elem (a b : series Z) y v :
  (y, v) ∈ series_div a b ->
  v = match lookup_label y a, lookup_label y b with
      | Some x, Some n => int_truediv x n
      | _, _ => FNaN
      end
  /\ (y ∈ map fst a \/ y ∈ map fst b).
Proof.
  unfold series_div. intros H. apply list_elem_of_fmap in H as (y' & E & Hy).
  injection E as -> ->. split; [reflexivity|].
  unfold union1d in Hy. apply elem_of_unique, elem_of_app in Hy. exact Hy.
Qed.

(** A value of [genre_popul] is the ratio of the matching rows of the
    period to the rows of the period, NaN when the period has no row. *)
Lemma genre_popul_value genres_src decades col y v :
  genre_popul re_search (prepare genres_src decades).1.1
    (prepare genres_src decades).2 pattern (prepare genres_src decades).1.2 = inr col ->
  (y, v) ∈ col ->
  v = ratio (filter (fun r : Z * pystr => re_search pattern r.2 = Some true)
               (in_bin (prepare genres_src decades).1.2 (prepare genres_src decades).1.1 y))
            (in_bin (prepare genres_src decades).1.2 (prepare genres_src decades).1.1 y).
Proof.
  unfold genre_popul.
  destruct (apply_search re_search pattern (prepare genres_src decades).1.1)
    as [flags|] eqn:Ef; [|discriminate].
  apply apply_search_flags in Ef. subst flags. intros E. injection E as <-.
  unfold prepare.
  set (src0 := filter (fun r : Z * pystr => r.2 ≠ EMPTY_LIST) genres_src).
  destruct decades; simpl.
  - set (src := filter (fun r : Z * pystr => 1960 ≤ r.1 ∧ r.1 < 2020) src0).
    intros H. apply series_div_elem in H as [-> Hy].
    rewrite grouper_sum_flag. unfold grouper_count.
    rewrite !lookup_label_map.
    destruct (decide (y ∈ bin_labels 10 src)) as [Hb|Hb].
    + apply int_truediv_ratio, length_filter.
    + exfalso. rewrite grouper_sum_flag in Hy. unfold grouper_count in Hy.
      rewrite !map_map in Hy. simpl in Hy. rewrite map_id in Hy. tauto.
  - intros H. apply series_div_elem in H as [-> Hy].
    rewrite grouper_sum_flag. unfold count_by_label.
    rewrite !lookup_label_map, in_bin_1.
    destruct (decide (y ∈ labels src0)) as [Hl|Hl].
    + destruct (decide (y ∈ bin_labels 1 src0)) as [Hb|Hb].
      * apply int_truediv_ratio, length_filter.
      * exfalso. by apply Hb, labels_in_bins_1.
    + rewrite (no_label_no_row src0 y Hl).
      destruct (decide (y ∈ bin_labels 1 src0)); reflexivity.
Qed.

End Popularity.

Lemma ratio_filter_unit {B} (P : B -> Prop) `{!forall x, Decision (P x)} (rows : list B) :
  (ratio (filter P rows) rows = FNaN <-> rows = [])
  /\ (ratio (filter P rows) rows = FNaN \/ in_unit_interval (ratio (filter P rows) rows)).
Proof.
  destruct rows as [|r rows]; [split; [tauto|by left]|].
  split; [split; discriminate|]. right.
  pose proof (length_filter P (r :: rows)) as Hle.
  assert (Hpos : (0 < length (r :: rows))%nat) by (simpl; lia).
  unfold ratio. cbv beta iota. unfold in_unit_interval. apply float_div_unit; lia.
Qed.


Lemma set_column_elem {A} (name : pystr) (col : A) frame n c :
  (n, c) ∈ set_column name col frame -> (n, c) = (name, col) \/ (n, c) ∈ frame.
Proof.
  induction frame as [|[n' c'] rest IH]; simpl.
  - intros H. apply list_elem_of_singleton in H. by left.
  - case_bool_decide as E.
    + intros H. apply elem_of_cons in H as [H|H]; [by left|right; by right].
    + intros H. apply elem_of_cons in H as [H|H]; [right; rewrite H; left|].
      destruct (IH H) as [?|?]; [by left|right; by right].
Qed.

Lemma evaluate_columns re_search src songs_no step genres agg frame n c :
  evaluate re_search src songs_no step genres agg = inr frame ->
  (n, c) ∈ frame ->
  (n, c) ∈ agg \/ exists pattern, genre_popul re_search src songs_no pattern step = inr c.
Proof.
  revert agg. induction genres as [|g rest IH]; intros agg H Hin.
  - injection H as <-. by left.
  - destruct g as [g|gs]; cbn [evaluate] in H.
    + destruct (genre_popul re_search src songs_no g step) as [e|col] eqn:Ec;
        [discriminate H|].
      destruct (IH _ H Hin) as [Hs|?]; [|by right].
      apply set_column_elem in Hs as [E|?]; [|by left].
      injection E as -> ->. right. eauto.
    + destruct gs as [|g0 gs']; [discriminate H|].
      destruct (genre_popul re_search src songs_no (join_bar (g0 :: gs')) step)
        as [e|col] eqn:Ec; [discriminate H|].
      destruct (IH _ H Hin) as [Hs|?]; [|by right].
      apply set_column_elem in Hs as [E|?]; [|by left].
      injection E as -> ->. right. eauto.
Qed.

Lemma genres_popul_unfold re_search genres genres_src decades :
  genres_popul re_search genres genres_src decades =
  evaluate re_search (prepare genres_src decades).1.1 (prepare genres_src decades).2
    (prepare genres_src decades).1.2 genres [].
Proof.
  unfold genres_popul. destruct (prepare genres_src decades) as [[src step] songs_no].
  reflexivity.
Qed.

(** C10, as the code has it: the rows whose genre string is '[]' are
    removed before any counting; every value of the returned frame is, for
    its column's pattern, the number of remaining rows of its period that
    match divided by the number of remaining rows of that period (the
    float division of the two counts), hence a number between 0 and 1, or
    NaN, and it is NaN exactly when the period has no remaining row. *)
Theorem genres_popul_values (re_search : pystr -> pystr -> option bool) genres genres_src
    decades frame name col y v :
  genres_popul re_search genres genres_src decades = inr frame ->
  (name, col) ∈ frame -> (y, v) ∈ col ->
  let src := (prepare genres_src decades).1.1 in
  let step := (prepare genres_src decades).1.2 in
  (forall r, r ∈ src -> r ∈ genres_src /\ r.2 ≠ EMPTY_LIST)
  /\ (exists pattern,
        v = ratio (filter (fun r : Z * pystr => re_search pattern r.2 = Some true)
                     (in_bin step src y))
                  (in_bin step src y))
  /\ (v = FNaN \/ in_unit_interval v)
  /\ (v = FNaN <-> in_bin step src y = []).
Proof.
  intros H Hcol Hv src step.
  assert (Hsrc : forall r, r ∈ src -> r ∈ genres_src /\ r.2 ≠ EMPTY_LIST).
  { intros r. subst src. unfold prepare. destruct decades; simpl.
    - rewrite !list_elem_of_filter. tauto.
    - rewrite list_elem_of_filter. tauto. }
  split; [exact Hsrc|].
  rewrite genres_popul_unfold in H.
  apply (evaluate_columns _ _ _ _ _ _ _ _ _ H) in Hcol as [Hnil|[pattern Hp]].
  { by apply elem_of_nil in Hnil. }
  assert (Hval : v = ratio (filter (fun r : Z * pystr => re_search pattern r.2 = Some true)
                              (in_bin step src y)) (in_bin step src y)).
  { subst src step. eapply genre_popul_value; [exact Hp|exact Hv]. }
  destruct (ratio_filter_unit (fun r : Z * pystr => re_search pattern r.2 = Some true)
              (in_bin step src y)) as [Hnan Hunit].
  split; [eauto|]. rewrite Hval. split; [exact Hunit|exact Hnan].
Qed.

End GenresFacts.

Section GenresExamples.
Import PyStr Genres Samples.

(** C10 as the claim states it fails when a year between the first and the
    last has no song: its popularity is NaN, which is not between 0 and
    1. *)
Lemma gap_year_popularity :
  exists frame col,
    genres_popul words_search [GStr (u "rock")] gap_series false = inr frame
    /\ (u "rock", col) ∈ frame
    /\ (1961, FNaN) ∈ col
    /\ ¬ in_unit_interval FNaN.
Proof.
  eexists. eexists. split; [vm_compute; reflexivity|].
  split; [left|]. split; [right; left|]. intros H. exact H.
Qed.

Lemma genres_popul_values_witness :
  exists frame col v,
    genres_popul words_search [GStr (u "rock")] gap_series false = inr frame
    /\ (u "rock", col) ∈ frame
    /\ (1960, v) ∈ col
    /\ in_unit_interval v.
Proof.
  assert (E : exists frame col v,
             genres_popul words_search [GStr (u "rock")] gap_series false = inr frame
             /\ (u "rock", col) ∈ frame /\ (1960, v) ∈ col /\ v ≠ FNaN).
  { eexists. eexists. eexists. split; [vm_compute; reflexivity|].
    split; [left|]. split; [left|]. discriminate. }
  destruct E as (frame & col & v & H & Hc & Hv & Hn).
  exists frame, col, v. split; [exact H|]. split; [exact Hc|]. split; [exact Hv|].
  destruct (genres_popul_values words_search _ _ _ _ _ _ _ _ H Hc Hv) as (_ & _ & [Hu|Hu] & _);
    [contradiction|exact Hu].
Defined.

End GenresExamples.

(* ===================================================================== *)
(** * Part III: further facts about the code                              *)
(* ===================================================================== *)

(** ** More on [labels_match] *)
Section LabelsMore.
Import PyStr Float64 Labels.
Context {RT : Runtime}.

Lemma float_le_trans (a b c : pyfloat) :
  float_le a b = true -> float_le b c = true -> float_le a c = true.
Proof.
  destruct a as [x| | |], b as [y| | |], c as [z| | |]; simpl; try done.
  intros A B. apply Qle_bool_iff in A, B. apply Qle_bool_iff.
  eapply Qle_trans; eassumption.
Qed.

Lemma float_sub_mono (a b : pyfloat) (y : Q) :
  float_le a b = true -> float_le (float_sub a y) (float_sub b y) = true.
Proof.
  destruct a as [p| | |], b as [q| | |]; simpl; try done.
  intros A. apply Qle_bool_iff in A. apply Qle_bool_iff, round64_mono.
  unfold Qminus. apply Qplus_le_l. exact A.
Qed.

Lemma float_le_compat_r (th : pyfloat) (x y : Q) :
  (x == y)%Q -> float_le th (Finite x) = float_le th (Finite y).
Proof.
  intros E. destruct th as [q| | |]; try reflexivity. simpl.
  apply eq_true_iff_eq. rewrite !Qle_bool_iff, E. reflexivity.
Qed.

Lemma overlap_coef_comm (xs ys : list pystr) : (overlap_coef xs ys == overlap_coef ys xs)%Q.
Proof. unfold overlap_coef. apply round64_compat, Q.max_comm. Qed.

(** X1: When no label is 'NaN' the two arguments can be exchanged. *)
Theorem labels_match_symmetric (a0 s0 a1 s1 : pystr) (t : pyfloat) :
  a0 ≠ NaN_label -> s0 ≠ NaN_label -> a1 ≠ NaN_label -> s1 ≠ NaN_label ->
  labels_match [a0; s0] [a1; s1] t = labels_match [a1; s1] [a0; s0] t.
Proof.
  intros A0 S0 A1 S1. rewrite !labels_match_unfold by assumption.
  f_equal. f_equal; apply float_le_compat_r, overlap_coef_comm.
Qed.

(** What [labels_match] returns, for lists of any length. *)
Lemma labels_match_cases (o c : list pystr) :
  (forall t, labels_match o c t = None)
  \/ (forall t, labels_match o c t = Some false)
  \/ exists coef_a coef_s,
       (0 <= coef_a)%Q /\ (coef_a <= 1)%Q /\ (0 <= coef_s)%Q /\ (coef_s <= 1)%Q
       /\ forall t, labels_match o c t =
                    Some (float_le (float_sub t TOLERANCE) (Finite coef_a)
                          && float_le (float_sub t TOLERANCE) (Finite coef_s)).
Proof.
  unfold labels_match.
  destruct (o !! 0%nat) as [a0|]; [|by left].
  destruct (o !! 1%nat) as [s0|]; [|by left].
  destruct (c !! 0%nat) as [a1|]; [|by left].
  destruct (c !! 1%nat) as [s1|]; [|by left]. simpl.
  destruct (str_eqb a1 NaN_label || str_eqb s1 NaN_label); [right; by left|].
  rewrite !match_coef_some by (apply re_split_length). simpl.
  right. right.
  exists (overlap_coef (artist_tokens a0) (artist_tokens a1)),
         (overlap_coef (song_tokens s0) (song_tokens s1)).
  pose proof (overlap_coef_unit (artist_tokens a0) (artist_tokens a1)).
  pose proof (overlap_coef_unit (song_tokens s0) (song_tokens s1)).
  split; [tauto|]. split; [tauto|]. split; [tauto|]. split; [tauto|].
  intros t. rewrite !float_le_coef.
  fold (overlap_coef (artist_tokens a0) (artist_tokens a1)).
  fold (overlap_coef (song_tokens s0) (song_tokens s1)).
  match goal with |- (if ?b then _ else _) = _ => destruct b end; reflexivity.
Qed.

(** X2: A match at a threshold is a match at every lower threshold. *)
Theorem match_survives_lower_threshold (o c : list pystr) (t t' : pyfloat) :
  float_le t' t = true ->
  labels_match o c t = Some true -> labels_match o c t' = Some true.
Proof.
  intros Hle Hm.
  destruct (labels_match_cases o c) as [E|[E|(ca & cs & _ & _ & _ & _ & E)]];
    try (rewrite E in Hm; discriminate Hm).
  rewrite E in Hm. rewrite E. injection Hm as Hm. f_equal.
  apply andb_true_iff in Hm as [Ha Hs].
  pose proof (float_sub_mono t' t TOLERANCE Hle) as Hsub.
  apply andb_true_iff. split; eapply float_le_trans; eassumption.
Qed.

(** X3: The coefficients lie between 0 and 1 and the threshold is lowered
    by 1e-5 in binary64, where 1.00001 - 1e-5 is 1.0: labels with the same
    tokens match at every threshold up to the float 1.00001, and no labels
    match at the next float, 1.0000100000000003, at a larger threshold, at
    plus infinity or at NaN.  Every pair whose compared labels are not
    'NaN' matches at a threshold of at most 1e-5. *)
Theorem match_threshold_extremes :
  (forall (o c : list pystr) (t : pyfloat),
     float_le (Finite T_100001_next) t = true \/ t = NotANumber ->
     labels_match o c t ≠ Some true)
  /\ (forall (a0 s0 a1 s1 : pystr) (t : pyfloat),
        float_le t (Finite T_100001) = true -> a1 ≠ NaN_label -> s1 ≠ NaN_label ->
        artist_tokens a0 = artist_tokens a1 -> song_tokens s0 = song_tokens s1 ->
        labels_match [a0; s0] [a1; s1] t = Some true)
  /\ (forall (a0 s0 a1 s1 : pystr) (t : pyfloat),
        float_le t (Finite TOLERANCE) = true -> a1 ≠ NaN_label -> s1 ≠ NaN_label ->
        labels_match [a0; s0] [a1; s1] t = Some true).
Proof.
  split; [|split].
  - intros o c t Ht Hm.
    destruct (labels_match_cases o c) as [E|[E|(ca & cs & _ & Ha & _ & _ & E)]];
      try (rewrite E in Hm; discriminate Hm).
    rewrite E in Hm. injection Hm as Hm. apply andb_true_iff in Hm as [Hm _].
    destruct Ht as [Ht| ->]; [|discriminate Hm].
    pose proof (float_sub_mono _ _ TOLERANCE Ht) as Hsub.
    pose proof (float_le_trans _ _ _ Hsub Hm) as Hc.
    cbn [float_sub float_le] in Hc. apply Qle_bool_iff in Hc.
    assert (Hnext : (1 < round64 (T_100001_next - TOLERANCE))%Q) by (vm_compute; reflexivity).
    apply (Qlt_irrefl 1). eapply Qlt_le_trans; [exact Hnext|].
    eapply Qle_trans; eassumption.
  - intros a0 s0 a1 s1 t Ht A1 S1 Ea Es.
    rewrite labels_match_unfold by assumption. rewrite Ea, Es. f_equal.
    assert (Htop : float_le (float_sub (Finite T_100001) TOLERANCE) (Finite 1) = true)
      by (vm_compute; reflexivity).
    pose proof (float_le_trans _ _ _ (float_sub_mono _ _ TOLERANCE Ht) Htop) as H1.
    apply andb_true_iff.
    split; (erewrite float_le_compat_r; [exact H1|]); apply overlap_coef_self, re_split_length.
  - intros a0 s0 a1 s1 t Ht A1 S1.
    rewrite labels_match_unfold by assumption. f_equal.
    assert (Hlow : float_le (float_sub (Finite TOLERANCE) TOLERANCE) (Finite 0) = true)
      by (vm_compute; reflexivity).
    pose proof (float_le_trans _ _ _ (float_sub_mono _ _ TOLERANCE Ht) Hlow) as H0.
    assert (Hz : forall x : Q, (0 <= x)%Q -> float_le (Finite 0) (Finite x) = true).
    { intros x Hx. simpl. by apply Qle_bool_iff. }
    apply andb_true_iff.
    split; (eapply float_le_trans; [exact H0|]); apply Hz, overlap_coef_unit.
Qed.

End LabelsMore.

Section LabelsMoreExamples.
Import PyStr Float64 Labels.
#[local] Existing Instance ascii_runtime.

Lemma labels_match_symmetric_witness :
  labels_match [u "Elvis Presley"; u "Hound Dog"] [u "elvis"; u "Hound Dog (Live)"]
    DEFAULT_THRESH
  = labels_match [u "elvis"; u "Hound Dog (Live)"] [u "Elvis Presley"; u "Hound Dog"]
      DEFAULT_THRESH.
Proof.
  apply labels_match_symmetric; vm_compute; discriminate.
Defined.

Lemma match_survives_lower_threshold_witness :
  labels_match [u "The Beatles"; u "Hey Jude"] [u "Beatles"; u "Hey Jude - Remastered"]
    (Finite (1 # 4)) = Some true.
Proof.
  apply (match_survives_lower_threshold _ _ DEFAULT_THRESH (Finite (1 # 4))).
  - vm_compute. reflexivity.
  - vm_compute. reflexivity.
Defined.

Lemma match_threshold_extremes_witness :
  labels_match [u "The Beatles"; u "Hey Jude"] [u "the beatles"; u "hey jude"]
    (Finite T_100001_next) ≠ Some true
  /\ labels_match [u "The Beatles"; u "Hey Jude"] [u "the beatles"; u "hey jude"]
       (Finite T_100001) = Some true
  /\ labels_match [u "The Beatles"; u "Hey Jude"] [u "Queen"; u "Bohemian Rhapsody"]
       (Finite 0) = Some true.
Proof.
  destruct match_threshold_extremes as (H1 & H2 & H3). split; [|split].
  - apply H1. left. vm_compute. reflexivity.
  - apply H2; vm_compute; try discriminate; reflexivity.
  - apply H3; vm_compute; try discriminate; reflexivity.
Defined.

End LabelsMoreExamples.

(** ** The tokens of [re.split] *)
Section SplitMore.
Import PyStr Labels SpotifyTerms.

Lemma re_split_from_tokens (cur s tok : pystr) :
  Forall (fun c => ¬ is_separator c) cur ->
  tok ∈ re_split_from cur s -> Forall (fun c => ¬ is_separator c) tok.
Proof.
  remember (length s) as n eqn:En.
  revert s cur En. induction n as [n IH] using lt_wf_ind. intros s cur En Hcur Htok.
  assert (Hrev : Forall (fun c => ¬ is_separator c) (rev cur)).
  { apply Forall_forall. intros c Hc. rewrite Forall_forall in Hcur.
    apply Hcur. apply list_elem_of_In in Hc. apply list_elem_of_In. by apply in_rev. }
  destruct s as [|c s].
  { simpl in Htok. apply list_elem_of_singleton in Htok. by subst tok. }
  cbn [re_split_from] in Htok.
  destruct (c =? COMMA)%N eqn:Ec.
  - apply N.eqb_eq in Ec.
    assert (Hc : ¬ is_separator c) by (subst c; intros [H|H]; discriminate H).
    destruct s as [|d s'].
    + simpl in Htok. apply list_elem_of_singleton in Htok. subst tok.
      simpl. apply Forall_app. split; [exact Hrev|]. by constructor.
    + destruct (d =? SPACE)%N.
      * apply elem_of_cons in Htok as [->|Htok]; [exact Hrev|].
        eapply (IH (length s')); [subst n; simpl; lia|reflexivity|constructor|exact Htok].
      * eapply (IH (length (d :: s'))); [subst n; simpl; lia|reflexivity| |exact Htok].
        by constructor.
  - destruct ((c =? SPACE)%N || (c =? NBSP)%N) eqn:Es.
    + apply elem_of_cons in Htok as [->|Htok]; [exact Hrev|].
      eapply (IH (length s)); [subst n; simpl; lia|reflexivity|constructor|exact Htok].
    + apply orb_false_iff in Es as [E1 E2]. apply N.eqb_neq in E1, E2.
      eapply (IH (length s)); [subst n; simpl; lia|reflexivity| |exact Htok].
      constructor; [|exact Hcur]. intros [H|H]; contradiction.
Qed.

(** X4: [re.split] returns at least one token, and no token holds a space or a
    no-break space: the labels are cut at every one of them. *)
Theorem re_split_tokens (s : pystr) :
  re_split s ≠ []
  /\ forall tok, tok ∈ re_split s -> (SPACE ∉ tok) /\ (NBSP ∉ tok).
Proof.
  split.
  - pose proof (re_split_length s) as H. intros E. rewrite E in H. simpl in H. lia.
  - intros tok Htok.
    pose proof (re_split_from_tokens [] s tok (Forall_nil_2 _) Htok) as H.
    rewrite Forall_forall in H.
    split; intros Hin; apply (H _ Hin); [by left|by right].
Qed.

End SplitMore.

(** ** The search query *)
Section PayloadFacts.
Import PyStr Spotify.

Lemma before_comma_prefix (s : pystr) : before_comma s `prefix_of` s.
Proof.
  induction s as [|c s IH]; simpl; [reflexivity|].
  destruct (c =? COMMA)%N; [apply prefix_nil|by apply prefix_cons].
Qed.

Lemma before_comma_no_comma (s : pystr) : COMMA ∉ before_comma s.
Proof.
  induction s as [|c s IH]; simpl; [apply not_elem_of_nil|].
  destruct (c =? COMMA)%N eqn:E; [apply not_elem_of_nil|].
  apply N.eqb_neq in E. apply not_elem_of_cons. split; [congruence|exact IH].
Qed.

Lemma remove_The_sublist (s : pystr) : remove_The s `sublist_of` s.
Proof.
  remember (length s) as n eqn:En. revert s En.
  induction n as [n IH] using lt_wf_ind. intros s En.
  destruct s as [|c s]; [reflexivity|].
  assert (Hs : remove_The s `sublist_of` s) by (apply (IH (length s)); [subst n; simpl; lia|reflexivity]).
  destruct s as [|d [|e s'']]; try (by apply sublist_skip).
  change (remove_The (c :: d :: e :: s''))
    with (if (c =? 84)%N && (d =? 104)%N && (e =? 101)%N then remove_The s''
          else c :: remove_The (d :: e :: s'')).
  destruct ((c =? 84)%N && (d =? 104)%N && (e =? 101)%N).
  - do 3 apply sublist_cons. apply (IH (length s'')); [subst n; simpl; lia|reflexivity].
  - by apply sublist_skip.
Qed.

(** X5: The query sent to the search endpoint is made of characters of the
    chart labels, in their order: the artist part comes from the label
    before its first comma and has no comma, no full stop and no white
    space at either end; the track part is the song label without its
    apostrophes. *)
Theorem payload_search_clean (artist_o song_o : pystr) :
  exists artist_search song_search,
    payload_search artist_o song_o
      = u "artist:" ++ artist_search ++ u " track:" ++ song_search
    /\ artist_search `sublist_of` before_comma artist_o
    /\ before_comma artist_o `prefix_of` artist_o
    /\ (COMMA ∉ artist_search) /\ (46%N ∉ artist_search)
    /\ (forall c, head artist_search = Some c \/ last artist_search = Some c ->
                  is_space c = false)
    /\ song_search = filter (fun c => c ≠ APOSTROPHE) song_o
    /\ (APOSTROPHE ∉ song_search).
Proof.
  eexists. eexists. split; [reflexivity|].
  set (d := delete_char 46 (remove_The (before_comma artist_o))).
  assert (Hd : d `sublist_of` before_comma artist_o).
  { transitivity (remove_The (before_comma artist_o)); [apply sublist_filter|].
    apply remove_The_sublist. }
  split; [transitivity d; [apply strip_sublist|exact Hd]|].
  split; [apply before_comma_prefix|].
  split.
  { intros H. apply (before_comma_no_comma artist_o).
    eapply elem_of_sublist; [exact H|]. transitivity d; [apply strip_sublist|exact Hd]. }
  split.
  { intros H. pose proof (elem_of_sublist _ _ _ H (strip_sublist d)) as H'.
    apply list_elem_of_filter in H' as [Hne _]. by apply Hne. }
  split.
  { intros c [H|H]; [by apply (proj1 (strip_ends d c))|by apply (proj2 (strip_ends d c))]. }
  split; [reflexivity|].
  intros H. apply list_elem_of_filter in H as [Hne _]. by apply Hne.
Qed.

End PayloadFacts.

(** ** The choice among the search results *)
Section MatchItemsFacts.
Import PyStr Labels Spotify SpotifyTerms.
Context {RT : Runtime}.

Lemma match_items_from (artist_o song_o : pystr) (spot_q : list track_item)
    (cur m : spot_match) :
  match_items artist_o song_o spot_q cur = inr m ->
  (spot_q = [] /\ m = cur)
  \/ (m_matched m = 1
      /\ exists before item after,
           spot_q = before ++ item :: after
           /\ item_matches artist_o song_o item
           /\ (forall i, i ∈ before -> ¬ item_matches artist_o song_o i)
           /\ taken_from m item)
  \/ (m_matched m = 0 /\ spot_q ≠ []
      /\ (forall i, i ∈ spot_q -> ¬ item_matches artist_o song_o i)
      /\ exists item, last spot_q = Some item /\ taken_from m item).
Proof.
  revert cur. induction spot_q as [|item rest IH]; intros cur H.
  { simpl in H. injection H as <-. by left. }
  right. cbn [match_items] in H.
  destruct (first_artist item) as [e|[artist_s artist_s_id]] eqn:Ef; [discriminate H|].
  destruct (labels_match [artist_o; song_o] [artist_s; item_name item] DEFAULT_THRESH)
    as [[|]|] eqn:El; [| |discriminate H].
  - injection H as <-. left. simpl. split; [reflexivity|].
    exists [], item, rest. split; [reflexivity|]. split.
    { exists artist_s, artist_s_id. by split. }
    split; [|by split]. intros i Hi. by apply elem_of_nil in Hi.
  - assert (Hno : ¬ item_matches artist_o song_o item).
    { intros (a' & id' & Ha & Hm). rewrite Ef in Ha. injection Ha as <- <-.
      rewrite El in Hm. discriminate Hm. }
    destruct (IH _ H) as [[-> ->]|[(H1 & before & it & after & -> & Hit & Hb & Hs)
                                  |(H0 & Hne & Hall & it & Hlast & Hs)]].
    + right. simpl. split; [reflexivity|]. split; [discriminate|]. split.
      * intros i Hi. apply list_elem_of_singleton in Hi. by subst i.
      * exists item. split; [reflexivity|]. by split.
    + left. split; [exact H1|].
      exists (item :: before), it, after. split; [reflexivity|]. split; [exact Hit|].
      split; [|exact Hs]. intros i Hi. apply elem_of_cons in Hi as [->|Hi]; [exact Hno|].
      by apply Hb.
    + right. split; [exact H0|]. split; [discriminate|]. split.
      * intros i Hi. apply elem_of_cons in Hi as [->|Hi]; [exact Hno|]. by apply Hall.
      * exists it. split; [|exact Hs]. destruct rest; [contradiction|exact Hlast].
Qed.

(** X6: The loop over the search results keeps the first result whose labels
    match and flags the row as matched exactly when there is one: the row
    then holds the artist name and id, the song name and id of that result,
    which matches the chart row, and no result before it does.  Without a
    match the row holds the labels and ids of the last result, and the
    'NaN' labels when the search found nothing.  A result without artists
    never matches. *)
Theorem match_items_result (artist_o song_o : pystr) (spot_q : list track_item)
    (m : spot_match) :
  match_items artist_o song_o spot_q no_match = inr m ->
  (m_matched m = 0 \/ m_matched m = 1)
  /\ (m_matched m = 1 <-> exists item, item ∈ spot_q /\ item_matches artist_o song_o item)
  /\ (m_matched m = 1 ->
      labels_match [artist_o; song_o] [m_artist m; m_song m] DEFAULT_THRESH = Some true
      /\ exists before item after,
           spot_q = before ++ item :: after
           /\ item_matches artist_o song_o item
           /\ (forall i, i ∈ before -> ¬ item_matches artist_o song_o i)
           /\ first_artist item = inr (m_artist m, m_artist_id m)
           /\ m_song m = item_name item /\ m_song_id m = item_id item)
  /\ (m_matched m = 0 -> spot_q ≠ [] ->
      exists item, last spot_q = Some item
                   /\ first_artist item = inr (m_artist m, m_artist_id m)
                   /\ m_song m = item_name item /\ m_song_id m = item_id item)
  /\ (spot_q = [] -> m = no_match)
  /\ (forall item, item_artists item = None -> ¬ item_matches artist_o song_o item).
Proof.
  intros H.
  assert (Hnone : forall item, item_artists item = None -> ¬ item_matches artist_o song_o item).
  { intros item Hn (a' & id' & Ha & Hm). unfold first_artist in Ha. rewrite Hn in Ha.
    injection Ha as <- <-. unfold labels_match in Hm.
    cbn [lookup list_lookup mbind option_bind] in Hm.
    unfold str_eqb in Hm. rewrite bool_decide_eq_true_2 in Hm by reflexivity.
    cbn [orb] in Hm. discriminate Hm. }
  destruct (match_items_from _ _ _ _ _ H)
    as [[-> ->]|[(H1 & before & it & after & -> & Hit & Hb & Hs)
                |(H0 & Hne & Hall & it & Hlast & Hs)]].
  - split; [by left|]. split.
    { split; [discriminate|]. intros (i & Hi & _). by apply elem_of_nil in Hi. }
    split; [discriminate|]. split; [by intros _ E|]. split; [reflexivity|exact Hnone].
  - split; [by right|]. split.
    { split; [|by intros _]. intros _. exists it. split; [|exact Hit].
      apply elem_of_app. right. left. }
    split; [|split; [rewrite H1; discriminate|split; [|exact Hnone]]].
    + intros _. split.
      * destruct Hit as (a' & id' & Ha & Hm). destruct Hs as (Hf & Hn & _).
        rewrite Hf in Ha. injection Ha as <- <-. by rewrite Hn.
      * exists before, it, after. destruct Hs as (Hf & Hn & Hi). by repeat split.
    + intros E. by destruct before.
  - split; [by left|]. split.
    { rewrite H0. split; [discriminate|]. intros (i & Hi & Hmi). exfalso.
      by apply (Hall i Hi). }
    split; [rewrite H0; discriminate|]. split.
    { intros _ _. exists it. destruct Hs as (Hf & Hn & Hi). by repeat split. }
    split; [intros E; contradiction|exact Hnone].
Qed.

End MatchItemsFacts.

Section MatchItemsExamples.
Import PyStr Labels Spotify SpotifyTerms MoreSamples.
#[local] Existing Instance ascii_runtime.

(** The second of two results is the one kept. *)
Lemma match_items_result_witness :
  exists m,
    match_items (u "Ricky Nelson") (u "Poor Little Fool")
      [hound_dog_item; poor_little_fool_item] no_match = inr m
    /\ m_matched m = 1
    /\ m_artist m = u "Ricky Nelson" /\ m_artist_id m = u "a1"
    /\ m_song m = u "Poor Little Fool" /\ m_song_id m = u "t1"
    /\ (m_matched m = 1 <->
        exists item, item ∈ [hound_dog_item; poor_little_fool_item]
                     /\ item_matches (u "Ricky Nelson") (u "Poor Little Fool") item).
Proof.
  exists {| m_artist := u "Ricky Nelson"; m_song := u "Poor Little Fool";
            m_artist_id := u "a1"; m_song_id := u "t1"; m_matched := 1 |}.
  assert (E : match_items (u "Ricky Nelson") (u "Poor Little Fool")
                [hound_dog_item; poor_little_fool_item] no_match
              = inr {| m_artist := u "Ricky Nelson"; m_song := u "Poor Little Fool";
                       m_artist_id := u "a1"; m_song_id := u "t1"; m_matched := 1 |})
    by (vm_compute; reflexivity).
  split; [exact E|].
  destruct (match_items_result _ _ _ _ E) as (_ & H2 & _).
  repeat (split; [reflexivity|]). exact H2.
Defined.

End MatchItemsExamples.

(** ** The frame of [save_batch] *)
Section BatchFrameFacts.
Import PyStr Spotify SpotifyTerms.

Lemma drop_duplicates_seen (seen : list (Z * pystr * pystr)) (rows more : list merged_row) :
  (forall r, r ∈ rows -> frame_key r ∈ seen) ->
  drop_duplicates_from seen (rows ++ more) = drop_duplicates_from seen more.
Proof.
  induction rows as [|r rows IH]; intros H; [reflexivity|].
  cbn [app drop_duplicates_from].
  rewrite bool_decide_eq_true_2 by (apply H; left).
  apply IH. intros r' Hr'. apply H. by right.
Qed.

Section Partners.
Variables (genres_df : list artist_obj) (features_df : list audio_features).

(** The rows the two merges make of one record. *)
Let rows_of (b : batch_row) : list merged_row :=
  map (fun '(bg, f) => {| mr_batch := bg.1; mr_genres := bg.2; mr_features := f |})
    (merge_left (fun bg : batch_row * option (option (list pystr)) => song_spot_id bg.1)
       feat_id id
       (merge_left artist_spot_id art_id art_genres [b] genres_df) features_df).

Lemma merge_left_app {L R V} (key_l : L -> pystr) (key_r : R -> pystr) (val : R -> V)
    (l1 l2 : list L) (right : list R) :
  merge_left key_l key_r val (l1 ++ l2) right
  = merge_left key_l key_r val l1 right ++ merge_left key_l key_r val l2 right.
Proof. unfold merge_left. apply flat_map_app. Qed.

Lemma merged_rows (batch : list batch_row) :
  map (fun '(bg, f) => {| mr_batch := bg.1; mr_genres := bg.2; mr_features := f |})
    (merge_left (fun bg : batch_row * option (option (list pystr)) => song_spot_id bg.1)
       feat_id id
       (merge_left artist_spot_id art_id art_genres batch genres_df) features_df)
  = flat_map rows_of batch.
Proof.
  induction batch as [|b batch IH]; [reflexivity|].
  change (b :: batch) with ([b] ++ batch).
  rewrite !merge_left_app, map_app, IH. reflexivity.
Qed.

(** One record gives at least one row; the first has its first partners
    and all are rows of this record. *)
Lemma merge_left_one {L R V} (key_l : L -> pystr) (key_r : R -> pystr) (val : R -> V)
    (l : L) (right : list R) :
  exists others,
    merge_left key_l key_r val [l] right
    = (l, val <$> head (filter (fun r => key_r r = key_l l) right)) :: others
    /\ forall x, x ∈ others -> x.1 = l.
Proof.
  unfold merge_left. cbn [flat_map]. rewrite app_nil_r.
  destruct (filter (fun r => key_r r = key_l l) right) as [|p ps].
  - exists []. split; [reflexivity|]. intros x Hx. by apply elem_of_nil in Hx.
  - exists (map (fun r => (l, Some (val r))) ps). split; [reflexivity|].
    intros x Hx. apply list_elem_of_fmap in Hx as (r & -> & _). reflexivity.
Qed.

Lemma rows_of_shape (b : batch_row) :
  exists others,
    rows_of b = with_partners genres_df features_df b :: others
    /\ forall r, r ∈ others -> mr_batch r = b.
Proof.
  unfold rows_of.
  destruct (merge_left_one artist_spot_id art_id art_genres b genres_df)
    as (others1 & -> & H1).
  change ((b, art_genres <$> head (filter (fun r => art_id r = artist_spot_id b) genres_df))
          :: others1)
    with ([(b, art_genres <$> head (filter (fun r => art_id r = artist_spot_id b) genres_df))]
          ++ others1).
  rewrite merge_left_app, map_app.
  destruct (merge_left_one
              (fun bg : batch_row * option (option (list pystr)) => song_spot_id bg.1)
              feat_id id
              (b, art_genres <$> head (filter (fun r => art_id r = artist_spot_id b) genres_df))
              features_df) as (others2 & -> & H2).
  cbn [map app fst snd].
  assert (Hid : forall o : option audio_features, id <$> o = o) by (by intros [f|]).
  rewrite Hid.
  eexists. split.
  - reflexivity.
  - intros r Hr. apply elem_of_app in Hr as [Hr|Hr].
    + apply list_elem_of_fmap in Hr as ([bg f] & -> & Hx). cbn [mr_batch].
      specialize (H2 _ Hx). cbn [fst] in H2. by rewrite H2.
    + apply list_elem_of_fmap in Hr as ([bg f] & -> & Hx). cbn [mr_batch].
      unfold merge_left in Hx. apply list_elem_of_In, in_flat_map in Hx as (bg' & Hbg & Hx).
      apply list_elem_of_In in Hbg. specialize (H1 _ Hbg).
      assert (E : bg = bg').
      { destruct (filter _ features_df) as [|p ps].
        - destruct Hx as [Hx|[]]. by injection Hx as -> _.
        - apply in_map_iff in Hx as (r & Hx & _). by injection Hx as -> _. }
      by rewrite E.
Qed.

Lemma drop_duplicates_rows (seen : list (Z * pystr * pystr)) (batch : list batch_row) :
  drop_duplicates_from seen (flat_map rows_of batch)
  = map (with_partners genres_df features_df) (distinct_rows_from seen batch).
Proof.
  revert seen. induction batch as [|b batch IH]; intros seen; [reflexivity|].
  cbn [flat_map distinct_rows_from].
  destruct (rows_of_shape b) as (others & -> & Ho).
  cbn [app drop_duplicates_from].
  change (frame_key (with_partners genres_df features_df b)) with (batch_key b).
  destruct (bool_decide (batch_key b ∈ seen)) eqn:E.
  - apply bool_decide_eq_true in E.
    rewrite drop_duplicates_seen; [apply IH|].
    intros r Hr. unfold frame_key. rewrite (Ho r Hr). exact E.
  - cbn [map]. f_equal.
    rewrite drop_duplicates_seen; [apply IH|].
    intros r Hr. unfold frame_key. rewrite (Ho r Hr). left.
Qed.

End Partners.

Lemma distinct_rows_from_spec (seen : list (Z * pystr * pystr)) (batch : list batch_row) :
  distinct_rows_from seen batch `sublist_of` batch
  /\ NoDup (map batch_key (distinct_rows_from seen batch))
  /\ (forall b, b ∈ distinct_rows_from seen batch -> batch_key b ∉ seen)
  /\ (forall b, b ∈ batch -> batch_key b ∉ seen ->
        batch_key b ∈ map batch_key (distinct_rows_from seen batch)).
Proof.
  revert seen. induction batch as [|b batch IH]; intros seen.
  { cbn. split; [reflexivity|]. split; [constructor|].
    split; intros b Hb; by apply elem_of_nil in Hb. }
  cbn [distinct_rows_from]. destruct (bool_decide (batch_key b ∈ seen)) eqn:E.
  - apply bool_decide_eq_true in E. destruct (IH seen) as (I1 & I2 & I3 & I4).
    split; [by apply sublist_cons|]. split; [exact I2|]. split; [exact I3|].
    intros b' Hb' Hn. apply elem_of_cons in Hb' as [->|Hb']; [contradiction|by apply I4].
  - apply bool_decide_eq_false in E.
    destruct (IH (batch_key b :: seen)) as (I1 & I2 & I3 & I4).
    split; [by apply sublist_skip|]. split.
    { cbn [map]. constructor; [|exact I2]. intros Hin.
      apply list_elem_of_fmap in Hin as (b' & Hk & Hb'). apply (I3 b' Hb').
      rewrite <- Hk. left. }
    split.
    { intros b' Hb'. apply elem_of_cons in Hb' as [->|Hb']; [exact E|].
      intros Hs. apply (I3 b' Hb'). by right. }
    intros b' Hb' Hn. cbn [map].
    destruct (decide (batch_key b' = batch_key b)) as [Hk|Hk]; [rewrite Hk; left|].
    right. apply elem_of_cons in Hb' as [->|Hb']; [contradiction|].
    apply I4; [exact Hb'|]. intros Hs. apply elem_of_cons in Hs as [Hs|Hs]; contradiction.
Qed.

(** X7: The frame [save_batch] returns (lines 164-187).  The call raises
    when the artists list is empty and when the features are one null
    (the frame made of them lacks the column the code asks for), so every
    batch that is written has both.  When it returns, the frame holds the
    records of the batch in their order, without the later records of a
    (date, artist, song) that came before: one row for each such triple,
    with the genres of the first artist of the record's artist id and the
    features of the first song of its song id, NaN where there is none. *)
Theorem save_batch_frame (batch : list batch_row) (feat_json artist_json : json)
    (df : batch_frame) :
  batch_merged batch feat_json artist_json = inr df ->
  (exists spot_feat spot_artist kept genres_df features_df,
     feat_json = JFeatures spot_feat /\ artist_json = JArtists spot_artist
     /\ data_frame (del_nulls spot_feat) = inr (Some features_df)
     /\ del_no_genres spot_artist = inr kept
     /\ data_frame kept = inr (Some genres_df)
     /\ df = map (with_partners genres_df features_df) (distinct_rows batch))
  /\ artist_json ≠ JArtists [] /\ feat_json ≠ JFeatures [] /\ feat_json ≠ JFeatures [None]
  /\ map mr_batch df = distinct_rows batch
  /\ distinct_rows batch `sublist_of` batch
  /\ NoDup (map frame_key df)
  /\ (forall b, b ∈ batch -> exists r, r ∈ df /\ frame_key r = batch_key b).
Proof.
  intros H. unfold batch_merged in H.
  destruct feat_json as [|spot_feat| | |]; try discriminate H.
  destruct (data_frame (del_nulls spot_feat)) as [e|features_df] eqn:Ef; [discriminate H|].
  destruct artist_json as [| |spot_artist| |]; try discriminate H.
  destruct (del_no_genres spot_artist) as [e|kept] eqn:Ek; [discriminate H|].
  destruct (data_frame kept) as [e|[genres_df|]] eqn:Eg; try discriminate H.
  destruct features_df as [features_df|]; [|discriminate H].
  injection H as <-.
  assert (Hdf : drop_duplicates
                  (map (fun '(bg, f) =>
                          {| mr_batch := bg.1; mr_genres := bg.2; mr_features := f |})
                     (merge_left
                        (fun bg : batch_row * option (option (list pystr)) =>
                           song_spot_id bg.1) feat_id id
                        (merge_left artist_spot_id art_id art_genres batch genres_df)
                        features_df))
                = map (with_partners genres_df features_df) (distinct_rows batch)).
  { rewrite merged_rows. apply drop_duplicates_rows. }
  rewrite Hdf.
  destruct (distinct_rows_from_spec [] batch) as (S1 & S2 & _ & S4).
  fold (distinct_rows batch) in S1, S2, S4.
  assert (Hb : map mr_batch (map (with_partners genres_df features_df) (distinct_rows batch))
               = distinct_rows batch).
  { rewrite map_map. cbn [mr_batch with_partners]. apply map_id. }
  assert (Hk : map frame_key (map (with_partners genres_df features_df) (distinct_rows batch))
               = map batch_key (distinct_rows batch)).
  { rewrite map_map. reflexivity. }
  split.
  { exists spot_feat, spot_artist, kept, genres_df, features_df. by repeat split. }
  split. { intros E. injection E as ->. cbn in Ek. injection Ek as <-. discriminate Eg. }
  split. { intros E. injection E as ->. discriminate Ef. }
  split. { intros E. injection E as ->. discriminate Ef. }
  split; [exact Hb|]. split; [exact S1|]. split; [by rewrite Hk|].
  intros b Hb'. specialize (S4 b Hb' (not_elem_of_nil _)).
  rewrite <- Hk in S4. apply list_elem_of_fmap in S4 as (r & Hr & Hin). eauto.
Qed.

End BatchFrameFacts.

Section BatchFrameExamples.
Import PyStr Spotify SpotifyTerms Samples.
#[local] Existing Instance ascii_runtime.

(** The batch of the one-row run: the record gets the genres and the
    features of the sample responses. *)
Lemma save_batch_frame_witness :
  exists b df,
    batch_merged [b] (body feats_ok) (body artists_ok) = inr df
    /\ map mr_batch df = [b]
    /\ (forall r, r ∈ df ->
          mr_genres r = Some (Some [u "rock-and-roll"; u "rockabilly"])).
Proof.
  set (b := {| b_date := 714993; artist_orig := u "Ricky Nelson";
               song_orig := u "Poor Little Fool"; artist_spot := u "Ricky Nelson";
               song_spot := u "Poor Little Fool"; artist_spot_id := u "a1";
               song_spot_id := u "t1"; matched := 1 |}).
  assert (E : exists df, batch_merged [b] (body feats_ok) (body artists_ok) = inr df)
    by (eexists; vm_compute; reflexivity).
  destruct E as [df E]. exists b, df. split; [exact E|].
  destruct (save_batch_frame _ _ _ _ E)
    as ((sf & sa & kept & gdf & fdf & Ef & Ea & Hf & Hk & Hg & ->) & _ & _ & _ & Hb & _).
  split; [rewrite Hb; vm_compute; reflexivity|].
  injection Ea as <-. cbn in Hk. injection Hk as <-. cbn in Hg. injection Hg as <-.
  intros r Hr. change (distinct_rows [b]) with [b] in Hr. cbn [map] in Hr.
  apply list_elem_of_singleton in Hr. subst r. vm_compute. reflexivity.
Defined.

(** Without artists the call raises, whatever the features are. *)
Example no_artists_no_frame (batch : list batch_row) (feat_json : json) :
  exists e, batch_merged batch feat_json (JArtists []) = inl e.
Proof.
  destruct (batch_merged batch feat_json (JArtists [])) as [e|df] eqn:E; [eauto|].
  destruct (save_batch_frame _ _ _ _ E) as (_ & Hn & _). contradiction.
Qed.

End BatchFrameExamples.

(** ** The Authorization header of the requests *)
Section AuthFacts.
Import PyStr Spotify SpotifyTerms.
Context {RT : Runtime}.

Lemma auth_follows_app cur a b :
  auth_follows cur (a ++ b) <-> auth_follows cur a /\ auth_follows (final_auth cur a) b.
Proof.
  revert cur. induction a as [|ev a IH]; intros cur; [simpl; tauto|].
  destruct ev as [| |ap r| | | | |]; simpl; rewrite ?IH; try tauto.
  destruct ap; simpl; rewrite ?IH; tauto.
Qed.

Lemma final_auth_app cur a b :
  final_auth cur (a ++ b) = final_auth (final_auth cur a) b.
Proof.
  revert cur. induction a as [|ev a IH]; intros cur; [reflexivity|].
  destruct ev as [| |ap r| | | | |]; simpl; rewrite ?IH; try reflexivity.
  destruct ap; simpl; rewrite ?IH; reflexivity.
Qed.

Lemma keeps_auth_prepend {A} (proj : A -> pystr) cur evs (r : run A) :
  auth_follows cur evs ->
  keeps_auth proj (final_auth cur evs) r ->
  keeps_auth proj cur (prepend evs r).
Proof.
  intros He [Hr Hf]. unfold keeps_auth, prepend. simpl.
  rewrite auth_follows_app, final_auth_app. tauto.
Qed.

Lemma keeps_auth_bind {A B} (pa : A -> pystr) (pb : B -> pystr) cur
    (r : run A) (k : A -> run B) :
  keeps_auth pa cur r ->
  (forall x, keeps_auth pb (Some (pa x)) (k x)) ->
  keeps_auth pb cur (bind r k).
Proof.
  intros [Hr Hf] Hk. destruct r as [tr out]. unfold bind. simpl in *.
  destruct out as [x|b|e|]; try (split; [exact Hr|intros y Hy; discriminate Hy]).
  specialize (Hf x eq_refl). destruct (Hk x) as [Hk1 Hk2].
  unfold keeps_auth, prepend. simpl.
  rewrite auth_follows_app, final_auth_app, Hf. split; [tauto|exact Hk2].
Qed.

Lemma token_result_after cur t auth' :
  token_result t = inr auth' -> after_token cur t = Some auth'.
Proof. intros H. unfold after_token. by rewrite H. Qed.

Lemma auth_update_keeps cid cs cur w :
  keeps_auth (fun x : pystr * list response => x.1) cur (auth_update cid cs w).
Proof.
  destruct w as [|t w]; [split; [exact I|intros x Hx; discriminate Hx]|].
  unfold auth_update. destruct (token_result t) as [e|auth'] eqn:E.
  - split; [exact I|intros x Hx; discriminate Hx].
  - split; [exact I|]. intros x Hx. injection Hx as <-. simpl.
    by apply token_result_after.
Qed.

Lemma search_loop_keeps cid cs payload auth w :
  keeps_auth (fun x : response * pystr * list response => x.1.2) (Some auth)
    (search_loop cid cs payload auth w).
Proof.
  remember (length w) as n eqn:En.
  revert w auth En. induction n as [n IH] using lt_wf_ind. intros w auth En.
  destruct w as [|r w]; [split; [simpl; tauto|intros x Hx; discriminate Hx]|].
  cbn [search_loop].
  destruct (status_code r =? 429).
  { split; [simpl; tauto|intros x Hx; discriminate Hx]. }
  destruct (status_code r =? 401).
  { destruct w as [|t w2]; [split; [simpl; tauto|intros x Hx; discriminate Hx]|].
    destruct (token_result t) as [e|auth'] eqn:E.
    - split; [simpl; tauto|intros x Hx; discriminate Hx].
    - apply keeps_auth_prepend; [simpl; tauto|]. simpl.
      rewrite (token_result_after _ _ _ E).
      eapply (IH (length w2)); [subst n; simpl; lia|reflexivity]. }
  destruct (negb (status_code r =? 200)).
  - apply keeps_auth_prepend; [simpl; tauto|]. simpl.
    eapply (IH (length w)); [subst n; simpl; lia|reflexivity].
  - split; [simpl; tauto|]. intros x Hx. injection Hx as <-. reflexivity.
Qed.

Lemma save_batch_loop_keeps cid cs pf pa auth w :
  keeps_auth (fun x : json * json * pystr * list response => x.1.2) (Some auth)
    (save_batch_loop cid cs pf pa auth w).
Proof.
  remember (length w) as n eqn:En.
  revert w auth En. induction n as [n IH] using lt_wf_ind. intros w auth En.
  destruct w as [|rf w]; [split; [simpl; tauto|intros x Hx; discriminate Hx]|].
  destruct w as [|ra w]; [split; [simpl; tauto|intros x Hx; discriminate Hx]|].
  cbn [save_batch_loop].
  destruct (status_code rf =? 429);
    [split; [simpl; tauto|intros x Hx; discriminate Hx]|].
  destruct (status_code ra =? 429);
    [split; [simpl; tauto|intros x Hx; discriminate Hx]|].
  destruct ((status_code rf =? 401) || (status_code ra =? 401)).
  { destruct w as [|t w3]; [split; [simpl; tauto|intros x Hx; discriminate Hx]|].
    destruct (token_result t) as [e|auth'] eqn:E.
    - split; [simpl; tauto|intros x Hx; discriminate Hx].
    - apply keeps_auth_prepend; [simpl; tauto|]. simpl.
      rewrite (token_result_after _ _ _ E).
      eapply (IH (length w3)); [subst n; simpl; lia|reflexivity]. }
  destruct (negb (status_code rf =? 200)).
  { apply keeps_auth_prepend; [simpl; tauto|]. simpl.
    eapply (IH (length w)); [subst n; simpl; lia|reflexivity]. }
  destruct (negb (status_code ra =? 200)).
  { apply keeps_auth_prepend; [simpl; tauto|]. simpl.
    eapply (IH (length w)); [subst n; simpl; lia|reflexivity]. }
  split; [simpl; tauto|]. intros x Hx. injection Hx as <-. reflexivity.
Qed.

Lemma keeps_auth_stop {A} (proj : A -> pystr) cur evs (out : outcome A) :
  auth_follows cur evs -> (forall x, out ≠ Done x) -> keeps_auth proj cur (evs, out).
Proof. intros He Hn. split; [exact He|]. intros x Hx. exfalso. exact (Hn x Hx). Qed.

Lemma save_batch_keeps cid cs batch auth w :
  keeps_auth (fun x : batch_frame * pystr * list response => x.1.2) (Some auth)
    (save_batch cid cs batch auth w).
Proof.
  unfold save_batch.
  eapply keeps_auth_bind; [apply save_batch_loop_keeps|].
  intros [[[fj aj] auth'] w']. cbn [fst snd final_auth].
  destruct (batch_merged batch fj aj); [apply keeps_auth_stop; [exact I|discriminate]|].
  split; [exact I|]. intros x Hx. injection Hx as <-. reflexivity.
Qed.

Lemma collect_keeps cid cs no_hot no_batches rows st w :
  keeps_auth (fun x : loop_state * list response => header_auth x.1)
    (Some (header_auth st)) (collect cid cs no_hot no_batches rows st w).
Proof.
  revert st w. induction rows as [|hot rows IH]; intros st w.
  { split; [exact I|]. intros x Hx. injection Hx as <-. reflexivity. }
  cbn [collect]. apply keeps_auth_prepend; [exact I|]. simpl.
  eapply keeps_auth_bind; [apply search_loop_keeps|].
  intros [[r auth1] w1]. simpl.
  destruct (body r); try (apply keeps_auth_stop; [exact I|discriminate]).
  destruct (match_items _ _ _ _) as [e|m]; [apply keeps_auth_stop; [exact I|discriminate]|].
  match goal with |- context [if ?b then _ else _] => destruct b end.
  - eapply keeps_auth_bind; [apply save_batch_keeps|].
    intros [[frame auth2] w2]. simpl.
    apply keeps_auth_prepend; [destruct (batch_i st =? 0); exact I|].
    assert (E : final_auth (Some auth2)
                  [if batch_i st =? 0 then EvToCsv ModeW true frame
                   else EvToCsv ModeA false frame] = Some auth2)
      by (destruct (batch_i st =? 0); reflexivity).
    rewrite E. apply (IH {| batch_list := []; batch_i := batch_i st + 1;
                            hot_i := hot_i st + 1; header_auth := auth2 |}).
  - apply (IH {| batch_list := _; batch_i := batch_i st;
                 hot_i := hot_i st + 1; header_auth := auth1 |}).
Qed.

Lemma run_auth_follows (cid cs : pystr) df w :
  auth_follows None (spotify_audio_features cid cs df w).1.
Proof.
  unfold spotify_audio_features.
  refine (proj1 (keeps_auth_bind (fun x : pystr * list response => x.1)
                   (fun _ : unit => []) None _ _ (auth_update_keeps cid cs None w) _)).
  intros [auth w0]. simpl.
  apply (keeps_auth_bind (fun x : loop_state * list response => header_auth x.1)
           (fun _ : unit => []) (Some auth)).
  - apply (collect_keeps cid cs _ _ _
             {| batch_list := []; batch_i := 0; hot_i := 0; header_auth := auth |}).
  - intros [st w1]. simpl. split.
    + unfold save_remaining. destruct (batch_list st) as [|b bl].
      * simpl. exact I.
      * pose proof (save_batch_keeps cid cs (b :: bl) (header_auth st) w1) as [Hs _].
        destruct (save_batch cid cs (b :: bl) (header_auth st) w1) as [tr out].
        unfold bind. simpl in *.
        destruct out as [[[frame a2] w2]|?|?|]; simpl; try exact Hs.
        rewrite !auth_follows_app. simpl. tauto.
    + intros x Hx. exfalso. revert Hx.
      destruct (save_remaining cid cs st w1) as [tr out]. unfold bind. simpl.
      destruct out; discriminate.
Qed.


Lemma final_auth_origin cur pre auth :
  final_auth cur pre = Some auth ->
  cur = Some auth
  \/ exists t token,
       EvRecv Token t ∈ pre /\ status_code t = 200 /\ body t = JToken token
       /\ auth = u "Bearer " ++ token.
Proof.
  revert cur. induction pre as [|ev pre IH]; intros cur H; [by left|].
  assert (Hrest : forall c, final_auth c pre = Some auth ->
            c = Some auth \/ exists t token,
              EvRecv Token t ∈ ev :: pre /\ status_code t = 200 /\ body t = JToken token
              /\ auth = u "Bearer " ++ token).
  { intros c Hc. destruct (IH c Hc) as [?|(t & token & Hin & ?)]; [by left|].
    right. exists t, token. split; [by right|assumption]. }
  destruct ev as [| |ap r| | | | |]; simpl in H; try (by apply Hrest).
  destruct ap; simpl in H; try (by apply Hrest).
  destruct (Hrest _ H) as [Hc|?]; [|by right].
  unfold after_token in Hc. unfold token_result in Hc.
  destruct (negb (status_code r =? 200)) eqn:Es; [by left|].
  destruct (body r) eqn:Eb; try (by left).
  right. exists r, access_token. split; [left|].
  apply negb_false_iff, Z.eqb_eq in Es. injection Hc as <-. by repeat split.
Qed.

(** X8: In every run of [spotify_audio_features], complete or not, each GET
    carries the Authorization value that the latest successful token
    response before it has set, 'Bearer ' and that token, in the search loop
    and in [save_batch] alike (the two share the header); no GET is made
    before a token was obtained. *)
Theorem requests_carry_latest_token (cid cs : pystr) df w (i : nat) a payload auth :
  (spotify_audio_features cid cs df w).1 !! i = Some (EvGet a payload auth) ->
  final_auth None (take i (spotify_audio_features cid cs df w).1) = Some auth
  /\ exists t token,
       EvRecv Token t ∈ take i (spotify_audio_features cid cs df w).1
       /\ status_code t = 200 /\ body t = JToken token
       /\ auth = u "Bearer " ++ token.
Proof.
  intros Hi. pose proof (run_auth_follows cid cs df w) as H.
  rewrite <- (take_drop_middle _ _ _ Hi) in H.
  apply auth_follows_app in H as [_ H]. simpl in H. destruct H as [H _].
  split; [exact H|].
  destruct (final_auth_origin _ _ _ H) as [E|E]; [discriminate E|exact E].
Qed.

End AuthFacts.

Section AuthExamples.
Import PyStr Spotify SpotifyTerms Samples.
#[local] Existing Instance ascii_runtime.

Lemma requests_carry_latest_token_witness :
  exists pre,
    pre = take 7 (spotify_audio_features CLIENT_ID CLIENT_SECRET [poor_little_fool]
                    [token_ok; expired; resp 200 (JToken (u "t1")); search_empty]).1
    /\ final_auth None pre = Some (u "Bearer t1").
Proof.
  eexists. split; [reflexivity|].
  apply (requests_carry_latest_token CLIENT_ID CLIENT_SECRET [poor_little_fool]
           [token_ok; expired; resp 200 (JToken (u "t1")); search_empty] 7 Search
           (payload_search (u "Ricky Nelson") (u "Poor Little Fool"))).
  vm_compute. reflexivity.
Defined.

End AuthExamples.

(** ** More on the spider *)
Section SpiderMore.
Import PyStr Billboard BillboardTerms.
Context {RT : Runtime}.

Lemma url_date_week_seq :
  map url_date (map chart_url (week_seq N_CHARTS START_DATE))
  = map Some (week_seq N_CHARTS START_DATE).
Proof. vm_compute. reflexivity. Qed.

Lemma prefix_map {A B} (f : A -> B) (l k : list A) :
  l `prefix_of` k -> map f l `prefix_of` map f k.
Proof. intros [t ->]. exists (map f t). apply map_app. Qed.

Lemma NoDup_prefix {A} (l k : list A) : l `prefix_of` k -> NoDup k -> NoDup l.
Proof. intros [t ->] H. by apply NoDup_app in H as [? _]. Qed.

Lemma NoDup_map_inv {A B} (f : A -> B) (l : list A) : NoDup (map f l) -> NoDup l.
Proof.
  induction l as [|x l IH]; [constructor|].
  simpl. intros H. apply NoDup_cons in H as [Hx Hl].
  constructor; [|by apply IH].
  intros Hin. apply Hx. apply list_elem_of_In, in_map, list_elem_of_In, Hin.
Qed.

Lemma NoDup_map_Some {A} (l : list A) : NoDup l -> NoDup (map Some l).
Proof.
  induction 1 as [|x l Hx Hl IH]; [constructor|].
  simpl. constructor; [|exact IH].
  intros Hin. apply list_elem_of_In, in_map_iff in Hin as (y & Ey & Hy).
  injection Ey as ->. apply Hx, list_elem_of_In, Hy.
Qed.

Lemma week_url_NoDup : NoDup (map chart_url (week_seq N_CHARTS START_DATE)).
Proof.
  apply (NoDup_map_inv url_date). rewrite url_date_week_seq.
  apply NoDup_map_Some, week_seq_NoDup.
Qed.

(** X9: Whatever the site serves, and however many pages, a crawl makes at
    least one request and at most 3383, never more than one more than the
    pages it got, and never requests the same URL twice. *)
Theorem crawl_requests_bounded (pages : list response) :
  (1 <= length (fetched (run_spider pages)) <= N_CHARTS)%nat
  /\ (length (fetched (run_spider pages)) <= S (length pages))%nat
  /\ NoDup (fetched (run_spider pages)).
Proof.
  unfold run_spider.
  destruct (crawl_fetched pages START_DATE) as (ds & Hne & Hp & Hf & _).
  assert (Hw : ds `prefix_of` week_seq N_CHARTS START_DATE).
  { etrans; [exact Hp|]. apply weeks_until_start_prefix. }
  rewrite Hf, length_map.
  assert (Hlen : forall n d, (length (weeks_until n d) <= S n)%nat).
  { induction n as [|n IH]; intros d; simpl; [lia|].
    destruct (date_leb (add_week d) ENDING_DATE); simpl; [|lia].
    specialize (IH (add_week d)). lia. }
  split; [split|split].
  - destruct ds; [contradiction|simpl; lia].
  - apply prefix_length in Hw. rewrite week_seq_length in Hw. exact Hw.
  - apply prefix_length in Hp. specialize (Hlen (length pages) START_DATE). lia.
  - eapply NoDup_prefix; [apply prefix_map, Hw|apply week_url_NoDup].
Qed.

Lemma load_others_length hot_date rows :
  (length (load_others hot_date rows).1 <= length rows)%nat
  /\ ((load_others hot_date rows).2 = true <->
      length (load_others hot_date rows).1 = length rows).
Proof.
  induction rows as [|hot rows [IH1 IH2]]; simpl.
  - split; [lia|tauto].
  - destruct (load_other hot_date hot); simpl.
    + split; [lia|]. rewrite IH2. split; lia.
    + split; [lia|]. split; [discriminate|lia].
Qed.

(** X10: [parse] yields at most one record per row of the page, and it runs to
    its end, advancing the date, exactly when the page has rows and every
    row gave its record; the page that does not ends the crawl: the records
    read before the failing row are kept and no further request is made. *)
Theorem parse_complete_or_crawl_ends (d : pydate) (page : response) :
  (length (yielded (parse d page)) <= length (hot100 page))%nat
  /\ (parses page = true <->
      hot100 page ≠ [] /\ length (yielded (parse d page)) = length (hot100 page))
  /\ (parses page = false ->
      forall pages url,
        fetched (crawl (page :: pages) d url) = [url]
        /\ scraped (crawl (page :: pages) d url) = yielded (parse d page)).
Proof.
  assert (Hp : (length (yielded (parse d page)) <= length (hot100 page))%nat
               /\ (parses page = true <->
                   hot100 page ≠ [] /\ length (yielded (parse d page)) = length (hot100 page))).
  { unfold parses, parse.
    destruct (tagline page) as [hot_date|];
      cbn [yielded advanced length].
    2:{ split; [lia|]. split; [discriminate|]. intros [Hne Hl].
        destruct (hot100 page); [contradiction|discriminate Hl]. }
    destruct (hot100 page) as [|hot1 others];
      cbn [yielded advanced length].
    { split; [lia|]. split; [discriminate|]. intros [Hne _]. contradiction. }
    destruct (load_first hot_date hot1) as [it1|];
      cbn [yielded advanced length].
    2:{ split; [lia|]. split; [discriminate|]. intros [_ Hl]. discriminate Hl. }
    destruct (load_others_length hot_date others) as [H1 H2].
    destruct (load_others hot_date others).2 eqn:E;
      cbn [yielded advanced length].
    - split; [lia|]. split; [|reflexivity]. intros _. split; [discriminate|].
      f_equal. by apply H2.
    - split; [lia|]. split; [discriminate|]. intros [_ Hl].
      injection Hl as Hl. apply H2 in Hl. discriminate Hl. }
  destruct Hp as [Hp1 Hp2]. split; [exact Hp1|]. split; [exact Hp2|].
  intros Hf pages url. cbn [crawl]. rewrite parse_advanced, Hf. split; reflexivity.
Qed.

End SpiderMore.

Section SpiderMoreExamples.
Import PyStr Billboard BillboardTerms Samples MoreSamples.
#[local] Existing Instance ascii_runtime.

Lemma parse_complete_or_crawl_ends_witness :
  parses broken_page = false
  /\ forall pages url,
       fetched (crawl (broken_page :: pages) START_DATE url) = [url]
       /\ scraped (crawl (broken_page :: pages) START_DATE url)
          = yielded (parse START_DATE broken_page).
Proof.
  assert (Hf : parses broken_page = false) by (vm_compute; reflexivity).
  split; [exact Hf|].
  destruct (parse_complete_or_crawl_ends START_DATE broken_page) as (_ & _ & H).
  exact (H Hf).
Defined.

End SpiderMoreExamples.

(** ** The text fields of a record *)
Section TextFieldFacts.
Import PyStr Billboard.
Context {RT : Runtime}.

Lemma take_first_text (texts : list pystr) (v : value) :
  take_first (map (fun t => VStr (strip t)) texts) = Some v ->
  exists t, t ∈ texts /\ v = VStr (strip t) /\ strip t ≠ [].
Proof.
  induction texts as [|t texts IH]; simpl; [discriminate|].
  case_bool_decide as E.
  - intros H. destruct (IH H) as (t' & Hin & Hv). exists t'. split; [by right|exact Hv].
  - intros H. injection H as <-. exists t. split; [left|]. split; [reflexivity|].
    intros En. apply E. by rewrite En.
Qed.

(** X11: The artist and the song of a record, when it has them, are a scraped
    text with the white space at both ends removed, and never the empty
    string. *)
Theorem record_text_fields (d : pydate) (page : response) (it : item)
    (field : string) (v : value) :
  it ∈ yielded (parse d page) ->
  field = "artist"%string \/ field = "song"%string ->
  it !! field = Some v ->
  exists hot t,
    hot ∈ hot100 page
    /\ t ∈ (if bool_decide (field = "artist"%string) then no_trucate hot else h3 hot)
    /\ v = VStr (strip t)
    /\ strip t ≠ []
    /\ (forall c, head (strip t) = Some c -> is_space c = false)
    /\ (forall c, last (strip t) = Some c -> is_space c = false).
Proof.
  intros Hit Hf Hv.
  apply parse_yielded in Hit as (hot_date & hot & _ & Hin & Hload).
  assert (Hfields : text_field it "artist" (no_trucate hot) /\ text_field it "song" (h3 hot)).
  { destruct Hload as [H|H].
    - apply load_first_fields in H. tauto.
    - apply load_other_fields in H. tauto. }
  destruct Hfields as [Ha Hs]. unfold text_field in Ha, Hs.
  assert (Hex : exists t,
            t ∈ (if bool_decide (field = "artist"%string) then no_trucate hot else h3 hot)
            /\ v = VStr (strip t) /\ strip t ≠ []).
  { destruct Hf as [-> | ->].
    - rewrite Ha in Hv. by apply take_first_text in Hv.
    - rewrite Hs in Hv. by apply take_first_text in Hv. }
  destruct Hex as (t & Ht & -> & Hne).
  exists hot, t. split; [exact Hin|]. split; [exact Ht|]. split; [reflexivity|].
  split; [exact Hne|]. split; intros c; apply strip_ends.
Qed.

End TextFieldFacts.

Section TextFieldExamples.
Import PyStr Billboard Samples MoreSamples.
#[local] Existing Instance ascii_runtime.

Lemma head_elem_of {A} (l : list A) (x : A) : head l = Some x -> x ∈ l.
Proof. destruct l; [discriminate|]. intros H. injection H as ->. left. Qed.

Lemma record_text_fields_witness :
  exists hot t,
    first_record ∈ yielded (parse START_DATE good_page)
    /\ hot ∈ hot100 good_page /\ t ∈ no_trucate hot
    /\ first_record !! "artist"%string = Some (VStr (strip t)) /\ strip t ≠ [].
Proof.
  assert (Hh : head (yielded (parse START_DATE good_page)) = Some first_record)
    by (vm_compute; reflexivity).
  assert (Hv : first_record !! "artist"%string = Some (VStr (u "Ricky Nelson")))
    by (vm_compute; reflexivity).
  apply head_elem_of in Hh.
  destruct (record_text_fields START_DATE good_page first_record "artist" _ Hh
              (or_introl eq_refl) Hv)
    as (hot & t & Hin & Ht & Hvt & Hne & _).
  rewrite bool_decide_eq_true_2 in Ht by reflexivity.
  exists hot, t. split; [exact Hh|]. split; [exact Hin|]. split; [exact Ht|].
  split; [|exact Hne]. rewrite <- Hvt. exact Hv.
Defined.

End TextFieldExamples.

(** ** [artist_stats]: which rows count *)
Section ArtistStatsMore.
Import PyStr Np ArtistStats.

Lemma startswith_refl (s : pystr) : startswith s s = true.
Proof. by apply startswith_prefix. Qed.

Lemma foldr_add_perm (l1 l2 : list Z) :
  l1 ≡ₚ l2 -> foldr Z.add 0 l1 = foldr Z.add 0 l2.
Proof. induction 1; simpl; lia. Qed.

Lemma filter_filter_sub {A} (P Q : A -> Prop) `{!forall x, Decision (P x)}
    `{!forall x, Decision (Q x)} (l : list A) :
  (forall x, P x -> Q x) -> filter P (filter Q l) = filter P l.
Proof.
  intros Hsub. induction l as [|x l IH]; [reflexivity|].
  rewrite (filter_cons Q x l), (filter_cons P x l).
  destruct (decide (Q x)) as [HQ|HQ].
  - rewrite (filter_cons P x (filter Q l)), IH. reflexivity.
  - rewrite IH. destruct (decide (P x)) as [HP|HP]; [|reflexivity].
    exfalso. by apply HQ, Hsub.
Qed.

Lemma artist_stats_perm (name : pystr) (l1 l2 : list chart_row) :
  l1 ≡ₚ l2 -> artist_stats name l1 = artist_stats name l2.
Proof.
  intros Hp. unfold artist_stats, solo_df, colab_df.
  destruct (plain_name name); [|reflexivity]. simpl.
  set (P := fun r : chart_row => artist r = name).
  set (Q := fun r : chart_row => startswith (artist r) name = true ∧ artist r ≠ name).
  assert (HP : filter P l1 ≡ₚ filter P l2) by (by rewrite Hp).
  assert (HQ : filter Q l1 ≡ₚ filter Q l2) by (by rewrite Hp).
  f_equal. rewrite !nunique_size, !union1d_size, !col_sum_wrap.
  f_equal.
  - f_equal. apply list_to_set_perm_L. by rewrite HP.
  - f_equal. apply list_to_set_perm_L. by rewrite HQ.
  - f_equal. f_equal; apply list_to_set_perm_L; [by rewrite HP|by rewrite HQ].
  - f_equal. apply foldr_add_perm. by rewrite HP.
  - f_equal; f_equal; apply foldr_add_perm; [by rewrite HP|by rewrite HQ].
Qed.

Lemma artist_stats_related (name : pystr) (hot_100 : list chart_row) :
  artist_stats name (filter (fun r => startswith (artist r) name = true) hot_100)
  = artist_stats name hot_100.
Proof.
  unfold artist_stats, solo_df, colab_df.
  set (S := fun r : chart_row => startswith (artist r) name = true).
  assert (E1 : filter (fun r => artist r = name) (filter S hot_100)
               = filter (fun r => artist r = name) hot_100).
  { apply filter_filter_sub. intros r E. unfold S. rewrite E. apply startswith_refl. }
  assert (E2 : filter (fun r => startswith (artist r) name = true ∧ artist r ≠ name)
                 (filter S hot_100)
               = filter (fun r => startswith (artist r) name = true ∧ artist r ≠ name)
                   hot_100).
  { apply filter_filter_sub. intros r [Hr _]. exact Hr. }
  rewrite E1, E2. reflexivity.
Qed.

(** X12: The statistics depend only on the rows whose artist starts with the
    name, and not on the order of the rows: two chart tables that hold the
    same such rows, each as often, give the same numbers. *)
Theorem artist_stats_rows (name : pystr) (hot_100 hot_100' : list chart_row) :
  filter (fun r => startswith (artist r) name = true) hot_100
    ≡ₚ filter (fun r => startswith (artist r) name = true) hot_100' ->
  artist_stats name hot_100 = artist_stats name hot_100'.
Proof.
  intros H. rewrite <- (artist_stats_related name hot_100),
    <- (artist_stats_related name hot_100').
  by apply artist_stats_perm.
Qed.

(** *** Bounds *)

Lemma size_list_to_set_le `{Countable B} (l : list B) :
  (size (list_to_set l : gset B) <= length l)%nat.
Proof.
  induction l as [|x l IH]; [reflexivity|].
  cbn [list_to_set length].
  pose proof (size_union_alt ({[x]} : gset B) (list_to_set l)) as Hs.
  rewrite size_singleton in Hs.
  assert (size ((list_to_set l : gset B) ∖ {[x]}) <= size (list_to_set l : gset B))%nat
    by (apply subseteq_size, subseteq_difference_l; reflexivity).
  lia.
Qed.

(** X13: With chart positions from 1 to 100 every appearance scores between 1
    and 100 points: in a table whose int64 sums stay in range, one of fewer
    than 2^63 / 100 rows, the solo score lies between the number of solo
    rows and a hundred times that number, and the collaborations add at
    least one point a row.  There are at most as many solo songs as solo rows, and at
    most as many weeks as solo and collaboration rows together; an artist
    without solo rows has no solo song and a solo score of 0. *)
Theorem artist_stats_bounds (name : pystr) (hot_100 : list chart_row) (st : basic_stats) :
  (forall r, r ∈ hot_100 -> 1 <= pos r <= 100) ->
  100 * Z.of_nat (length hot_100) < 2 ^ 63 ->
  artist_stats name hot_100 = Some st ->
  let solo := filter (fun r => artist r = name) hot_100 in
  let colab := filter (fun r => startswith (artist r) name = true ∧ artist r ≠ name) hot_100 in
  Z.of_nat (length solo) <= solo_score st <= 100 * Z.of_nat (length solo)
  /\ solo_score st + Z.of_nat (length colab) <= total_score st
     <= solo_score st + 100 * Z.of_nat (length colab)
  /\ (n_solo_songs st <= length solo)%nat
  /\ (n_colab_songs st <= length colab)%nat
  /\ (n_weeks st <= length solo + length colab)%nat
  /\ (solo = [] -> n_solo_songs st = 0%nat /\ solo_score st = 0).
Proof.
  intros Hpos Hlen H solo colab.
  unfold artist_stats, solo_df, colab_df in H.
  destruct (plain_name name); [|discriminate H]. cbn [mbind option_bind] in H.
  injection H as <-.
  fold solo colab. cbn [solo_score total_score n_solo_songs n_colab_songs n_weeks].
  rewrite !nunique_size, union1d_size, !score_sum, !map_map.
  cbn [row assign_score].
  assert (Hs : forall r, r ∈ solo -> 1 <= 101 - pos r <= 100).
  { intros r Hr. apply list_elem_of_filter in Hr as [_ Hr]. specialize (Hpos r Hr). lia. }
  assert (Hc : forall r, r ∈ colab -> 1 <= 101 - pos r <= 100).
  { intros r Hr. apply list_elem_of_filter in Hr as [_ Hr]. specialize (Hpos r Hr). lia. }
  pose proof (foldr_add_bounds (fun r => 101 - pos r) 1 100 solo Hs) as Bs.
  pose proof (foldr_add_bounds (fun r => 101 - pos r) 1 100 colab Hc) as Bc.
  pose proof (length_filter (fun r => artist r = name) hot_100) as Ls.
  pose proof (length_filter
                (fun r => startswith (artist r) name = true ∧ artist r ≠ name) hot_100) as Lc.
  fold solo in Ls. fold colab in Lc.
  change (2 ^ 63) with 9223372036854775808 in Hlen.
  pose proof (solo_colab_length name hot_100) as Hsc.
  assert (Hcl : colab = filter (fun r => name `prefix_of` artist r ∧ artist r ≠ name) hot_100).
  { unfold colab. apply list_filter_iff. intros r. by rewrite startswith_prefix. }
  rewrite <- Hcl in Hsc. fold solo in Hsc.
  rewrite (wrap64_small (foldr Z.add 0 (map (fun r => 101 - pos r) solo))) by lia.
  rewrite (wrap64_small (foldr Z.add 0 (map (fun r => 101 - pos r) colab))) by lia.
  unfold int64_add.
  rewrite (wrap64_small (_ + _)) by lia.
  split; [lia|]. split; [lia|].
  split. { rewrite <- (length_map (fun r => song r) solo). apply size_list_to_set_le. }
  split. { rewrite <- (length_map (fun r => song r) colab). apply size_list_to_set_le. }
  split.
  { pose proof (size_union_alt (list_to_set (map (fun r => date r) solo) : gset Z)
                  (list_to_set (map (fun r => date r) colab))) as Hu.
    pose proof (size_list_to_set_le (map (fun r => date r) solo)) as H1.
    pose proof (size_list_to_set_le (map (fun r => date r) colab)) as H2.
    rewrite length_map in H1, H2.
    assert (size ((list_to_set (map (fun r => date r) colab) : gset Z)
                  ∖ list_to_set (map (fun r => date r) solo))
            <= size (list_to_set (map (fun r => date r) colab) : gset Z))%nat
      by (apply subseteq_size, subseteq_difference_l; reflexivity).
    lia. }
  intros E. rewrite E. split; reflexivity.
Qed.

End ArtistStatsMore.

Section ArtistStatsMoreExamples.
Import PyStr Np ArtistStats Samples.

Lemma artist_stats_rows_witness :
  artist_stats (u "Drake") fixture = artist_stats (u "Drake") (rev fixture).
Proof.
  apply artist_stats_rows. vm_compute.
  apply Permutation_rev.
Defined.

Lemma artist_stats_bounds_witness :
  exists st,
    artist_stats (u "Drake") fixture = Some st
    /\ 3 <= solo_score st <= 300
    /\ (n_weeks st <= 5)%nat.
Proof.
  assert (E : exists st, artist_stats (u "Drake") fixture = Some st)
    by (eexists; reflexivity).
  destruct E as [st E]. exists st. split; [exact E|].
  assert (Hpos : forall r, r ∈ fixture -> 1 <= pos r <= 100).
  { intros r Hr. unfold fixture in Hr.
    repeat (apply elem_of_cons in Hr as [->|Hr]; [unfold chart; cbn [pos]; lia|]).
    by apply elem_of_nil in Hr. }
  destruct (artist_stats_bounds (u "Drake") fixture st Hpos ltac:(vm_compute; reflexivity) E)
    as (H1 & _ & _ & _ & H5 & _).
  split; [exact H1|exact H5].
Defined.

End ArtistStatsMoreExamples.

(** ** The frame of [genres_popul] *)
Section GenresFrameFacts.
Import PyStr Np Genres GenresTerms.





Section Evaluate.
Variable re_search : pystr -> pystr -> option bool.
Variables (src : series pystr) (songs_no : series Z) (step : Z).








End Evaluate.


(** *** The period labels of the columns *)

Lemma sorted_ext (l1 l2 : list Z) :
  StronglySorted Z.lt l1 -> StronglySorted Z.lt l2 ->
  (forall y, y ∈ l1 <-> y ∈ l2) -> l1 = l2.
Proof.
  intros H1. revert l2. induction H1 as [|a l1 Hs1 IH Ha]; intros l2 H2 Hext.
  - destruct l2 as [|b l2]; [reflexivity|].
    exfalso. apply (not_elem_of_nil b), Hext. left.
  - destruct H2 as [|b l2 Hs2 Hb].
    { exfalso. apply (not_elem_of_nil a), Hext. left. }
    rewrite Forall_forall in Ha, Hb.
    assert (Eab : a = b).
    { assert (Ha2 : a ∈ b :: l2) by (apply Hext; left).
      assert (Hb1 : b ∈ a :: l1) by (apply Hext; left).
      apply elem_of_cons in Ha2 as [E|Ha2]; [exact E|].
      apply elem_of_cons in Hb1 as [E|Hb1]; [by symmetry|].
      pose proof (Ha _ Hb1). pose proof (Hb _ Ha2). lia. }
    subst b. f_equal. apply IH; [exact Hs2|].
    intros y. split; intros Hy.
    + assert (Hy2 : y ∈ a :: l2) by (apply Hext; by right).
      apply elem_of_cons in Hy2 as [E|Hy2]; [|exact Hy2].
      pose proof (Ha _ Hy). lia.
    + assert (Hy1 : y ∈ a :: l1) by (apply Hext; by right).
      apply elem_of_cons in Hy1 as [E|Hy1]; [|exact Hy1].
      pose proof (Hb _ Hy). lia.
Qed.

Lemma unique_of_sorted (l : list Z) : StronglySorted Z.lt l -> unique l = l.
Proof.
  intros H. apply sorted_ext; [apply unique_sorted|exact H|intros y; apply elem_of_unique].
Qed.

Lemma affine_seq_sorted (first step : Z) (start n : nat) :
  0 < step ->
  StronglySorted Z.lt (map (fun k => first + step * Z.of_nat k) (seq start n)).
Proof.
  intros Hstep. revert start. induction n as [|n IH]; intros start; simpl; constructor.
  - apply IH.
  - apply Forall_forall. intros y Hy. apply list_elem_of_fmap in Hy as (k & -> & Hk).
    apply elem_of_seq in Hk. nia.
Qed.

Lemma bin_labels_sorted {A} (step : Z) (s : series A) :
  0 < step -> StronglySorted Z.lt (bin_labels step s).
Proof.
  intros Hstep. unfold bin_labels. destruct (labels s); [constructor|].
  by apply affine_seq_sorted.
Qed.

Lemma last_elem (l : list Z) (x d : Z) : List.last (x :: l) d ∈ x :: l.
Proof.
  revert x. induction l as [|z l IH]; intros x; [left|]. right. exact (IH z).
Qed.

(** A bin label lies between the first and the last index label. *)
Lemma bin_labels_range {A} (step : Z) (s : series A) (y : Z) :
  0 < step -> y ∈ bin_labels step s ->
  exists r1 r2, r1 ∈ s /\ r2 ∈ s /\ r1.1 <= y <= r2.1.
Proof.
  intros Hstep. unfold bin_labels.
  destruct (labels s) as [|first rest] eqn:E; [intros H; by apply elem_of_nil in H|].
  rewrite <- E. intros Hy.
  apply list_elem_of_fmap in Hy as (k & -> & Hk). apply elem_of_seq in Hk.
  assert (Hf : first ∈ labels s) by (rewrite E; left).
  assert (Hl : List.last (labels s) first ∈ labels s).
  { rewrite E. apply last_elem. }
  pose proof (sorted_bounds (labels s) first _ (unique_sorted _) Hl) as Hb.
  rewrite E in Hb. rewrite <- E in Hb.
  apply labels_elem in Hf as (r1 & Hr1 & E1), Hl as (r2 & Hr2 & E2).
  exists r1, r2. split; [exact Hr1|]. split; [exact Hr2|]. rewrite E1, E2.
  set (d := List.last (labels s) first - first) in *.
  assert (Hd : 0 <= d) by (unfold d; lia).
  assert (Hk2 : Z.of_nat k <= d / step).
  { assert (0 <= d / step) by (apply Z.div_pos; lia). lia. }
  pose proof (Z.mul_div_le d step Hstep). nia.
Qed.

Lemma union1d_sub (a b : list Z) :
  StronglySorted Z.lt a -> (forall y, y ∈ b -> y ∈ a) -> union1d a b = a.
Proof.
  intros Ha Hb. apply sorted_ext; [apply unique_sorted|exact Ha|].
  intros y. unfold union1d. rewrite elem_of_unique, elem_of_app. split; [|by left].
  intros [H|H]; [exact H|by apply Hb].
Qed.

(** The labels of a column are the bins of the Grouper, whatever the
    pattern. *)
Lemma genre_popul_labels (re_search : pystr -> pystr -> option bool)
    (genres_src : series pystr) (decades : bool) (pattern : pystr) col :
  genre_popul re_search (prepare genres_src decades).1.1
    (prepare genres_src decades).2 pattern (prepare genres_src decades).1.2 = inr col ->
  map fst col
  = bin_labels (prepare genres_src decades).1.2 (prepare genres_src decades).1.1.
Proof.
  unfold genre_popul.
  destruct (apply_search re_search pattern (prepare genres_src decades).1.1)
    as [flags|] eqn:Ef; [|discriminate].
  apply apply_search_flags in Ef. subst flags. intros E. injection E as <-.
  unfold series_div. rewrite map_map. cbn [fst]. rewrite map_id.
  rewrite grouper_sum_flag, map_map. cbn [fst]. rewrite map_id.
  unfold prepare. destruct decades; cbn [negb fst snd].
  - apply union1d_sub; [by apply bin_labels_sorted|].
    intros y. unfold grouper_count. rewrite map_map. cbn [fst]. by rewrite map_id.
  - apply union1d_sub; [by apply bin_labels_sorted|].
    intros y. unfold count_by_label. rewrite map_map. cbn [fst]. rewrite map_id.
    apply labels_in_bins_1.
Qed.

(** X15: Every column of the frame has the same period labels, the bins of the
    Grouper from the first period with a remaining row to the last one, in
    increasing order: assigning a column never realigns the frame.  A label
    lies between the periods of two rows whose genre string is not '[]',
    and from 1960 up to 2019 when the decades are asked for. *)
Theorem genres_popul_index (re_search : pystr -> pystr -> option bool)
    (genres : list genre) (genres_src : series pystr) (decades : bool) frame name col :
  genres_popul re_search genres genres_src decades = inr frame ->
  (name, col) ∈ frame ->
  map fst col = bin_labels (prepare genres_src decades).1.2 (prepare genres_src decades).1.1
  /\ (forall name' col', (name', col') ∈ frame -> map fst col' = map fst col)
  /\ StronglySorted Z.lt (map fst col)
  /\ (forall y, y ∈ map fst col ->
        (exists r1 r2, r1 ∈ genres_src /\ r2 ∈ genres_src
                       /\ r1.2 ≠ EMPTY_LIST /\ r2.2 ≠ EMPTY_LIST /\ r1.1 <= y <= r2.1)
        /\ (decades = true -> 1960 <= y < 2020)).
Proof.
  intros H Hcol. rewrite genres_popul_unfold in H.
  assert (Hall : forall n c, (n, c) ∈ frame ->
            map fst c = bin_labels (prepare genres_src decades).1.2
                          (prepare genres_src decades).1.1).
  { intros n c Hc.
    apply (evaluate_columns _ _ _ _ _ _ _ _ _ H) in Hc as [Hnil|[pattern Hp]].
    - by apply elem_of_nil in Hnil.
    - eapply genre_popul_labels, Hp. }
  assert (Hstep : 0 < (prepare genres_src decades).1.2).
  { unfold prepare. destruct decades; cbn [negb fst snd]; lia. }
  rewrite (Hall _ _ Hcol). split; [reflexivity|]. split; [exact Hall|].
  split; [by apply bin_labels_sorted|].
  intros y Hy. apply (bin_labels_range _ _ _ Hstep) in Hy as (r1 & r2 & H1 & H2 & Hy).
  revert H1 H2. unfold prepare. destruct decades; cbn [negb fst snd];
    rewrite ?list_elem_of_filter; intros H1 H2.
  - split; [exists r1, r2; tauto|]. intros _. lia.
  - split; [exists r1, r2; tauto|]. discriminate.
Qed.

End GenresFrameFacts.

Section GenresFrameExamples.
Import PyStr Np Genres GenresTerms Samples.


(** An alternation finds the rows of either word. *)
Example alternation_found :
  words_search (u "rockabilly|standards") (u "['adult standards']") = Some true
  /\ words_search (u "rockabilly|pop") (u "['adult standards']") = Some false.
Proof. split; vm_compute; reflexivity. Qed.

(** A pattern the search rejects on a row comes before a later empty
    list: the exception is the re.error, not the IndexError. *)
Example rejected_pattern_first (re_search : pystr -> pystr -> option bool) (bad : pystr) :
  (forall x, re_search bad x = None) ->
  genres_popul re_search [GStr bad; GList []] gap_series false = inl RegexError
  /\ genres_popul re_search [GList []; GStr bad] gap_series false = inl IndexError.
Proof.
  intros Hbad. split; [|reflexivity].
  rewrite genres_popul_unfold. cbn [evaluate]. unfold genre_popul.
  destruct (prepare gap_series false).1.1 as [|r rest] eqn:Es;
    [vm_compute in Es; discriminate Es|].
  cbn [apply_search]. rewrite Hbad. reflexivity.
Qed.

Lemma genres_popul_index_witness :
  exists frame col,
    genres_popul words_search [GStr (u "rock")] gap_series false = inr frame
    /\ (u "rock", col) ∈ frame
    /\ map fst col = [1960; 1961; 1962].
Proof.
  assert (E : exists frame col,
             genres_popul words_search [GStr (u "rock")] gap_series false = inr frame
             /\ (u "rock", col) ∈ frame).
  { eexists. eexists. split; [vm_compute; reflexivity|left]. }
  destruct E as (frame & col & E & Hc). exists frame, col.
  split; [exact E|]. split; [exact Hc|].
  destruct (genres_popul_index _ _ _ _ _ _ _ E Hc) as (-> & _).
  vm_compute. reflexivity.
Defined.

End GenresFrameExamples.

